(** * koji-ansible: the [koji_tag] and [koji_cg] modules

    A shallow embedding of [library/koji_tag.py] and [library/koji_cg.py].
    The Koji client session is an interface ([Session]); every remote
    procedure call the modules make is recorded in a call trace, so that
    statements about which calls a reconciliation issues are statements
    about the value the embedded function returns.

    Conventions of the embedding:
    - the keyword arguments of [ensure_tag] are the six keywords that
      [run_module] passes ([arches], [perm], [locked], [maven_support],
      [maven_include_all], [extra]), typed as [module_args] declares them;
    - a Python [dict] whose iteration order does not matter is a [gmap];
      [packages] (iterated with [.items()]) is an association list in
      insertion order; a Python [set] is a [gset]; the order in which a
      run iterates a set, in each of its two loops over one, is a
      parameter of the run ([Iteration]), and
      so is the order in which the keys of the [extra] dictionary of a
      remote tag arrive ([KeyOrder]);
    - the comprehension at the end of [ensure_tag] has its own scope
      (Python 3), so it does not rebind [name];
    - a line of [stdout_lines] is a constructor of [log_line] that stands
      for the format string of the source and carries its arguments. *)

From Stdlib Require Import ZArith String.
From stdpp Require Import gmap strings list fin_maps.

Local Open Scope Z_scope.
Local Open Scope string_scope.
Local Open Scope list_scope.

(** ** Data *)

(** Values of the [extra] dictionary, identified up to Python's [==]
    (a boolean is the integer 0 or 1 there). *)
Inductive scalar :=
| SNone
| SInt (z : Z)
| SStr (s : string).

#[global] Instance scalar_eq_dec : EqDecision scalar.
Proof. solve_decision. Defined.

(** The [perm] entry: [None], a permission label, or (once [ensure_tag]
    has replaced the label) a permission id. *)
Inductive pyperm :=
| PermNone
| PermStr (s : string)
| PermInt (z : Z).

#[global] Instance pyperm_eq_dec : EqDecision pyperm.
Proof. solve_decision. Defined.

(** Python truthiness of a [perm] entry. *)
Definition truthy (p : pyperm) : bool :=
  match p with
  | PermNone => false
  | PermStr s => if decide (s = "") then false else true
  | PermInt z => if decide (z = 0) then false else true
  end.

(** [**kwargs] of [ensure_tag]. *)
Record Kwargs := {
  kw_arches : option string;
  kw_perm : pyperm;
  kw_locked : bool;
  kw_maven_support : bool;
  kw_maven_include_all : bool;
  kw_extra : gmap string scalar;
}.

(** What [session.getTag] returns for an existing tag. *)
Record TagInfo := {
  ti_id : Z;
  ti_arches : option string;
  ti_perm : pyperm;
  ti_locked : bool;
  ti_maven_support : bool;
  ti_maven_include_all : bool;
  ti_extra : gmap string scalar;
}.

(** The [edits] dictionary of [ensure_tag]: a field is [Some v] when the
    key is present with value [v]. *)
Record Edits := {
  e_arches : option (option string);
  e_perm : option pyperm;
  e_locked : option bool;
  e_maven_support : option bool;
  e_maven_include_all : option bool;
  e_extra : option (gmap string scalar);
  e_remove_extra : option (list string);
}.

#[global] Instance Edits_eq_dec : EqDecision Edits.
Proof. solve_decision. Defined.

Definition no_edits : Edits :=
  {| e_arches := None; e_perm := None; e_locked := None;
     e_maven_support := None; e_maven_include_all := None;
     e_extra := None; e_remove_extra := None |}.

(** An element of the [inheritance] parameter. *)
Record InhDecl := {
  i_parent : string;
  i_priority : Z;
}.

(** An inheritance rule as [getInheritanceData] returns it and
    [setInheritanceData] takes it. *)
Record Rule := {
  r_child_id : Z;
  r_intransitive : bool;
  r_maxdepth : option Z;
  r_name : string;
  r_noconfig : bool;
  r_parent_id : Z;
  r_pkg_filter : string;
  r_priority : Z;
}.

#[global] Instance Rule_eq_dec : EqDecision Rule.
Proof. solve_decision. Defined.

(** An element of the [external_repos] parameter. *)
Record RepoDecl := {
  d_repo : string;
  d_priority : Z;
}.

(** An element of what [getTagExternalRepos] returns. *)
Record ExtRepo := {
  x_external_repo_name : string;
  x_priority : Z;
}.

(** An element of what [listPackages] returns. *)
Record Pkg := {
  p_package_name : string;
  p_owner_name : string;
}.

#[global] Instance Pkg_eq_dec : EqDecision Pkg.
Proof. solve_decision. Defined.

(** An element of what [getAllPerms] returns. *)
Record Perm := {
  perm_name : string;
  perm_id : Z;
}.

(** Lines of [stdout_lines] (and the [stdout] of [delete_tag]). *)
Inductive log_line :=
| WouldCreateTag (name : string)            (* 'would create tag %s' *)
| CreatedTagId (id_ : Z)                    (* 'created tag id %d' *)
| EditsLine (edits : Edits)                 (* str(edits) *)
| InheritanceIs (inheritance : list InhDecl)  (* 'inheritance is %s' *)
| SetRepoPriority (repo_name : string) (repo_priority : Z)
                                            (* 'set %s repo priority to %i' *)
| AddExternalRepo (repo_name tag_name : string)
                                            (* 'add %s external repo to %s' *)
| RemovedRepo (repo_name tag_name : string) (* 'removed %s repo from %s tag' *)
| AddedPkg (package : string)               (* 'added pkg %s' *)
| SetOwner (package owner : string)         (* 'set %s owner %s' *)
| RemovePkg (package : string)              (* 'remove pkg %s' *)
| DeletedTag (id_ : Z).                     (* 'deleted tag %d' *)

(** The [result] dictionary. *)
Record Result := {
  changed : bool;
  stdout_lines : list log_line;
}.

Definition result0 : Result := {| changed := false; stdout_lines := [] |}.

(** [result['stdout_lines'].append(msg); result['changed'] = True] *)
Definition note (msg : log_line) (result : Result) : Result :=
  {| changed := true; stdout_lines := stdout_lines result ++ [msg] |}.

(** Exceptions. *)
Inductive exn :=
| ValueError (msg : string)
| KeyError (key : pyperm)
| NameError (var : string)
| GenericError (msg : string)     (* koji.GenericError *)
| OtherError (msg : string)       (* any other exception of the client *)
| FailJson (msg : string).        (* module.fail_json *)

Inductive result (A : Type) :=
| Ok (a : A)
| Raise (e : exn).
Arguments Ok {A} a.
Arguments Raise {A} e.

(** The two loops over a set: [for repo_name in repos_to_remove] and
    [for package in delete_names]. *)
Inductive loop := RepoLoop | PackageLoop.

(** The order in which one run of a module iterates a set of strings
    in each of its loops: every element once.  Which order is not
    fixed: it follows the hash seed of the Python process and the way
    the set was built, so two runs may differ in it, and so may the two
    loops of one run. *)
Class Iteration := {
  set_order : loop → gset string → list string;
  set_order_elements : ∀ l s, set_order l s ≡ₚ elements s;
}.

(** The order in which the keys of the [extra] dictionary of a tag
    arrive in the reply of [getTag]: every key once.  A Python dict is
    iterated in the order in which its keys were inserted, which is the
    order of the reply. *)
Class KeyOrder := {
  dict_order : gmap string scalar → list string;
  dict_order_keys : ∀ m, dict_order m ≡ₚ map fst (map_to_list m);
}.

(** ** Remote procedure calls *)

Inductive call :=
| EnsureLoggedIn
| GetTag (name : string)
| GetAllPerms
| CreateTag (name : string) (kwargs : Kwargs)
| EditTag2 (name : string) (edits : Edits)
| DeleteTag (name : string)
| GetInheritanceData (name : string)
| SetInheritanceData (name : string) (rules : list Rule) (clear : bool)
| GetTagExternalRepos (tag_name : string)
| EditTagExternalRepo (tag_name repo_name : string) (repo_priority : Z)
| AddExternalRepoToTag (tag_name repo_name : string) (repo_priority : Z)
| RemoveExternalRepoFromTag (tag_name repo_name : string)
| ListPackages (tagID : Z)
| PackageListAdd (name package owner : string)
| PackageListSetOwner (name package owner : string)
| PackageListRemove (name package owner : string)
| GrantCGAccess (user name : string) (create : bool)
| RevokeCGAccess (user name : string).

(** The calls that change the remote service. *)
Definition mutating (c : call) : bool :=
  match c with
  | EnsureLoggedIn | GetTag _ | GetAllPerms | GetInheritanceData _
  | GetTagExternalRepos _ | ListPackages _ => false
  | _ => true
  end.

(** The client session over a remote state [Hub].  A read returns its
    reply; a write returns its reply and the new remote state.  Either
    may raise.  [rpc_ensure_logged_in] stands for
    [common_koji.ensure_logged_in(session)], which is not among the
    sources: it authenticates the session, may raise, and touches no
    tag, repo, package or permission. *)
Class Session (Hub : Type) := {
  rpc_ensure_logged_in : Hub → result unit;
  rpc_getTag : string → Hub → result (option TagInfo);
  rpc_getAllPerms : Hub → result (list Perm);
  rpc_createTag : string → Kwargs → Hub → result Z * Hub;
  rpc_editTag2 : string → Edits → Hub → result unit * Hub;
  rpc_deleteTag : string → Hub → result unit * Hub;
  rpc_getInheritanceData : string → Hub → result (list Rule);
  rpc_setInheritanceData : string → list Rule → bool → Hub → result unit * Hub;
  rpc_getTagExternalRepos : string → Hub → result (list ExtRepo);
  rpc_editTagExternalRepo : string → string → Z → Hub → result unit * Hub;
  rpc_addExternalRepoToTag : string → string → Z → Hub → result unit * Hub;
  rpc_removeExternalRepoFromTag : string → string → Hub → result unit * Hub;
  rpc_listPackages : Z → Hub → result (list Pkg);
  rpc_packageListAdd : string → string → string → Hub → result unit * Hub;
  rpc_packageListSetOwner : string → string → string → Hub → result unit * Hub;
  rpc_packageListRemove : string → string → string → Hub → result unit * Hub;
  rpc_grantCGAccess : string → string → bool → Hub → result unit * Hub;
  rpc_revokeCGAccess : string → string → Hub → result unit * Hub;
}.

(** ** The monad of a module run

    The state is the remote service and the module-level [perm_cache];
    a computation returns a value or raises, a new state, and the calls
    it issued in order.  State changes made before an exception stay. *)

Record World (Hub : Type) := {
  hub : Hub;
  perm_cache : gmap string Z;
}.
Arguments hub {Hub} w.
Arguments perm_cache {Hub} w.
Arguments Build_World {Hub} hub perm_cache.

Record Outcome (Hub A : Type) := {
  out : result A;
  post : World Hub;
  calls : list call;
}.
Arguments out {Hub A} o.
Arguments post {Hub A} o.
Arguments calls {Hub A} o.
Arguments Build_Outcome {Hub A} out post calls.

Definition M (Hub A : Type) : Type := World Hub → Outcome Hub A.

Section Monad.
Context {Hub : Type}.

Definition ret {A} (a : A) : M Hub A :=
  λ w, {| out := Ok a; post := w; calls := [] |}.

Definition raise {A} (e : exn) : M Hub A :=
  λ w, {| out := Raise e; post := w; calls := [] |}.

Definition bind {A B} (m : M Hub A) (f : A → M Hub B) : M Hub B :=
  λ w,
    let o := m w in
    match out o with
    | Ok a =>
        let o' := f a (post o) in
        {| out := out o'; post := post o'; calls := calls o ++ calls o' |}
    | Raise e => {| out := Raise e; post := post o; calls := calls o |}
    end.

(** [try: m except Exception as e: h e] *)
Definition try_except {A} (m : M Hub A) (h : exn → M Hub A) : M Hub A :=
  λ w,
    let o := m w in
    match out o with
    | Ok a => o
    | Raise e =>
        let o' := h e (post o) in
        {| out := out o'; post := post o'; calls := calls o ++ calls o' |}
    end.

(** A remote read. *)
Definition rpc_read {A} (c : call) (f : Hub → result A) : M Hub A :=
  λ w, {| out := f (hub w); post := w; calls := [c] |}.

(** A remote write. *)
Definition rpc_write {A} (c : call) (f : Hub → result A * Hub) : M Hub A :=
  λ w,
    let '(r, h) := f (hub w) in
    {| out := r;
       post := {| hub := h; perm_cache := perm_cache w |};
       calls := [c] |}.

Definition get_cache : M Hub (gmap string Z) :=
  λ w, {| out := Ok (perm_cache w); post := w; calls := [] |}.

Definition set_cache (c : gmap string Z) : M Hub unit :=
  λ w, {| out := Ok tt;
          post := {| hub := hub w; perm_cache := c |};
          calls := [] |}.
End Monad.

#[global] Instance M_ret {Hub} : MRet (M Hub) := λ A a, ret a.
#[global] Instance M_bind {Hub} : MBind (M Hub) := λ A B f m, bind m f.

(** [if not check_mode: m] *)
Definition unless {Hub} (check_mode : bool) (m : M Hub unit) : M Hub unit :=
  if check_mode then mret tt else m.

(** [for a in l: acc = body a acc] *)
Fixpoint for_each {Hub A R} (l : list A) (acc : R) (body : A → R → M Hub R)
  : M Hub R :=
  match l with
  | [] => mret acc
  | a :: l' => acc ← body a acc; for_each l' acc body
  end.

(** ** The calls of a session, as computations *)

Section Calls.
Context {Hub : Type} `{!Session Hub}.

Definition common_koji_ensure_logged_in : M Hub unit :=
  rpc_read EnsureLoggedIn rpc_ensure_logged_in.
Definition session_getTag (name : string) : M Hub (option TagInfo) :=
  rpc_read (GetTag name) (rpc_getTag name).
Definition session_getAllPerms : M Hub (list Perm) :=
  rpc_read GetAllPerms rpc_getAllPerms.
Definition session_createTag (name : string) (kwargs : Kwargs) : M Hub Z :=
  rpc_write (CreateTag name kwargs) (rpc_createTag name kwargs).
Definition session_editTag2 (name : string) (edits : Edits) : M Hub unit :=
  rpc_write (EditTag2 name edits) (rpc_editTag2 name edits).
Definition session_deleteTag (name : string) : M Hub unit :=
  rpc_write (DeleteTag name) (rpc_deleteTag name).
Definition session_getInheritanceData (name : string) : M Hub (list Rule) :=
  rpc_read (GetInheritanceData name) (rpc_getInheritanceData name).
Definition session_setInheritanceData
    (name : string) (rules : list Rule) (clear : bool) : M Hub unit :=
  rpc_write (SetInheritanceData name rules clear)
            (rpc_setInheritanceData name rules clear).
Definition session_getTagExternalRepos (t : string) : M Hub (list ExtRepo) :=
  rpc_read (GetTagExternalRepos t) (rpc_getTagExternalRepos t).
Definition session_editTagExternalRepo (t r : string) (p : Z) : M Hub unit :=
  rpc_write (EditTagExternalRepo t r p) (rpc_editTagExternalRepo t r p).
Definition session_addExternalRepoToTag (t r : string) (p : Z) : M Hub unit :=
  rpc_write (AddExternalRepoToTag t r p) (rpc_addExternalRepoToTag t r p).
Definition session_removeExternalRepoFromTag (t r : string) : M Hub unit :=
  rpc_write (RemoveExternalRepoFromTag t r)
            (rpc_removeExternalRepoFromTag t r).
Definition session_listPackages (tagID : Z) : M Hub (list Pkg) :=
  rpc_read (ListPackages tagID) (rpc_listPackages tagID).
Definition session_packageListAdd (t p o : string) : M Hub unit :=
  rpc_write (PackageListAdd t p o) (rpc_packageListAdd t p o).
Definition session_packageListSetOwner (t p o : string) : M Hub unit :=
  rpc_write (PackageListSetOwner t p o) (rpc_packageListSetOwner t p o).
Definition session_packageListRemove (t p o : string) : M Hub unit :=
  rpc_write (PackageListRemove t p o) (rpc_packageListRemove t p o).
Definition session_grantCGAccess (user name : string) (create : bool)
  : M Hub unit :=
  rpc_write (GrantCGAccess user name create)
            (rpc_grantCGAccess user name create).
Definition session_revokeCGAccess (user name : string) : M Hub unit :=
  rpc_write (RevokeCGAccess user name) (rpc_revokeCGAccess user name).
End Calls.

(** ** [library/koji_tag.py] *)

(** [if taginfo[key] != value: edits[key] = value] *)
Definition differing {A} `{EqDecision A} (remote value : A) : option A :=
  if decide (remote = value) then None else Some value.

(** The loop that finds the [extra] keys to remove: [keys] are the keys of
    [taginfo['extra']], [declared] is [kwargs['extra']], and the
    accumulator is [edits.get('remove_extra')]. *)
Definition remove_extra_loop
    (keys : list string) (declared : gmap string scalar)
  : option (list string) :=
  foldl (λ remove_extra key,
           if decide (declared !! key = None)
           then Some (default [] remove_extra ++ [key])
           else remove_extra)
        None keys.

(** The [edits] dictionary that [ensure_tag] builds for an existing tag. *)
Definition compute_edits {keys : KeyOrder}
    (taginfo : TagInfo) (kwargs : Kwargs) : Edits :=
  {| e_arches := differing (ti_arches taginfo) (kw_arches kwargs);
     e_perm := differing (ti_perm taginfo) (kw_perm kwargs);
     e_locked := differing (ti_locked taginfo) (kw_locked kwargs);
     e_maven_support :=
       differing (ti_maven_support taginfo) (kw_maven_support kwargs);
     e_maven_include_all :=
       differing (ti_maven_include_all taginfo) (kw_maven_include_all kwargs);
     e_extra := differing (ti_extra taginfo) (kw_extra kwargs);
     e_remove_extra :=
       remove_extra_loop (dict_order (ti_extra taginfo))
                         (kw_extra kwargs) |}.

(** [dict([(perm['name'], perm['id']) for perm in perms])]: a later entry
    replaces an earlier one of the same name. *)
Definition dict_of_perms (perms : list Perm) : gmap string Z :=
  foldl (λ d perm, <[perm_name perm := perm_id perm]> d) ∅ perms.

(** [{repo['external_repo_name']: repo for repo in current_repo_list}] *)
Definition index_repos (current_repo_list : list ExtRepo)
  : gmap string ExtRepo :=
  foldl (λ d repo, <[x_external_repo_name repo := repo]> d)
        ∅ current_repo_list.

(** The loop that fills [current_owned]; the second component is the
    variable [owner] as the loop leaves it ([None]: unbound). *)
Definition owned_index (current_pkgs : list Pkg)
  : gmap string (gset string) * option string :=
  foldl (λ '(current_owned, _) pkg,
           let owner := p_owner_name pkg in
           let pkg_name := p_package_name pkg in
           (<[owner := {[pkg_name]} ∪ default ∅ (current_owned !! owner)]>
              current_owned,
            Some owner))
        (∅, None) current_pkgs.

Definition set_perm (p : pyperm) (kwargs : Kwargs) : Kwargs :=
  {| kw_arches := kw_arches kwargs; kw_perm := p;
     kw_locked := kw_locked kwargs;
     kw_maven_support := kw_maven_support kwargs;
     kw_maven_include_all := kw_maven_include_all kwargs;
     kw_extra := kw_extra kwargs |}.

(** The rule [ensure_tag] builds for one declared parent. *)
Definition new_rule (child_id : Z) (parent_name : string) (parent_id : Z)
    (priority : Z) : Rule :=
  {| r_child_id := child_id;
     r_intransitive := false;
     r_maxdepth := None;
     r_name := parent_name;
     r_noconfig := false;
     r_parent_id := parent_id;
     r_pkg_filter := "";
     r_priority := priority |}.

(** Lines 257-259 of [ensure_tag]: [result] after the external-repo
    step. *)
Definition merge_repos_result (result repos_result : Result) : Result :=
  {| changed := if changed repos_result then true else changed result;
     stdout_lines := stdout_lines result ++ stdout_lines repos_result |}.

(** [module.params] of [koji_tag], typed as [module_args] declares them
    ([koji], the profile of the session, is left out). *)
Record Params := {
  p_name : string;
  p_state : string;
  p_inheritance : list InhDecl;
  p_external_repos : option (list RepoDecl);
  p_packages : list (string * list string);
  p_arches : option string;
  p_perm : option string;
  p_locked : bool;
  p_maven_support : bool;
  p_maven_include_all : bool;
  p_extra : gmap string scalar;
}.

(** [params['perm'] or None] *)
Definition perm_or_none (perm : option string) : pyperm :=
  match perm with
  | Some s => if decide (s = "") then PermNone else PermStr s
  | None => PermNone
  end.

(** The keyword arguments [run_module] passes to [ensure_tag]. *)
Definition kwargs_of (params : Params) : Kwargs :=
  {| kw_arches := p_arches params;
     kw_perm := perm_or_none (p_perm params);
     kw_locked := p_locked params;
     kw_maven_support := p_maven_support params;
     kw_maven_include_all := p_maven_include_all params;
     kw_extra := p_extra params |}.

(** How a module run ends: [module.exit_json] with the result,
    [module.fail_json] with a message, or an [AnsibleError] raised around the
    exception of the named function
    (["koji_tag <function> '<name>' failed:..."]). *)
Inductive module_exit :=
| ExitJson (result : Result)
| ExitFailJson (msg : string)
| ExitAnsibleError (function name : string) (e : exn).

Record ModuleRun (Hub : Type) := {
  m_exit : module_exit;
  m_final : World Hub;
  m_calls : list call;
}.
Arguments m_exit {Hub} m.
Arguments m_final {Hub} m.
Arguments m_calls {Hub} m.
Arguments Build_ModuleRun {Hub} m_exit m_final m_calls.

(** [except Exception as e: raise AnsibleError(...)]; the exit of
    [fail_json] is no [Exception] and passes. *)
Definition wrap_exception (function name : string) (e : exn) : module_exit :=
  match e with
  | FailJson msg => ExitFailJson msg
  | _ => ExitAnsibleError function name e
  end.

Module koji_tag.
Section koji_tag.
Context {Hub : Type} `{!Session Hub} {order : Iteration} {keys : KeyOrder}.

Definition get_perm_id (name : pyperm) : M Hub Z :=
  perm_cache ← get_cache;
  perm_cache ←
    (if decide (perm_cache = ∅) then
       perms ← session_getAllPerms;
       let perm_cache := dict_of_perms perms in
       set_cache perm_cache;;
       mret perm_cache
     else mret perm_cache);
  match name with
  | PermStr s =>
      match perm_cache !! s with
      | Some id_ => mret id_
      | None => raise (KeyError name)
      end
  | _ => raise (KeyError name)
  end.

Definition ensure_external_repos
    (tag_name : string) (check_mode : bool) (repos : list RepoDecl)
  : M Hub Result :=
  let result := result0 in
  current_repo_list ← session_getTagExternalRepos tag_name;
  let current := index_repos current_repo_list in
  result ← for_each repos result (λ repo result,
    let repo_name := d_repo repo in
    let repo_priority := d_priority repo in
    match current !! repo_name with
    | Some cur =>
        if decide (repo_priority = x_priority cur) then mret result
        else
          let result := note (SetRepoPriority repo_name repo_priority) result in
          unless check_mode
            (common_koji_ensure_logged_in;;
             session_editTagExternalRepo tag_name repo_name repo_priority);;
          mret result
    | None =>
        let result := note (AddExternalRepo repo_name tag_name) result in
        unless check_mode
          (common_koji_ensure_logged_in;;
           session_addExternalRepoToTag tag_name repo_name repo_priority);;
        mret result
    end);
  let repo_names := map d_repo repos in
  let current_names := dom current in
  let repos_to_remove : gset string :=
    current_names ∖ list_to_set repo_names in
  for_each (set_order RepoLoop repos_to_remove) result (λ repo_name result,
    let result := note (RemovedRepo repo_name tag_name) result in
    unless check_mode
      (common_koji_ensure_logged_in;;
       session_removeExternalRepoFromTag tag_name repo_name);;
    mret result).

(** Lines 231-245 of [ensure_tag]: the body of the loop that builds
    [rules].  [child_id] is [taginfo['id']]. *)
Definition add_rule (child_id : Z) (rule : InhDecl) (rules : list Rule)
  : M Hub (list Rule) :=
  let parent_name := i_parent rule in
  parent_taginfo ← session_getTag parent_name;
  match parent_taginfo with
  | None =>
      raise (ValueError ("parent tag '" +:+ parent_name +:+ "' not found"))
  | Some parent_taginfo =>
      let parent_id := ti_id parent_taginfo in
      mret (rules ++ [new_rule child_id parent_name parent_id
                               (i_priority rule)])
  end.

(** Lines 229-245 of [ensure_tag]: [rules = []] and the loop. *)
Definition build_rules (child_id : Z) (inheritance : list InhDecl)
  : M Hub (list Rule) :=
  for_each inheritance [] (add_rule child_id).

(** Lines 229-252 of [ensure_tag]: the inheritance rules. *)
Definition ensure_inheritance
    (name : string) (check_mode : bool) (inheritance : list InhDecl)
    (child_id : Z) (result : Result) : M Hub Result :=
  rules ← build_rules child_id inheritance;
  current_inheritance ← session_getInheritanceData name;
  if decide (current_inheritance = rules) then mret result
  else
    let result := note (InheritanceIs inheritance) result in
    unless check_mode
      (common_koji_ensure_logged_in;;
       session_setInheritanceData name rules true);;
    mret result.

(** Lines 261-297 of [ensure_tag]: the package list.  [tag_id] is
    [taginfo['id']]. *)
Definition ensure_packages
    (name : string) (check_mode : bool)
    (packages : list (string * list string))
    (tag_id : Z) (result : Result) : M Hub Result :=
  match packages with
  | [] => mret result
  | _ =>
    common_koji_ensure_logged_in;;
    current_pkgs ← session_listPackages tag_id;
    let current_names : gset string :=
      list_to_set (map p_package_name current_pkgs) in
    let '(current_owned, owner) := owned_index current_pkgs in
    '(result, owner) ← for_each packages (result, owner)
      (λ '(owner, owned) '(result, _),
        result ← for_each owned result (λ package result,
          if decide (package ∈ current_names) then
            if decide (package ∈ default ∅ (current_owned !! owner))
            then mret result
            else
              unless check_mode
                (session_packageListSetOwner name package owner);;
              mret (note (SetOwner package owner) result)
          else
            unless check_mode (session_packageListAdd name package owner);;
            mret (note (AddedPkg package) result));
        mret (result, Some owner));
    let all_names := concat (map snd packages) in
    let delete_names : gset string :=
      current_names ∖ list_to_set all_names in
    for_each (set_order PackageLoop delete_names) result (λ package result,
      let result := note (RemovePkg package) result in
      unless check_mode
        (match owner with
         | Some owner => session_packageListRemove name package owner
         | None => raise (NameError "owner")
         end);;
      mret result)
  end.

(** Lines 228-298 of [ensure_tag]: inheritance, external repos and
    packages, in that order. *)
Definition ensure_tag_tail
    (name : string) (check_mode : bool) (inheritance : list InhDecl)
    (external_repos : option (list RepoDecl))
    (packages : list (string * list string))
    (tag_id : Z) (result : Result) : M Hub Result :=
  result ← ensure_inheritance name check_mode inheritance tag_id result;
  result ←
    match external_repos with
    | Some external_repos =>
        repos_result ← ensure_external_repos name check_mode external_repos;
        mret (merge_repos_result result repos_result)
    | None => mret result
    end;
  ensure_packages name check_mode packages tag_id result.

(** Lines 194-227 of [ensure_tag]: the tag and its attributes.  [inl]
    is the early [return result] of check mode; [inr] carries
    [taginfo['id']] and [result] to the rest of the function. *)
Definition ensure_tag_head
    (name : string) (check_mode : bool) (kwargs : Kwargs)
  : M Hub (Result + Z * Result) :=
  taginfo ← session_getTag name;
  let result := result0 in
  match taginfo with
  | None =>
      if check_mode then mret (inl (note (WouldCreateTag name) result))
      else
        common_koji_ensure_logged_in;;
        kwargs ←
          (if truthy (kw_perm kwargs) then
             id_ ← get_perm_id (kw_perm kwargs);
             mret (set_perm (PermInt id_) kwargs)
           else mret kwargs);
        id_ ← session_createTag name kwargs;
        let result := note (CreatedTagId id_) result in
        mret (inr (id_, result))
  | Some taginfo =>
      let edits := compute_edits taginfo kwargs in
      result ←
        (if decide (edits = no_edits) then mret result
         else
           let result := note (EditsLine edits) result in
           unless check_mode
             (common_koji_ensure_logged_in;;
              session_editTag2 name edits);;
           mret result);
      mret (inr (ti_id taginfo, result))
  end.

Definition ensure_tag
    (name : string) (check_mode : bool) (inheritance : list InhDecl)
    (external_repos : option (list RepoDecl))
    (packages : list (string * list string)) (kwargs : Kwargs)
  : M Hub Result :=
  head ← ensure_tag_head name check_mode kwargs;
  match head with
  | inl result => mret result
  | inr (tag_id, result) =>
      ensure_tag_tail name check_mode inheritance external_repos packages
                      tag_id result
  end.

(** [delete_tag]; its [stdout] is the last line of [stdout_lines]
    ([''] when there is none). *)
Definition delete_tag (name : string) (check_mode : bool) : M Hub Result :=
  taginfo ← session_getTag name;
  let result := result0 in
  match taginfo with
  | Some taginfo =>
      let result := note (DeletedTag (ti_id taginfo)) result in
      unless check_mode
        (common_koji_ensure_logged_in;; session_deleteTag name);;
      mret result
  | None => mret result
  end.

(** [run_module] once the session is open. *)
Definition run_module (check_mode : bool) (params : Params) (w : World Hub)
  : ModuleRun Hub :=
  let name := p_name params in
  let state := p_state params in
  if decide (state = "present") then
    let o := ensure_tag name check_mode (p_inheritance params)
               (p_external_repos params) (p_packages params)
               (kwargs_of params) w in
    {| m_exit := match out o with
                 | Ok result => ExitJson result
                 | Raise e => wrap_exception "ensure_tag" name e
                 end;
       m_final := post o; m_calls := calls o |}
  else if decide (state = "absent") then
    let o := delete_tag name check_mode w in
    {| m_exit := match out o with
                 | Ok result => ExitJson result
                 | Raise e => wrap_exception "delete_tag" name e
                 end;
       m_final := post o; m_calls := calls o |}
  else
    {| m_exit := ExitFailJson "State must be 'present' or 'absent'.";
       m_final := w; m_calls := [] |}.
End koji_tag.
End koji_tag.

(** ** [library/koji_cg.py] *)

(** [needle in hay] on strings. *)
Fixpoint contains (needle hay : string) : bool :=
  String.prefix needle hay ||
  match hay with
  | EmptyString => false
  | String _ hay' => contains needle hay'
  end.

Definition already_has_access : string :=
  "User already has access to content generator".

(** The [result] dictionary of [koji_cg]. *)
Record CgResult := {
  cg_changed : bool;
}.

Module koji_cg.
Section koji_cg.
Context {Hub : Type} `{!Session Hub}.

(** [run_module] once the session is open.  [check_mode] is
    [module.check_mode], which the function never reads. *)
Definition run_module (check_mode : bool) (name user state : string)
  : M Hub CgResult :=
  let result := {| cg_changed := false |} in
  if decide (state = "present") then
    try_except
      (session_grantCGAccess user name true;;
       mret {| cg_changed := true |})
      (λ e,
         match e with
         | GenericError msg =>
             if contains already_has_access msg then mret result
             else raise e
         | _ => raise e
         end)
  else if decide (state = "absent") then
    session_revokeCGAccess user name;;
    mret {| cg_changed := true |}
  else
    raise (FailJson "State must be 'present' or 'absent'.").
End koji_cg.
End koji_cg.

(** ** A model of the remote service *)

Module model.

(** Modelled from the spec: the state of the Resource Client's remote
    service (tags with their attributes, inheritance rules, external
    repository bindings, package lists, the permission catalog and the
    content-generator grants); the Koji hub is not part of the
    repository. *)
Record Hub := {
  tags : gmap string TagInfo;
  inheritance : gmap string (list Rule);
  external_repos : gmap string (gmap string Z);
  packages : gmap Z (gmap string string);
  perms : list Perm;
  next_id : Z;
  cg_access : gset (string * string);
}.

Definition set_tags (f : gmap string TagInfo → gmap string TagInfo)
    (h : Hub) : Hub :=
  {| tags := f (tags h); inheritance := inheritance h;
     external_repos := external_repos h; packages := packages h;
     perms := perms h; next_id := next_id h; cg_access := cg_access h |}.

Definition set_inheritance
    (f : gmap string (list Rule) → gmap string (list Rule)) (h : Hub) : Hub :=
  {| tags := tags h; inheritance := f (inheritance h);
     external_repos := external_repos h; packages := packages h;
     perms := perms h; next_id := next_id h; cg_access := cg_access h |}.

Definition set_external_repos
    (f : gmap string (gmap string Z) → gmap string (gmap string Z))
    (h : Hub) : Hub :=
  {| tags := tags h; inheritance := inheritance h;
     external_repos := f (external_repos h); packages := packages h;
     perms := perms h; next_id := next_id h; cg_access := cg_access h |}.

Definition set_packages
    (f : gmap Z (gmap string string) → gmap Z (gmap string string))
    (h : Hub) : Hub :=
  {| tags := tags h; inheritance := inheritance h;
     external_repos := external_repos h; packages := f (packages h);
     perms := perms h; next_id := next_id h; cg_access := cg_access h |}.

Definition set_cg_access
    (f : gset (string * string) → gset (string * string)) (h : Hub) : Hub :=
  {| tags := tags h; inheritance := inheritance h;
     external_repos := external_repos h; packages := packages h;
     perms := perms h; next_id := next_id h; cg_access := f (cg_access h) |}.

(** Modelled from the spec: a tag's permission is stored by its label;
    a write names it by label or by id and fails when the catalog has
    no such entry. *)
Definition resolve_perm (h : Hub) (p : pyperm) : result pyperm :=
  match p with
  | PermNone => Ok PermNone
  | PermStr s =>
      if decide (s ∈ map perm_name (perms h)) then Ok (PermStr s)
      else Raise (GenericError "No such entry in table permissions")
  | PermInt i =>
      match list_find (λ perm, perm_id perm = i) (perms h) with
      | Some (_, perm) => Ok (PermStr (perm_name perm))
      | None => Raise (GenericError "No such entry in table permissions")
      end
  end.

(** Modelled from the spec: [createTag(name, attrs) -> id]. *)
Definition createTag (name : string) (kwargs : Kwargs) (h : Hub)
  : result Z * Hub :=
  match resolve_perm h (kw_perm kwargs) with
  | Raise e => (Raise e, h)
  | Ok p =>
      let id_ := next_id h in
      let taginfo :=
        {| ti_id := id_; ti_arches := kw_arches kwargs; ti_perm := p;
           ti_locked := kw_locked kwargs;
           ti_maven_support := kw_maven_support kwargs;
           ti_maven_include_all := kw_maven_include_all kwargs;
           ti_extra := kw_extra kwargs |} in
      (Ok id_,
       {| tags := <[name := taginfo]> (tags h);
          inheritance := inheritance h;
          external_repos := external_repos h; packages := packages h;
          perms := perms h; next_id := id_ + 1;
          cg_access := cg_access h |})
  end.

(** The attributes of a tag after an edit: a key of [edits] replaces the
    attribute, the keys of [extra] are set one by one, and the keys of
    [remove_extra] are removed. *)
Definition edit_taginfo (edits : Edits) (p : option pyperm) (t : TagInfo)
  : TagInfo :=
  {| ti_id := ti_id t;
     ti_arches := default (ti_arches t) (e_arches edits);
     ti_perm := default (ti_perm t) p;
     ti_locked := default (ti_locked t) (e_locked edits);
     ti_maven_support := default (ti_maven_support t) (e_maven_support edits);
     ti_maven_include_all :=
       default (ti_maven_include_all t) (e_maven_include_all edits);
     ti_extra :=
       foldr delete (default ∅ (e_extra edits) ∪ ti_extra t)
             (default [] (e_remove_extra edits)) |}.

(** Modelled from the spec: [editTag(name, edits, removeExtraKeys)]. *)
Definition editTag2 (name : string) (edits : Edits) (h : Hub)
  : result unit * Hub :=
  match e_perm edits with
  | Some p =>
      match resolve_perm h p with
      | Raise e => (Raise e, h)
      | Ok p => (Ok tt, set_tags (alter (edit_taginfo edits (Some p)) name) h)
      end
  | None => (Ok tt, set_tags (alter (edit_taginfo edits None) name) h)
  end.

(** Modelled from the spec: [deleteTag(name)]. *)
Definition deleteTag (name : string) (h : Hub) : result unit * Hub :=
  (Ok tt, set_tags (delete name) h).

(** Modelled from the spec: [setInheritance(name, rules, clear=true)]
    replaces the whole rule set; without [clear] the rules are added. *)
Definition setInheritanceData
    (name : string) (rules : list Rule) (clear : bool) (h : Hub)
  : result unit * Hub :=
  (Ok tt,
   set_inheritance
     (λ m, <[name := if clear then rules
                     else default [] (m !! name) ++ rules]> m) h).

Definition repos_of (name : string) (h : Hub) : gmap string Z :=
  default ∅ (external_repos h !! name).

(** Modelled from the spec: [fetchExternalRepos(name)]. *)
Definition getTagExternalRepos (name : string) (h : Hub)
  : result (list ExtRepo) :=
  Ok (map (λ b, {| x_external_repo_name := b.1; x_priority := b.2 |})
          (map_to_list (repos_of name h))).

(** Modelled from the spec: [addExternalRepo], [editExternalRepo] and
    [removeExternalRepo] act on one binding of one tag. *)
Definition bindExternalRepo (name repo : string) (priority : Z) (h : Hub)
  : result unit * Hub :=
  (Ok tt,
   set_external_repos (<[name := <[repo := priority]> (repos_of name h)]>) h).

Definition removeExternalRepoFromTag (name repo : string) (h : Hub)
  : result unit * Hub :=
  (Ok tt,
   set_external_repos (<[name := delete repo (repos_of name h)]>) h).

Definition pkgs_of (tag_id : Z) (h : Hub) : gmap string string :=
  default ∅ (packages h !! tag_id).

(** Modelled from the spec: [fetchPackages(tagId)]. *)
Definition listPackages (tag_id : Z) (h : Hub) : result (list Pkg) :=
  Ok (map (λ b, {| p_package_name := b.1; p_owner_name := b.2 |})
          (map_to_list (pkgs_of tag_id h))).

(** Modelled from the spec: [addPackage], [setPackageOwner] and
    [removePackage] name the tag; they fail when it does not exist. *)
Definition update_pkgs (name : string)
    (f : gmap string string → gmap string string) (h : Hub)
  : result unit * Hub :=
  match tags h !! name with
  | Some t =>
      (Ok tt, set_packages (<[ti_id t := f (pkgs_of (ti_id t) h)]>) h)
  | None => (Raise (GenericError "No such tag"), h)
  end.

(** Modelled from the spec: [grantAccess(user, generatorName)]; granting
    twice raises the one error the module tolerates. *)
Definition grantCGAccess (user name : string) (create : bool) (h : Hub)
  : result unit * Hub :=
  if decide ((user, name) ∈ cg_access h) then
    (Raise (GenericError
              ("User already has access to content generator " +:+ name)), h)
  else (Ok tt, set_cg_access (λ s, {[(user, name)]} ∪ s) h).

(** Modelled from the spec: [revokeAccess(user, generatorName)]. *)
Definition revokeCGAccess (user name : string) (h : Hub)
  : result unit * Hub :=
  (Ok tt, set_cg_access (λ s, s ∖ {[(user, name)]}) h).

#[global] Instance session : Session Hub := {|
  rpc_ensure_logged_in := λ _, Ok tt;
  rpc_getTag := λ name h, Ok (tags h !! name);
  rpc_getAllPerms := λ h, Ok (perms h);
  rpc_createTag := createTag;
  rpc_editTag2 := editTag2;
  rpc_deleteTag := deleteTag;
  rpc_getInheritanceData := λ name h, Ok (default [] (inheritance h !! name));
  rpc_setInheritanceData := setInheritanceData;
  rpc_getTagExternalRepos := getTagExternalRepos;
  rpc_editTagExternalRepo := bindExternalRepo;
  rpc_addExternalRepoToTag := bindExternalRepo;
  rpc_removeExternalRepoFromTag := removeExternalRepoFromTag;
  rpc_listPackages := listPackages;
  rpc_packageListAdd := λ name package owner,
    update_pkgs name (<[package := owner]>);
  rpc_packageListSetOwner := λ name package owner,
    update_pkgs name (<[package := owner]>);
  rpc_packageListRemove := λ name package owner,
    update_pkgs name (delete package);
  rpc_grantCGAccess := grantCGAccess;
  rpc_revokeCGAccess := revokeCGAccess;
|}.

(** The replies of [getTagExternalRepos] and [listPackages] for a map of
    bindings and a map of owners. *)
Definition repo_list (m : gmap string Z) : list ExtRepo :=
  map (λ b, {| x_external_repo_name := b.1; x_priority := b.2 |})
      (map_to_list m).

Definition pkg_list (m : gmap string string) : list Pkg :=
  map (λ b, {| p_package_name := b.1; p_owner_name := b.2 |})
      (map_to_list m).

(** The cache is empty or holds the catalog of the service. *)
Definition cache_consistent (w : World Hub) : Prop :=
  perm_cache w = ∅ ∨ perm_cache w = dict_of_perms (perms (hub w)).

(** Two states that differ at most in the attributes of their tags. *)
Definition same_but_attrs (h h' : Hub) : Prop :=
  inheritance h' = inheritance h ∧ external_repos h' = external_repos h ∧
  packages h' = packages h ∧ perms h' = perms h ∧
  ∀ p, ti_id <$> tags h' !! p = ti_id <$> tags h !! p.

Definition empty_hub : Hub :=
  {| tags := ∅; inheritance := ∅; external_repos := ∅; packages := ∅;
     perms := []; next_id := 1; cg_access := ∅ |}.

Definition world (h : Hub) : World Hub := {| hub := h; perm_cache := ∅ |}.
End model.

(** ** Plans

    What a step decides to change, as data: the log line, whether the
    step logs in first, and the call.  The steps of [koji_tag] are shown
    below to run exactly their plans. *)

Record Change := {
  ch_line : log_line;
  ch_login : bool;
  ch_call : call;
}.

Definition notes (chs : list Change) (result : Result) : Result :=
  foldl (λ result ch, note (ch_line ch) result) result chs.

Definition change_calls (ch : Change) : list call :=
  if ch_login ch then [EnsureLoggedIn; ch_call ch] else [ch_call ch].

Section Plans.
Context {Hub : Type} `{!Session Hub}.

(** The write a call stands for. *)
Definition rpc_effect (c : call) (h : Hub) : result unit * Hub :=
  match c with
  | EditTag2 n e => rpc_editTag2 n e h
  | DeleteTag n => rpc_deleteTag n h
  | SetInheritanceData n r cl => rpc_setInheritanceData n r cl h
  | EditTagExternalRepo t r p => rpc_editTagExternalRepo t r p h
  | AddExternalRepoToTag t r p => rpc_addExternalRepoToTag t r p h
  | RemoveExternalRepoFromTag t r => rpc_removeExternalRepoFromTag t r h
  | PackageListAdd t p o => rpc_packageListAdd t p o h
  | PackageListSetOwner t p o => rpc_packageListSetOwner t p o h
  | PackageListRemove t p o => rpc_packageListRemove t p o h
  | GrantCGAccess u n c => rpc_grantCGAccess u n c h
  | RevokeCGAccess u n => rpc_revokeCGAccess u n h
  | _ => (Ok tt, h)
  end.

Definition perform (ch : Change) : M Hub unit :=
  if ch_login ch then
    common_koji_ensure_logged_in;;
    rpc_write (ch_call ch) (rpc_effect (ch_call ch))
  else rpc_write (ch_call ch) (rpc_effect (ch_call ch)).

Definition apply_changes
    (check_mode : bool) (chs : list Change) (result : Result)
  : M Hub Result :=
  for_each chs result (λ ch result,
    unless check_mode (perform ch);;
    mret (note (ch_line ch) result)).

(** The remote state after the writes of a plan, when none raises. *)
Definition effects (chs : list Change) (h : Hub) : Hub :=
  foldl (λ h ch, (rpc_effect (ch_call ch) h).2) h chs.

(** The rules [ensure_tag] builds, when every declared parent exists. *)
Definition declared_rules
    (h : Hub) (child_id : Z) (inheritance : list InhDecl)
  : option (list Rule) :=
  mapM (λ rule,
          match rpc_getTag (i_parent rule) h with
          | Ok (Some parent_taginfo) =>
              Some (new_rule child_id (i_parent rule)
                      (ti_id parent_taginfo) (i_priority rule))
          | _ => None
          end)
       inheritance.
End Plans.

Definition edit_changes {keys : KeyOrder}
    (name : string) (taginfo : TagInfo) (kwargs : Kwargs) : list Change :=
  let edits := compute_edits taginfo kwargs in
  if decide (edits = no_edits) then []
  else [ {| ch_line := EditsLine edits; ch_login := true;
            ch_call := EditTag2 name edits |} ].

Definition inheritance_changes
    (name : string) (inheritance : list InhDecl)
    (current_inheritance rules : list Rule) : list Change :=
  if decide (current_inheritance = rules) then []
  else [ {| ch_line := InheritanceIs inheritance; ch_login := true;
            ch_call := SetInheritanceData name rules true |} ].

Definition repo_change
    (tag_name : string) (current : gmap string ExtRepo) (repo : RepoDecl)
  : option Change :=
  match current !! d_repo repo with
  | Some cur =>
      if decide (d_priority repo = x_priority cur) then None
      else Some {| ch_line := SetRepoPriority (d_repo repo) (d_priority repo);
                   ch_login := true;
                   ch_call := EditTagExternalRepo tag_name (d_repo repo)
                                (d_priority repo) |}
  | None =>
      Some {| ch_line := AddExternalRepo (d_repo repo) tag_name;
              ch_login := true;
              ch_call := AddExternalRepoToTag tag_name (d_repo repo)
                           (d_priority repo) |}
  end.

Definition repo_removal (tag_name repo_name : string) : Change :=
  {| ch_line := RemovedRepo repo_name tag_name; ch_login := true;
     ch_call := RemoveExternalRepoFromTag tag_name repo_name |}.

Definition repos_to_remove
    (current : gmap string ExtRepo) (repos : list RepoDecl) : gset string :=
  dom current ∖ list_to_set (map d_repo repos).

Definition repo_changes {order : Iteration}
    (tag_name : string) (current_repo_list : list ExtRepo)
    (repos : list RepoDecl) : list Change :=
  let current := index_repos current_repo_list in
  omap (repo_change tag_name current) repos ++
  map (repo_removal tag_name) (set_order RepoLoop (repos_to_remove current repos)).

(** The (owner, package) pairs in the order the nested loops visit them. *)
Definition owned_pairs (packages : list (string * list string))
  : list (string * string) :=
  flat_map (λ '(owner, owned), map (pair owner) owned) packages.

Definition pkg_change
    (name : string) (current_names : gset string)
    (current_owned : gmap string (gset string)) (pair : string * string)
  : option Change :=
  let '(owner, package) := pair in
  if decide (package ∈ current_names) then
    if decide (package ∈ default ∅ (current_owned !! owner)) then None
    else Some {| ch_line := SetOwner package owner; ch_login := false;
                 ch_call := PackageListSetOwner name package owner |}
  else Some {| ch_line := AddedPkg package; ch_login := false;
               ch_call := PackageListAdd name package owner |}.

Definition pkg_removal (name owner package : string) : Change :=
  {| ch_line := RemovePkg package; ch_login := false;
     ch_call := PackageListRemove name package owner |}.

Definition delete_names
    (current_pkgs : list Pkg) (packages : list (string * list string))
  : gset string :=
  list_to_set (map p_package_name current_pkgs) ∖
  list_to_set (concat (map snd packages)).

(** The variable [owner] after the loop over [packages.items()]. *)
Definition owner_after
    (packages : list (string * list string)) (owner : option string)
  : option string :=
  foldl (λ _ item, Some item.1) owner packages.

Definition pkg_changes {order : Iteration}
    (name : string) (current_pkgs : list Pkg)
    (packages : list (string * list string)) : list Change :=
  let current_names : gset string :=
    list_to_set (map p_package_name current_pkgs) in
  let current_owned := (owned_index current_pkgs).1 in
  omap (pkg_change name current_names current_owned) (owned_pairs packages) ++
  match owner_after packages None with
  | Some owner =>
      map (pkg_removal name owner)
          (set_order PackageLoop (delete_names current_pkgs packages))
  | None => []
  end.

(** Calls about the external repos of a tag, and about one repo. *)
Definition repo_call (c : call) : bool :=
  match c with
  | GetTagExternalRepos _ | EditTagExternalRepo _ _ _
  | AddExternalRepoToTag _ _ _ | RemoveExternalRepoFromTag _ _ => true
  | _ => false
  end.

Definition about_repo (repo_name : string) (c : call) : bool :=
  match c with
  | EditTagExternalRepo _ r _ | AddExternalRepoToTag _ r _
  | RemoveExternalRepoFromTag _ r => bool_decide (r = repo_name)
  | _ => false
  end.

(** Calls about the package list of a tag, and about one package. *)
Definition package_call (c : call) : bool :=
  match c with
  | ListPackages _ | PackageListAdd _ _ _ | PackageListSetOwner _ _ _
  | PackageListRemove _ _ _ => true
  | _ => false
  end.

Definition about_package (package : string) (c : call) : bool :=
  match c with
  | PackageListAdd _ p _ | PackageListSetOwner _ p _
  | PackageListRemove _ p _ => bool_decide (p = package)
  | _ => false
  end.

Definition is_remove_package (c : call) : bool :=
  match c with
  | PackageListRemove _ _ _ => true
  | _ => false
  end.

(** The mutating calls of a run, in order. *)
Definition writes {Hub A} (o : Outcome Hub A) : list call :=
  filter (λ c, mutating c = true) (calls o).

(** [perm_cache[name]] *)
Definition cached (perm_cache : gmap string Z) (name : pyperm) : result Z :=
  match name with
  | PermStr s =>
      match perm_cache !! s with
      | Some id_ => Ok id_
      | None => Raise (KeyError name)
      end
  | _ => Raise (KeyError name)
  end.

(** The calls of a sequence of permission resolutions in one process:
    each resolution starts in the state the one before left, whether it
    returned or raised. *)
Fixpoint resolutions {Hub} `{!Session Hub}
    (names : list pyperm) (w : World Hub) : list call :=
  match names with
  | [] => []
  | name :: names =>
      let o := koji_tag.get_perm_id name w in
      calls o ++ resolutions names (post o)
  end.

(** The parent lookups of the loop that builds the rules. *)
Definition parent_lookups (inheritance : list InhDecl) : list call :=
  map (λ rule, GetTag (i_parent rule)) inheritance.

Definition parent_not_found (parent_name : string) : exn :=
  ValueError ("parent tag '" +:+ parent_name +:+ "' not found").

(** A computation all of whose calls satisfy [P]. *)
Definition calls_in {Hub A} (P : call → Prop) (m : M Hub A) : Prop :=
  ∀ w, Forall P (calls (m w)).

(** The calls of lines 194-227 of [ensure_tag]. *)
Definition head_call (c : call) : Prop :=
  match c with
  | GetTag _ | EnsureLoggedIn | GetAllPerms | CreateTag _ _ | EditTag2 _ _ =>
      True
  | _ => False
  end.

(** ** Synchronising a map with a declared list

    The external-repo and the package steps follow one scheme: write the
    declared entries the remote map does not have, then delete the keys
    that are not declared. *)

Section Sync.
Context {V : Type} `{!EqDecision V}.

Definition puts (kvs : list (string * V)) (m : gmap string V)
  : gmap string V :=
  foldl (λ m kv, <[kv.1 := kv.2]> m) m kvs.

Definition dels (ks : list string) (m : gmap string V) : gmap string V :=
  foldl (λ m k, delete k m) m ks.

(** The declared entries that the map does not have. *)
Definition stale (m : gmap string V) (decl : list (string * V))
  : list (string * V) :=
  filter (λ kv, m !! kv.1 ≠ Some kv.2) decl.

(** The keys of the map that are not declared. *)
Definition undeclared (m : gmap string V) (decl : list (string * V))
  : list string :=
  elements (dom m ∖ list_to_set (map fst decl)).

Definition sync (m : gmap string V) (decl : list (string * V))
  : gmap string V :=
  dels (undeclared m decl) (puts (stale m decl) m).

(** No key is declared with two values. *)
Definition functional (decl : list (string * V)) : Prop :=
  ∀ k v v', (k, v) ∈ decl → (k, v') ∈ decl → v = v'.

(** The map holds the declared entries and nothing else. *)
Definition agrees (m : gmap string V) (decl : list (string * V)) : Prop :=
  (∀ k v, (k, v) ∈ decl → m !! k = Some v) ∧
  (∀ k, k ∉ map fst decl → m !! k = None).
End Sync.

(** The declared external repos and packages as key-value lists. *)
Definition declared_repos (repos : list RepoDecl) : list (string * Z) :=
  map (λ repo, (d_repo repo, d_priority repo)) repos.

Definition declared_owners (packages : list (string * list string))
  : list (string * string) :=
  map (λ pair, (pair.2, pair.1)) (owned_pairs packages).

(** A remote state in which a run of [ensure_tag] finds nothing to
    change: the tag exists with the declared attributes, its rules are
    the declared ones, and the plans of the external-repo and package
    steps are empty. *)
Definition converged {Hub} `{!Session Hub}
    {order : Iteration} {keys : KeyOrder}
    (name : string) (inheritance : list InhDecl)
    (external_repos : option (list RepoDecl))
    (packages : list (string * list string)) (kwargs : Kwargs) (h : Hub)
  : Prop :=
  ∃ taginfo rules,
    rpc_getTag name h = Ok (Some taginfo) ∧
    compute_edits taginfo kwargs = no_edits ∧
    declared_rules h (ti_id taginfo) inheritance = Some rules ∧
    rpc_getInheritanceData name h = Ok rules ∧
    match external_repos with
    | Some repos =>
        ∃ cur, rpc_getTagExternalRepos name h = Ok cur ∧
               repo_changes name cur repos = []
    | None => True
    end ∧
    (packages = [] ∨
     ∃ cur, rpc_ensure_logged_in h = Ok tt ∧
            rpc_listPackages (ti_id taginfo) h = Ok cur ∧
            pkg_changes name cur packages = []).

(** ** Example states of the model *)

(** The orders of the examples: a set is iterated in the order of
    [elements], or in the reverse of it, and the keys of a dictionary
    arrive in the order of [map_to_list]. *)
Definition sorted_iteration : Iteration :=
  {| set_order := λ _, elements;
     set_order_elements := λ _ s, Permutation_refl (elements s) |}.

Definition reversed_iteration : Iteration :=
  {| set_order := λ _ s, reverse (elements s);
     set_order_elements := λ _ s, reverse_Permutation (elements s) |}.

Definition sorted_keys : KeyOrder :=
  {| dict_order := λ m, map fst (map_to_list m);
     dict_order_keys := λ m, Permutation_refl (map fst (map_to_list m)) |}.

#[global] Existing Instance sorted_iteration | 100.
#[global] Existing Instance sorted_keys | 100.

Module examples.

Definition kwargs0 : Kwargs :=
  {| kw_arches := None; kw_perm := PermNone; kw_locked := false;
     kw_maven_support := false; kw_maven_include_all := false;
     kw_extra := ∅ |}.

Definition taginfo0 (id_ : Z) : TagInfo :=
  {| ti_id := id_; ti_arches := None; ti_perm := PermNone;
     ti_locked := false; ti_maven_support := false;
     ti_maven_include_all := false; ti_extra := ∅ |}.

(** Tags [base] (id 1) and [child] (id 2); [child] inherits from [base]
    with priority 5, binds the external repo [a] with priority 1 and
    lists the package [foo], owned by [bob]. *)
Definition hub1 : model.Hub :=
  {| model.tags := <["base" := taginfo0 1]> (<["child" := taginfo0 2]> ∅);
     model.inheritance := <["child" := [new_rule 2 "base" 1 5]]> ∅;
     model.external_repos := <["child" := <["a" := 1]> ∅]> ∅;
     model.packages := <[2 := <["foo" := "bob"]> ∅]> ∅;
     model.perms := [ {| perm_name := "admin"; perm_id := 1 |} ];
     model.next_id := 3;
     model.cg_access := ∅ |}.

Definition locked_kwargs : Kwargs :=
  {| kw_arches := None; kw_perm := PermNone; kw_locked := true;
     kw_maven_support := false; kw_maven_include_all := false;
     kw_extra := ∅ |}.

(** As [hub1], but [child] binds the external repos [a] and [b]. *)
Definition hub2 : model.Hub :=
  model.set_external_repos
    (λ _, <["child" := <["a" := 1]> (<["b" := 2]> ∅)]> ∅) hub1.

End examples.

(** A computation that leaves the state as it is and issues no mutating
    call. *)
Definition quiet {Hub A} (m : M Hub A) : Prop :=
  ∀ w, post (m w) = w ∧ writes (m w) = [].

(** The calls of each step of [ensure_tag] after the first. *)
Definition inheritance_step_call (c : call) : Prop :=
  match c with
  | GetTag _ | GetInheritanceData _ | EnsureLoggedIn
  | SetInheritanceData _ _ _ => True
  | _ => False
  end.

Definition repo_step_call (c : call) : Prop :=
  c = EnsureLoggedIn ∨ repo_call c = true.

Definition package_step_call (c : call) : Prop :=
  c = EnsureLoggedIn ∨ package_call c = true.

(** The calls a run of [ensure_tag] for the tag [name] may issue. *)
Definition ensure_tag_call (name : string) (c : call) : Prop :=
  match c with
  | GetTag _ | EnsureLoggedIn | GetAllPerms | ListPackages _ => True
  | GetInheritanceData n | GetTagExternalRepos n
  | CreateTag n _ | EditTag2 n _
  | EditTagExternalRepo n _ _ | AddExternalRepoToTag n _ _
  | RemoveExternalRepoFromTag n _
  | PackageListAdd n _ _ | PackageListSetOwner n _ _
  | PackageListRemove n _ _ => n = name
  | SetInheritanceData n _ clear => n = name ∧ clear = true
  | _ => False
  end.

(** The arguments of [createTag]: the declared attributes, with
    [perm] resolved. *)
Definition created_as (name : string) (kwargs : Kwargs) (c : call) : Prop :=
  ∀ n kw, c = CreateTag n kw →
    n = name ∧
    ∃ p, kw = set_perm p kwargs ∧
         if truthy (kw_perm kwargs) then ∃ id_, p = PermInt id_
         else p = kw_perm kwargs.

(** The tag a mutating call of [koji_tag] names. *)
Definition written_tag (c : call) : option string :=
  match c with
  | CreateTag n _ | EditTag2 n _ | DeleteTag n | SetInheritanceData n _ _
  | EditTagExternalRepo n _ _ | AddExternalRepoToTag n _ _
  | RemoveExternalRepoFromTag n _
  | PackageListAdd n _ _ | PackageListSetOwner n _ _
  | PackageListRemove n _ _ => Some n
  | _ => None
  end.

(** The mutating call a log line speaks of. *)
Definition describes (line : log_line) (c : call) : Prop :=
  match line, c with
  | CreatedTagId _, CreateTag _ _ => True
  | EditsLine edits, EditTag2 _ edits' => edits' = edits
  | InheritanceIs _, SetInheritanceData _ _ clear => clear = true
  | SetRepoPriority r p, EditTagExternalRepo _ r' p' => r' = r ∧ p' = p
  | AddExternalRepo r t, AddExternalRepoToTag t' r' _ => t' = t ∧ r' = r
  | RemovedRepo r t, RemoveExternalRepoFromTag t' r' => t' = t ∧ r' = r
  | AddedPkg p, PackageListAdd _ p' _ => p' = p
  | SetOwner p o, PackageListSetOwner _ p' o' => p' = p ∧ o' = o
  | RemovePkg p, PackageListRemove _ p' _ => p' = p
  | DeletedTag _, DeleteTag _ => True
  | _, _ => False
  end.

(** What a step appends to the log and what it writes. *)
Definition appends {Hub A} (lines : A → list log_line) (m : M Hub A)
    (w : World Hub) (old : list log_line) : Prop :=
  ∀ a, out (m w) = Ok a →
    ∃ new, lines a = old ++ new ∧ Forall2 describes new (writes (m w)).

(** The lines of the two removal loops. *)
Definition repo_removal_line (line : log_line) : Prop :=
  match line with RemovedRepo _ _ => True | _ => False end.

Definition package_removal_line (line : log_line) : Prop :=
  match line with RemovePkg _ => True | _ => False end.

(** Two logs that differ at most in the order of the lines of the
    external-repo removals, and in the order of the lines of the package
    removals. *)
Definition same_but_removal_order (l1 l2 : list log_line) : Prop :=
  ∃ a r1 r2 b p1 p2,
    l1 = a ++ r1 ++ b ++ p1 ∧ l2 = a ++ r2 ++ b ++ p2 ∧
    r1 ≡ₚ r2 ∧ p1 ≡ₚ p2 ∧
    Forall repo_removal_line r1 ∧ Forall package_removal_line p1.





(** The six attributes of a tag are the declared ones. *)
Definition same_attributes (taginfo : TagInfo) (kwargs : Kwargs) : Prop :=
  ti_arches taginfo = kw_arches kwargs ∧
  ti_perm taginfo = kw_perm kwargs ∧
  ti_locked taginfo = kw_locked kwargs ∧
  ti_maven_support taginfo = kw_maven_support kwargs ∧
  ti_maven_include_all taginfo = kw_maven_include_all kwargs ∧
  ti_extra taginfo = kw_extra kwargs.

(** A result whose [changed] says whether anything was logged. *)
Definition changed_iff_logged (result : Result) : Prop :=
  changed result = true ↔ stdout_lines result ≠ [].

(** * Proofs *)

(** ** Iteration orders *)

Section IterationFacts.
Context {order : Iteration} {keys : KeyOrder}.

Lemma elem_of_set_order l s x : x ∈ set_order l s ↔ x ∈ s.
Proof. by rewrite set_order_elements, elem_of_elements. Qed.

Lemma NoDup_set_order l s : NoDup (set_order l s).
Proof. rewrite set_order_elements. apply NoDup_elements. Qed.

Lemma set_order_empty l : set_order l ∅ = [].
Proof.
  apply Permutation_nil_r. by rewrite set_order_elements, elements_empty.
Qed.

Lemma set_order_nil l s : set_order l s = [] → s = ∅.
Proof.
  intros Hnil. apply set_eq. intros x.
  rewrite <- (elem_of_set_order l), Hnil. set_solver.
Qed.

Lemma elem_of_dict_order (m : gmap string scalar) k :
  k ∈ dict_order m ↔ is_Some (m !! k).
Proof.
  rewrite dict_order_keys. split.
  - intros ([k' v] & -> & Hkv%elem_of_map_to_list)%list_elem_of_fmap.
    by exists v.
  - intros [v Hv]. apply list_elem_of_fmap. exists (k, v).
    by rewrite elem_of_map_to_list.
Qed.

Lemma NoDup_dict_order (m : gmap string scalar) : NoDup (dict_order m).
Proof. rewrite dict_order_keys. apply NoDup_fst_map_to_list. Qed.
End IterationFacts.

(** ** The monad *)

Section MonadFacts.
Context {Hub : Type}.
Implicit Types w : World Hub.

Lemma outcome_eta {A} (o : Outcome Hub A) :
  {| out := out o; post := post o; calls := calls o |} = o.
Proof. by destruct o. Qed.

Lemma bind_unfold {A B} (m : M Hub A) (f : A → M Hub B) w :
  (m ≫= f) w =
  match out (m w) with
  | Ok a =>
      let o' := f a (post (m w)) in
      {| out := out o'; post := post o'; calls := calls (m w) ++ calls o' |}
  | Raise e => {| out := Raise e; post := post (m w); calls := calls (m w) |}
  end.
Proof. reflexivity. Qed.

Lemma ret_bind {A B} (a : A) (f : A → M Hub B) w : (mret a ≫= f) w = f a w.
Proof. rewrite bind_unfold. simpl. apply outcome_eta. Qed.

Lemma bind_ret {A} (m : M Hub A) w : (m ≫= mret) w = m w.
Proof.
  rewrite bind_unfold. destruct (m w) as [[a|e] p c]; simpl; [|done].
  by rewrite app_nil_r.
Qed.

Lemma bind_assoc {A B C} (m : M Hub A) (f : A → M Hub B) (g : B → M Hub C) w :
  ((m ≫= f) ≫= g) w = (m ≫= λ a, f a ≫= g) w.
Proof.
  rewrite !bind_unfold. destruct (out (m w)) as [a|e]; simpl; [|done].
  rewrite !bind_unfold. destruct (out (f a (post (m w)))); simpl; [|done].
  by rewrite app_assoc.
Qed.

Lemma bind_ext {A B} (m : M Hub A) (f g : A → M Hub B) w :
  (∀ a w', f a w' = g a w') → (m ≫= f) w = (m ≫= g) w.
Proof. intros E. rewrite !bind_unfold. destruct (out (m w)); [|done]. simpl. by rewrite E. Qed.

Lemma bind_ok_inv {A B} (m : M Hub A) (f : A → M Hub B) w b :
  out ((m ≫= f) w) = Ok b →
  ∃ a, out (m w) = Ok a ∧ out (f a (post (m w))) = Ok b ∧
       post ((m ≫= f) w) = post (f a (post (m w))) ∧
       calls ((m ≫= f) w) = calls (m w) ++ calls (f a (post (m w))).
Proof.
  rewrite bind_unfold. destruct (out (m w)) as [a|e]; simpl; [|done].
  intros H. by exists a.
Qed.

Lemma for_each_app {A R} (l1 l2 : list A) (r : R) body w :
  for_each (l1 ++ l2) r body w =
  (for_each l1 r body ≫= λ r, for_each l2 r body) w.
Proof.
  revert r w. induction l1 as [|a l1 IH]; intros r w; simpl.
  - by rewrite ret_bind.
  - rewrite bind_assoc. apply bind_ext. intros; apply IH.
Qed.

Lemma for_each_ext {A R} (l : list A) (r : R) (body body' : A → R → M Hub R) w :
  (∀ a r w, body a r w = body' a r w) →
  for_each l r body w = for_each l r body' w.
Proof.
  intros E. revert r w. induction l as [|a l IH]; intros r w; simpl; [done|].
rewrite !bind_unfold, E.
  destruct (out (body' a r w)); [|done]. simpl. by rewrite IH.
Qed.

Lemma for_each_omap {A C R} (plan : A → option C) (l : list A) (r : R)
    (g : C → R → M Hub R) w :
  for_each l r (λ a r, match plan a with Some c => g c r | None => mret r end) w
  = for_each (omap plan l) r g w.
Proof.
  revert r w. induction l as [|a l IH]; intros r w; simpl; [done|].

  destruct (plan a) as [c|]; simpl.
  - apply bind_ext. intros; apply IH.
  - rewrite ret_bind. apply IH.
Qed.
End MonadFacts.

(** ** Facts about plans *)

Lemma stdout_lines_notes chs r :
  stdout_lines (notes chs r) = stdout_lines r ++ map ch_line chs.
Proof.
  revert r. induction chs as [|ch chs IH]; intros r; simpl.
  - by rewrite app_nil_r.
  - unfold notes in *. simpl. rewrite IH. simpl. by rewrite <- app_assoc.
Qed.

Lemma changed_notes chs r :
  changed (notes chs r) = match chs with [] => changed r | _ => true end.
Proof.
  revert r. induction chs as [|ch chs IH]; intros r; [done|].
  change (notes (ch :: chs) r) with (notes chs (note (ch_line ch) r)).
  rewrite IH. by destruct chs.
Qed.

Lemma notes_nil_inv chs r : changed r = false → changed (notes chs r) = false → chs = [].
Proof. rewrite changed_notes. by destruct chs. Qed.

Section PlanFacts.
Context {Hub : Type} `{!Session Hub} {order : Iteration} {keys : KeyOrder}.
Implicit Types w : World Hub.

Lemma perform_unfold ch w :
  perform ch w =
  if ch_login ch then
    match rpc_ensure_logged_in (hub w) with
    | Ok _ =>
        {| out := (rpc_effect (ch_call ch) (hub w)).1;
           post := {| hub := (rpc_effect (ch_call ch) (hub w)).2;
                      perm_cache := perm_cache w |};
           calls := [EnsureLoggedIn; ch_call ch] |}
    | Raise e => {| out := Raise e; post := w; calls := [EnsureLoggedIn] |}
    end
  else
    {| out := (rpc_effect (ch_call ch) (hub w)).1;
       post := {| hub := (rpc_effect (ch_call ch) (hub w)).2;
                  perm_cache := perm_cache w |};
       calls := [ch_call ch] |}.
Proof.
  unfold perform. destruct (ch_login ch).
  - rewrite bind_unfold. unfold common_koji_ensure_logged_in, rpc_read, rpc_write.
    simpl. destruct (rpc_ensure_logged_in (hub w)); simpl; [|done].
    by destruct (rpc_effect (ch_call ch) (hub w)).
  - unfold rpc_write. by destruct (rpc_effect (ch_call ch) (hub w)).
Qed.

Lemma apply_changes_cons cm ch chs r w :
  apply_changes cm (ch :: chs) r w =
  (unless cm (perform ch) ≫= λ _, apply_changes cm chs (note (ch_line ch) r)) w.
Proof.
  unfold apply_changes. simpl. rewrite bind_assoc. apply bind_ext.
  intros [] w'. by rewrite ret_bind.
Qed.

Lemma apply_changes_check chs r w :
  apply_changes true chs r w = {| out := Ok (notes chs r); post := w; calls := [] |}.
Proof.
  revert r. induction chs as [|ch chs IH]; intros r; [done|].
  rewrite apply_changes_cons. unfold unless. rewrite ret_bind. apply IH.
Qed.

Lemma apply_changes_out cm chs r w r' :
  out (apply_changes cm chs r w) = Ok r' → r' = notes chs r.
Proof.
  revert r w. induction chs as [|ch chs IH]; intros r w.
  - simpl. by intros [= <-].
  - rewrite apply_changes_cons. intros (_ & _ & H & _)%bind_ok_inv.
    by apply IH in H.
Qed.

Lemma apply_changes_ok chs r w r' :
  out (apply_changes false chs r w) = Ok r' →
  calls (apply_changes false chs r w) = flat_map change_calls chs ∧
  hub (post (apply_changes false chs r w)) = effects chs (hub w) ∧
  perm_cache (post (apply_changes false chs r w)) = perm_cache w.
Proof.
  revert r w. induction chs as [|ch chs IH]; intros r w.
  - done.
  - rewrite apply_changes_cons. intros Hok.
    destruct (bind_ok_inv _ _ _ _ Hok) as ([] & H1 & H2 & -> & ->).
    apply IH in H2 as (-> & -> & ->).
    unfold unless in *. rewrite perform_unfold in *. unfold change_calls, effects.
    simpl. destruct (ch_login ch).
    + destruct (rpc_ensure_logged_in (hub w)); [|done]. done.
    + done.
Qed.

End PlanFacts.

(** ** The steps of [koji_tag] run their plans *)

Section Canonical.
Context {Hub : Type} `{!Session Hub} {order : Iteration} {keys : KeyOrder}.
Implicit Types w : World Hub.

Lemma bind_ext_l {A B} (m m' : M Hub A) (f : A → M Hub B) w :
  m w = m' w → (m ≫= f) w = (m' ≫= f) w.
Proof. intros E. by rewrite !bind_unfold, E. Qed.

Lemma bind_ext2 {A B} (m m' : M Hub A) (f g : A → M Hub B) w :
  m w = m' w → (∀ a w', f a w' = g a w') → (m ≫= f) w = (m' ≫= g) w.
Proof. intros E1 E2. etrans; [by apply bind_ext_l|by apply bind_ext]. Qed.

Lemma for_each_map {A B R} (h : A → B) (l : list A) (r : R)
    (g : B → R → M Hub R) w :
  for_each (map h l) r g w = for_each l r (λ a, g (h a)) w.
Proof.
  revert r w. induction l as [|a l IH]; intros r w; simpl; [done|].
  apply bind_ext. intros; apply IH.
Qed.

Lemma ensure_external_repos_plan tag cm repos w :
  koji_tag.ensure_external_repos tag cm repos w =
  (cur ← session_getTagExternalRepos tag;
   apply_changes cm (repo_changes tag cur repos) result0) w.
Proof.
  unfold koji_tag.ensure_external_repos. apply bind_ext. intros cur w'.
  unfold repo_changes, apply_changes. rewrite for_each_app.
  etrans; [apply bind_ext_l|apply bind_ext].
  - etrans; [|apply for_each_omap with (plan := repo_change tag (index_repos cur))].
    apply for_each_ext. intros repo r w''. unfold repo_change.
    destruct (index_repos cur !! d_repo repo) as [b|]; [|done].
    by destruct (decide (d_priority repo = x_priority b)).
  - intros r w''. by rewrite for_each_map.
Qed.

Lemma ensure_inheritance_plan name cm inh id r w :
  koji_tag.ensure_inheritance name cm inh id r w =
  (rules ← koji_tag.build_rules id inh;
   cur ← session_getInheritanceData name;
   apply_changes cm (inheritance_changes name inh cur rules) r) w.
Proof.
  unfold koji_tag.ensure_inheritance. apply bind_ext. intros rules w'.
  apply bind_ext. intros cur w''. unfold inheritance_changes.
  destruct (decide (cur = rules)); [done|].
  rewrite apply_changes_cons. apply bind_ext. by intros [] w3.
Qed.

Lemma owner_after_cons packages item owner :
  owner_after (packages ++ [item]) owner = Some item.1.
Proof. unfold owner_after. by rewrite foldl_app. Qed.

Lemma owner_after_ne packages owner :
  packages ≠ [] → owner_after packages owner = owner_after packages None.
Proof.
  destruct packages as [|item packages _] using rev_ind; [done|].
  intros _. by rewrite !owner_after_cons.
Qed.

Lemma owner_after_last packages owner :
  owner_after packages owner =
  match last packages with Some item => Some item.1 | None => owner end.
Proof.
  destruct packages as [|item packages _] using rev_ind; [done|].
  by rewrite owner_after_cons, last_snoc.
Qed.

Lemma packages_loop_flat name cm cn co packages (r : Result) owner w :
  for_each packages (r, owner)
    (λ '(owner, owned) '(result, _),
       result ← for_each owned result (λ package result,
         if decide (package ∈ cn) then
           if decide (package ∈ default ∅ (co !! owner))
           then mret result
           else
             unless cm (session_packageListSetOwner name package owner);;
             mret (note (SetOwner package owner) result)
         else
           unless cm (session_packageListAdd name package owner);;
           mret (note (AddedPkg package) result));
       mret (result, Some owner)) w
  = (r ← apply_changes cm (omap (pkg_change name cn co) (owned_pairs packages)) r;
     mret (r, owner_after packages owner)) w.
Proof.
  revert r owner w. induction packages as [|[o owned] packages IH]; intros r owner w.
  - unfold apply_changes. cbn [for_each owned_pairs flat_map omap list_omap].
    by rewrite ret_bind.
  - cbn [for_each]. rewrite bind_assoc.
    etrans. { apply bind_ext. intros r' w'. rewrite ret_bind. apply IH. }
    cbn [owned_pairs flat_map]. rewrite omap_app. unfold apply_changes.
    symmetry. etrans. { apply bind_ext_l, for_each_app. }
    rewrite bind_assoc. apply bind_ext2; [|done].
    etrans. { symmetry. apply for_each_omap. }
    rewrite for_each_map. apply for_each_ext. intros p r' w'. simpl.
    destruct (decide (p ∈ cn)); [|done].
    by destruct (decide (p ∈ default ∅ (co !! o))).
Qed.

Lemma ensure_packages_plan name cm packages id r w :
  packages ≠ [] →
  koji_tag.ensure_packages name cm packages id r w =
  (common_koji_ensure_logged_in;;
   cur ← session_listPackages id;
   apply_changes cm (pkg_changes name cur packages) r) w.
Proof.
  intros Hne. unfold koji_tag.ensure_packages.
  destruct packages as [|item packages]; [done|].
  set (pk := item :: packages) in *. clearbody pk.
  apply bind_ext. intros [] w'. apply bind_ext. intros cur w''.
  unfold pkg_changes. destruct (owned_index cur) as [co ow]. cbn [fst].
  etrans. { apply bind_ext_l, packages_loop_flat. }
  rewrite bind_assoc. unfold apply_changes at 2. rewrite for_each_app.
  apply bind_ext. intros r' w3. rewrite ret_bind.
  rewrite (owner_after_ne pk ow Hne).
  destruct (owner_after pk None) as [o|] eqn:Ho.
  - unfold delete_names. rewrite for_each_map. by apply for_each_ext.
  - rewrite owner_after_last in Ho. destruct pk as [|x pk' _] using rev_ind; [done|].
    by rewrite last_snoc in Ho.
Qed.
End Canonical.

(** ** Quiet computations *)

Section Quiet.
Context {Hub : Type} `{!Session Hub} {order : Iteration} {keys : KeyOrder}.
Implicit Types w : World Hub.

Lemma quiet_ret {A} (a : A) : quiet (mret a : M Hub A).
Proof. done. Qed.

Lemma quiet_raise {A} e : quiet (raise e : M Hub A).
Proof. done. Qed.

Lemma quiet_read {A} c (f : Hub → result A) :
  mutating c = false → quiet (rpc_read c f).
Proof.
  intros Hc w. split; [done|]. unfold writes. simpl.
  rewrite filter_cons_False; [done|]. by rewrite Hc.
Qed.

Lemma quiet_bind {A B} (m : M Hub A) (f : A → M Hub B) :
  quiet m → (∀ a, quiet (f a)) → quiet (m ≫= f).
Proof.
  intros Hm Hf w. rewrite bind_unfold. destruct (Hm w) as [Hp Hw].
  destruct (out (m w)) as [a|e]; simpl; [|done].
  destruct (Hf a (post (m w))) as [Hp' Hw']. split; [congruence|].
  unfold writes in *. simpl. by rewrite filter_app, Hw, Hw'.
Qed.

Lemma quiet_for_each {A R} (l : list A) (r : R) (body : A → R → M Hub R) :
  (∀ a r, quiet (body a r)) → quiet (for_each l r body).
Proof.
  intros Hb. revert r. induction l as [|a l IH]; intros r; simpl.
  - apply quiet_ret.
  - apply quiet_bind; [apply Hb|apply IH].
Qed.

Lemma quiet_ext {A} (m m' : M Hub A) :
  (∀ w, m w = m' w) → quiet m' → quiet m.
Proof. intros E Hq w. rewrite E. apply Hq. Qed.

Lemma quiet_apply_changes chs r : quiet (apply_changes true chs r).
Proof. intros w. by rewrite apply_changes_check. Qed.

Lemma quiet_build_rules id inh : quiet (koji_tag.build_rules id inh).
Proof.
  apply quiet_for_each. intros d rules. unfold koji_tag.add_rule. apply quiet_bind.
  - by apply quiet_read.
  - intros [t|]; [apply quiet_ret|apply quiet_raise].
Qed.

Lemma quiet_ensure_inheritance name inh id r :
  quiet (koji_tag.ensure_inheritance name true inh id r).
Proof.
  eapply quiet_ext; [intros w; apply ensure_inheritance_plan|].
  apply quiet_bind; [apply quiet_build_rules|]. intros rules.
  apply quiet_bind; [by apply quiet_read|]. intros cur. apply quiet_apply_changes.
Qed.

Lemma quiet_ensure_external_repos tag repos :
  quiet (koji_tag.ensure_external_repos tag true repos).
Proof.
  eapply quiet_ext; [intros w; apply ensure_external_repos_plan|].
  apply quiet_bind; [by apply quiet_read|]. intros cur. apply quiet_apply_changes.
Qed.

Lemma quiet_ensure_packages name packages id r :
  quiet (koji_tag.ensure_packages name true packages id r).
Proof.
  destruct (decide (packages = [])) as [->|Hne]; [apply quiet_ret|].
  eapply quiet_ext; [intros w; by apply ensure_packages_plan|].
  apply quiet_bind; [by apply quiet_read|]. intros _.
  apply quiet_bind; [by apply quiet_read|]. intros cur. apply quiet_apply_changes.
Qed.

Lemma quiet_ensure_tag_tail name inh repos packages id r :
  quiet (koji_tag.ensure_tag_tail name true inh repos packages id r).
Proof.
  apply quiet_bind; [apply quiet_ensure_inheritance|]. intros r1.
  apply quiet_bind; [|intros r2; apply quiet_ensure_packages].
  destruct repos as [repos|]; [|apply quiet_ret].
  apply quiet_bind; [apply quiet_ensure_external_repos|]. intros; apply quiet_ret.
Qed.

Lemma quiet_ensure_tag_head name kwargs :
  quiet (koji_tag.ensure_tag_head name true kwargs).
Proof.
  apply quiet_bind; [by apply quiet_read|]. intros [t|]; [|apply quiet_ret].
  apply quiet_bind; [|intros; apply quiet_ret].
  destruct (decide _); [apply quiet_ret|].
  apply quiet_bind; intros; apply quiet_ret.
Qed.

(** In check mode [ensure_tag] and [delete_tag] leave the remote service
    and the cache as they are and issue no mutating call, whatever the
    session replies. *)
Lemma quiet_ensure_tag name inh repos packages kwargs :
  quiet (koji_tag.ensure_tag name true inh repos packages kwargs).
Proof.
  apply quiet_bind; [apply quiet_ensure_tag_head|].
  intros [r|[id r]]; [apply quiet_ret|apply quiet_ensure_tag_tail].
Qed.

Lemma quiet_delete_tag name : quiet (koji_tag.delete_tag name true).
Proof.
  apply quiet_bind; [by apply quiet_read|]. intros [t|]; [|apply quiet_ret].
  apply quiet_bind; intros; apply quiet_ret.
Qed.
End Quiet.

(** ** Inheritance *)

Section Inheritance.
Context {Hub : Type} `{!Session Hub} {order : Iteration} {keys : KeyOrder}.
Implicit Types w : World Hub.

Lemma declared_rules_cons h id d inh :
  declared_rules h id (d :: inh) =
  match rpc_getTag (i_parent d) h with
  | Ok (Some t) =>
      match declared_rules h id inh with
      | Some rules => Some (new_rule id (i_parent d) (ti_id t) (i_priority d) :: rules)
      | None => None
      end
  | _ => None
  end.
Proof.
  unfold declared_rules. cbn [mapM].
  destruct (rpc_getTag (i_parent d) h) as [[t|]|e]; try done.
Qed.

Lemma add_rule_unfold id d acc w :
  koji_tag.add_rule id d acc w =
  {| out := match rpc_getTag (i_parent d) (hub w) with
            | Ok (Some t) => Ok (acc ++ [new_rule id (i_parent d) (ti_id t) (i_priority d)])
            | Ok None => Raise (parent_not_found (i_parent d))
            | Raise e => Raise e
            end;
     post := w; calls := [GetTag (i_parent d)] |}.
Proof.
  unfold koji_tag.add_rule. cbv zeta. rewrite bind_unfold.
  unfold session_getTag, rpc_read. simpl.
  by destruct (rpc_getTag (i_parent d) (hub w)) as [[t|]|e].
Qed.

Lemma rules_loop_resolved id inh acc rules w :
  declared_rules (hub w) id inh = Some rules →
  for_each inh acc (koji_tag.add_rule id) w =
  {| out := Ok (acc ++ rules); post := w; calls := parent_lookups inh |}.
Proof.
  revert acc rules. induction inh as [|d inh IH]; intros acc rules.
  - intros [= <-]. simpl. by rewrite app_nil_r.
  - rewrite declared_rules_cons. cbn [for_each]. rewrite bind_unfold, add_rule_unfold.
    destruct (rpc_getTag (i_parent d) (hub w)) as [[t|]|e]; try done.
    destruct (declared_rules (hub w) id inh) as [rules'|]; [|done].
    intros [= <-]. simpl. rewrite (IH _ rules' eq_refl). simpl.
    by rewrite <- app_assoc.
Qed.

Lemma rules_loop_unresolved id pre d rest acc rules w :
  declared_rules (hub w) id pre = Some rules →
  rpc_getTag (i_parent d) (hub w) = Ok None →
  for_each (pre ++ d :: rest) acc (koji_tag.add_rule id) w =
  {| out := Raise (parent_not_found (i_parent d)); post := w;
     calls := parent_lookups (pre ++ [d]) |}.
Proof.
  intros Hpre Hd. rewrite for_each_app, bind_unfold.
  rewrite (rules_loop_resolved _ _ _ _ _ Hpre). simpl.
  rewrite bind_unfold, add_rule_unfold, Hd. simpl.
  unfold parent_lookups. by rewrite map_app.
Qed.

Lemma rules_loop_ok_inv id inh acc rules w :
  out (for_each inh acc (koji_tag.add_rule id) w) = Ok rules →
  ∃ rules', declared_rules (hub w) id inh = Some rules' ∧ rules = acc ++ rules'.
Proof.
  revert acc rules. induction inh as [|d inh IH]; intros acc rules.
  - simpl. intros [= <-]. exists []. by rewrite app_nil_r.
  - cbn [for_each]. rewrite bind_unfold, add_rule_unfold, declared_rules_cons. simpl.
    destruct (rpc_getTag (i_parent d) (hub w)) as [[t|]|e]; try done.
    simpl. intros (rules' & -> & ->)%IH. eexists. split; [done|].
    by rewrite <- app_assoc.
Qed.

Lemma build_rules_resolved id inh rules w :
  declared_rules (hub w) id inh = Some rules →
  koji_tag.build_rules id inh w =
  {| out := Ok rules; post := w; calls := parent_lookups inh |}.
Proof. intros H. unfold koji_tag.build_rules. by rewrite (rules_loop_resolved _ _ _ _ _ H). Qed.

Lemma build_rules_ok_inv id inh rules w :
  out (koji_tag.build_rules id inh w) = Ok rules →
  declared_rules (hub w) id inh = Some rules.
Proof. by intros (rules' & -> & ->)%rules_loop_ok_inv. Qed.

(** The inheritance step when every declared parent exists and the rule
    set can be read. *)
Lemma ensure_inheritance_resolved name cm inh id r w rules cur :
  declared_rules (hub w) id inh = Some rules →
  rpc_getInheritanceData name (hub w) = Ok cur →
  let o := apply_changes cm (inheritance_changes name inh cur rules) r w in
  koji_tag.ensure_inheritance name cm inh id r w =
  {| out := out o; post := post o;
     calls := parent_lookups inh ++ GetInheritanceData name :: calls o |}.
Proof.
  intros Hr Hc o. rewrite ensure_inheritance_plan, bind_unfold.
  rewrite (build_rules_resolved _ _ _ _ Hr). simpl.
  rewrite bind_unfold. unfold session_getInheritanceData, rpc_read. simpl.
  by rewrite Hc.
Qed.

(** The inheritance step at the first declared parent that does not
    exist. *)
Lemma ensure_inheritance_unresolved name cm pre d rest id r w rules :
  declared_rules (hub w) id pre = Some rules →
  rpc_getTag (i_parent d) (hub w) = Ok None →
  koji_tag.ensure_inheritance name cm (pre ++ d :: rest) id r w =
  {| out := Raise (parent_not_found (i_parent d)); post := w;
     calls := parent_lookups (pre ++ [d]) |}.
Proof.
  intros Hpre Hd. unfold koji_tag.ensure_inheritance. rewrite bind_unfold.
  unfold koji_tag.build_rules. by rewrite (rules_loop_unresolved _ _ _ _ _ _ _ Hpre Hd).
Qed.

Lemma ensure_inheritance_ok_inv name cm inh id r w r' :
  out (koji_tag.ensure_inheritance name cm inh id r w) = Ok r' →
  ∃ rules cur,
    declared_rules (hub w) id inh = Some rules ∧
    rpc_getInheritanceData name (hub w) = Ok cur.
Proof.
  rewrite ensure_inheritance_plan.
  intros (rules & Hb & H2 & _)%bind_ok_inv.
  apply bind_ok_inv in H2 as (cur & Hc & _).
  pose proof (quiet_build_rules id inh w) as [Hp _].
  apply build_rules_ok_inv in Hb. rewrite Hp in Hc.
  exists rules, cur. split; [done|].
  unfold session_getInheritanceData, rpc_read in Hc. done.
Qed.
End Inheritance.

(** ** Which calls a computation can issue *)

Section CallsIn.
Context {Hub : Type} `{!Session Hub} {order : Iteration} {keys : KeyOrder}.
Implicit Types w : World Hub.

Lemma calls_in_ret {A} P (a : A) : calls_in P (mret a : M Hub A).
Proof. intros w. constructor. Qed.

Lemma calls_in_raise {A} P e : calls_in P (raise e : M Hub A).
Proof. intros w. constructor. Qed.

Lemma calls_in_read {A} (P : call → Prop) c (f : Hub → result A) :
  P c → calls_in P (rpc_read c f).
Proof. intros Hc w. by repeat constructor. Qed.

Lemma calls_in_write {A} (P : call → Prop) c (f : Hub → result A * Hub) :
  P c → calls_in P (rpc_write c f).
Proof.
  intros Hc w. unfold rpc_write. destruct (f (hub w)). by repeat constructor.
Qed.

Lemma calls_in_bind {A B} P (m : M Hub A) (f : A → M Hub B) :
  calls_in P m → (∀ a, calls_in P (f a)) → calls_in P (m ≫= f).
Proof.
  intros Hm Hf w. rewrite bind_unfold. specialize (Hm w).
  destruct (out (m w)) as [a|e]; simpl; [|done].
  apply Forall_app. split; [done|apply Hf].
Qed.

Lemma calls_in_unless {P} cm (m : M Hub unit) :
  calls_in P m → calls_in P (unless cm m).
Proof. intros Hm. destruct cm; [apply calls_in_ret|done]. Qed.

Lemma calls_in_get_perm_id P name :
  P GetAllPerms → calls_in P (koji_tag.get_perm_id name).
Proof.
  intros HP. unfold koji_tag.get_perm_id.
  apply calls_in_bind; [intros w; constructor|]. intros cache.
  apply calls_in_bind.
  - destruct (decide (cache = ∅)); [|apply calls_in_ret].
    apply calls_in_bind; [by apply calls_in_read|]. intros perms.
    apply calls_in_bind; [intros w; constructor|]. intros; apply calls_in_ret.
  - intros c. destruct name; try apply calls_in_raise.
    destruct (c !! s); [apply calls_in_ret|apply calls_in_raise].
Qed.

Lemma calls_in_ensure_tag_head name cm kwargs :
  calls_in head_call (koji_tag.ensure_tag_head name cm kwargs).
Proof.
  apply calls_in_bind; [by apply calls_in_read|]. intros [t|].
  - apply calls_in_bind; [|intros; apply calls_in_ret].
    destruct (decide _); [apply calls_in_ret|].
    apply calls_in_bind; [|intros; apply calls_in_ret].
    apply calls_in_unless, calls_in_bind; [by apply calls_in_read|].
    intros _. by apply calls_in_write.
  - destruct cm; [apply calls_in_ret|].
    apply calls_in_bind; [by apply calls_in_read|]. intros _.
    apply calls_in_bind.
    + destruct (truthy _); [|apply calls_in_ret].
      apply calls_in_bind; [by apply calls_in_get_perm_id|].
      intros; apply calls_in_ret.
    + intros kw. apply calls_in_bind; [by apply calls_in_write|].
      intros; apply calls_in_ret.
Qed.

(** Lines 194-227 for a tag that exists: the edits are planned from the
    tag's attributes and applied. *)
Lemma ensure_tag_head_present name cm kwargs w taginfo :
  rpc_getTag name (hub w) = Ok (Some taginfo) →
  let o := apply_changes cm (edit_changes name taginfo kwargs) result0 w in
  koji_tag.ensure_tag_head name cm kwargs w =
  {| out := match out o with
            | Ok r => Ok (inr (ti_id taginfo, r))
            | Raise e => Raise e
            end;
     post := post o; calls := GetTag name :: calls o |}.
Proof.
  intros Ht o. unfold koji_tag.ensure_tag_head. rewrite bind_unfold.
  unfold session_getTag, rpc_read at 1 2 3. simpl. rewrite Ht. simpl.
  rewrite bind_unfold. subst o. unfold edit_changes.
  destruct (decide (compute_edits taginfo kwargs = no_edits)); [done|].
  rewrite apply_changes_cons. simpl. rewrite !bind_unfold.
  destruct (out (unless cm _ w)); [|done]. simpl. by rewrite app_nil_r.
Qed.

(** Lines 194-227 in check mode for a tag that does not exist. *)
Lemma ensure_tag_head_would_create name kwargs w :
  rpc_getTag name (hub w) = Ok None →
  koji_tag.ensure_tag_head name true kwargs w =
  {| out := Ok (inl (note (WouldCreateTag name) result0));
     post := w; calls := [GetTag name] |}.
Proof.
  intros Ht. unfold koji_tag.ensure_tag_head. rewrite bind_unfold.
  unfold session_getTag, rpc_read. simpl. by rewrite Ht.
Qed.
Lemma calls_in_mono {A} (P Q : call → Prop) (m : M Hub A) :
  (∀ c, P c → Q c) → calls_in P m → calls_in Q m.
Proof. intros HPQ Hm w. eapply Forall_impl; [apply Hm|done]. Qed.

Lemma calls_in_ext {A} P (m m' : M Hub A) :
  (∀ w, m w = m' w) → calls_in P m' → calls_in P m.
Proof. intros E Hm w. rewrite E. apply Hm. Qed.

Lemma calls_in_for_each {A R} P (l : list A) (r : R) (body : A → R → M Hub R) :
  (∀ a r, a ∈ l → calls_in P (body a r)) → calls_in P (for_each l r body).
Proof.
  revert r. induction l as [|a l IH]; intros r Hb; simpl.
  - apply calls_in_ret.
  - apply calls_in_bind; [apply Hb; left|].
    intros r'. apply IH. intros a' r'' Ha'. apply Hb. by right.
Qed.

Lemma calls_in_perform (P : call → Prop) ch :
  P EnsureLoggedIn → P (ch_call ch) → calls_in P (perform ch).
Proof.
  intros Hl Hc. unfold perform. destruct (ch_login ch).
  - apply calls_in_bind; [by apply calls_in_read|]. intros _.
    by apply calls_in_write.
  - by apply calls_in_write.
Qed.

Lemma calls_in_apply_changes (P : call → Prop) cm chs r :
  P EnsureLoggedIn → Forall (λ ch, P (ch_call ch)) chs →
  calls_in P (apply_changes cm chs r).
Proof.
  intros Hl Hchs. apply calls_in_for_each. intros ch r' Hch.
  apply calls_in_bind; [|intros; apply calls_in_ret].
  apply calls_in_unless, calls_in_perform; [done|].
  rewrite Forall_forall in Hchs. by apply Hchs.
Qed.

Lemma calls_in_build_rules (P : call → Prop) id inh :
  (∀ n, P (GetTag n)) → calls_in P (koji_tag.build_rules id inh).
Proof.
  intros HP. apply calls_in_for_each. intros d rules _.
  apply calls_in_bind; [by apply calls_in_read|].
  intros [t|]; [apply calls_in_ret|apply calls_in_raise].
Qed.

Lemma calls_in_ensure_inheritance (P : call → Prop) name cm inh id r :
  (∀ n, P (GetTag n)) → P (GetInheritanceData name) → P EnsureLoggedIn →
  (∀ rules, P (SetInheritanceData name rules true)) →
  calls_in P (koji_tag.ensure_inheritance name cm inh id r).
Proof.
  intros H1 H2 H3 H4.
  eapply calls_in_ext; [intros w; apply ensure_inheritance_plan|].
  apply calls_in_bind; [by apply calls_in_build_rules|]. intros rules.
  apply calls_in_bind; [by apply calls_in_read|]. intros cur.
  apply calls_in_apply_changes; [done|]. unfold inheritance_changes.
  destruct (decide _); repeat constructor. apply H4.
Qed.

End CallsIn.

Lemma no_writes_among_reads (l : list call) :
  Forall (λ c, mutating c = false) l →
  filter (λ c, mutating c = true) l = [].
Proof.
  induction 1 as [|c l Hc _ IH]; [done|].
  rewrite filter_cons_False; [done|]. by rewrite Hc.
Qed.

Lemma no_writes_among_lookups inh :
  filter (λ c, mutating c = true) (parent_lookups inh) = [].
Proof.
  apply no_writes_among_reads, Forall_forall.
  by intros c (d & -> & _)%list_elem_of_fmap.
Qed.

(** ** Claims about inheritance *)

Section InheritanceClaims.
Context {Hub : Type} `{!Session Hub} {order : Iteration} {keys : KeyOrder}.
Implicit Types w : World Hub.

(** C2.  When every declared parent exists, the inheritance step compares
    the list of rules it built with the list [getInheritanceData]
    returned by one equality of lists.  When they are equal the step
    changes nothing and writes nothing.  When they differ (in a field, in
    length or in order) the step reports a change, and outside check mode
    (once logged in) its only mutating call is one [setInheritanceData]
    carrying the whole list of rules with [clear=True].  No mutating call
    of the step is anything but a [setInheritanceData] on the tag with
    [clear=True]. *)
Theorem inheritance_compared_and_replaced_whole
    name cm inh id r w rules cur :
  declared_rules (hub w) id inh = Some rules →
  rpc_getInheritanceData name (hub w) = Ok cur →
  let o := koji_tag.ensure_inheritance name cm inh id r w in
  Forall (λ c, mutating c = true →
               ∃ rules', c = SetInheritanceData name rules' true) (calls o) ∧
  (cur = rules → out o = Ok r ∧ writes o = []) ∧
  (cur ≠ rules →
     (∀ r', out o = Ok r' → r' = note (InheritanceIs inh) r) ∧
     (cm = true → out o = Ok (note (InheritanceIs inh) r)) ∧
     writes o =
       if cm then []
       else match rpc_ensure_logged_in (hub w) with
            | Ok _ => [SetInheritanceData name rules true]
            | Raise _ => []
            end).
Proof.
  intros Hr Hc o. subst o. split.
  { apply calls_in_ensure_inheritance; try done. intros rules' _. by eexists. }
  rewrite (ensure_inheritance_resolved _ _ _ _ _ _ _ _ Hr Hc).
  assert (Hreads : filter (λ c, mutating c = true)
            (parent_lookups inh ++ [GetInheritanceData name]) = []).
  { by rewrite filter_app, no_writes_among_lookups. }
  unfold writes, inheritance_changes. simpl.
  rewrite (cons_middle (GetInheritanceData name)), app_assoc, filter_app, Hreads.
  split.
  - intros ->. by rewrite decide_True.
  - intros Hne. rewrite decide_False by done. split; [|split].
    + intros r' Hr'. by apply apply_changes_out in Hr'.
    + intros ->. by rewrite apply_changes_check.
    + destruct cm; [by rewrite apply_changes_check|].
      rewrite apply_changes_cons, bind_unfold. unfold unless.
      rewrite perform_unfold. simpl.
      destruct (rpc_ensure_logged_in (hub w)); [|done]. simpl.
      by destruct (rpc_setInheritanceData name rules true (hub w)).1.
Qed.
End InheritanceClaims.

Section UnresolvedParent.
Context {Hub : Type} `{!Session Hub} {order : Iteration} {keys : KeyOrder}.
Implicit Types w : World Hub.

(** C4 (amended).  Take a run of [ensure_tag] whose first step (the tag
    and its attributes, lines 194-227) hands over to the inheritance
    step, and a declared parent that does not exist while the parents
    declared before it do.  The run raises the parent-not-found
    [ValueError]; after the first step it only looks parents up, so it
    issues no [setInheritanceData]; and the state it leaves is the state
    the first step left: when that step edited the attributes of an
    existing tag, the remote state is the one [editTag2] produced. *)
Theorem unresolved_parent_fails_before_inheritance_write
    name cm pre d rest repos packages kwargs w id r rules :
  let h := koji_tag.ensure_tag_head name cm kwargs w in
  out h = Ok (inr (id, r)) →
  declared_rules (hub (post h)) id pre = Some rules →
  rpc_getTag (i_parent d) (hub (post h)) = Ok None →
  let o := koji_tag.ensure_tag name cm (pre ++ d :: rest) repos packages
             kwargs w in
  out o = Raise (parent_not_found (i_parent d)) ∧
  post o = post h ∧
  calls o = calls h ++ parent_lookups (pre ++ [d]) ∧
  writes o = writes h ∧
  (∀ n rs cl, SetInheritanceData n rs cl ∉ calls o) ∧
  (∀ taginfo,
     rpc_getTag name (hub w) = Ok (Some taginfo) →
     compute_edits taginfo kwargs ≠ no_edits →
     cm = false →
     writes o = [EditTag2 name (compute_edits taginfo kwargs)] ∧
     hub (post o) =
       (rpc_editTag2 name (compute_edits taginfo kwargs) (hub w)).2).
Proof.
  intros h Hh Hpre Hd o.
  assert (Ho : o = {| out := Raise (parent_not_found (i_parent d));
                      post := post h;
                      calls := calls h ++ parent_lookups (pre ++ [d]) |}).
  { subst o. unfold koji_tag.ensure_tag. rewrite bind_unfold. fold h.
    rewrite Hh. simpl. unfold koji_tag.ensure_tag_tail. rewrite bind_unfold.
    by rewrite (ensure_inheritance_unresolved _ _ _ _ _ _ _ _ _ Hpre Hd). }
  assert (Hw : writes o = writes h).
  { rewrite Ho. unfold writes. simpl.
    by rewrite filter_app, no_writes_among_lookups, app_nil_r. }
  assert (Hhead : Forall head_call (calls h))
    by apply calls_in_ensure_tag_head.
  split; [by rewrite Ho|]. split; [by rewrite Ho|].
  split; [by rewrite Ho|]. split; [done|]. split.
  - intros n rs cl. rewrite Ho. simpl. rewrite elem_of_app. intros [Hin|Hin].
    + rewrite Forall_forall in Hhead. by apply Hhead in Hin.
    + unfold parent_lookups in Hin.
      by apply list_elem_of_fmap in Hin as (? & ? & _).
  - intros taginfo Ht Hne ->. rewrite Hw, Ho. simpl. clear Ho Hw Hhead o.
    subst h. rewrite (ensure_tag_head_present _ _ _ _ _ Ht) in *.
    unfold writes. simpl in *. unfold edit_changes in *.
    rewrite decide_False in * by done.
    destruct (out (apply_changes false _ result0 w)) as [r'|] eqn:Hok; [|done].
    apply apply_changes_ok in Hok as (-> & -> & _). done.
Qed.
End UnresolvedParent.

(** An instance of C4: [child] exists unlocked, the run locks it and declares
    the parent [nope], which does not exist.  The run fails, and [child]
    stays locked. *)
Lemma unresolved_parent_fails_before_inheritance_write_witness :
  out (koji_tag.ensure_tag "child" false
         [ {| i_parent := "nope"; i_priority := 0 |} ] None []
         examples.locked_kwargs (model.world examples.hub1))
  = Raise (ValueError "parent tag 'nope' not found") ∧
  ti_locked <$>
    model.tags (hub (post (koji_tag.ensure_tag "child" false
         [ {| i_parent := "nope"; i_priority := 0 |} ] None []
         examples.locked_kwargs (model.world examples.hub1)))) !! "child"
  = Some true.
Proof.
  pose proof (unresolved_parent_fails_before_inheritance_write
    "child" false [] {| i_parent := "nope"; i_priority := 0 |} [] None []
    examples.locked_kwargs (model.world examples.hub1) 2
    (note (EditsLine (compute_edits (examples.taginfo0 2) examples.locked_kwargs)) result0)
    [] eq_refl eq_refl eq_refl) as (Hout & Hpost & _).
  split; [exact Hout|].
  simpl app in Hpost. rewrite Hpost. vm_compute. reflexivity.
Defined.

(** C4, counterexample.  A check-mode run for a tag that does not exist
    returns 'would create tag' although the declared parent does not
    exist: it does not fail. *)
Lemma unresolved_parent_unnoticed_by_check_of_new_tag :
  rpc_getTag "missing" model.empty_hub = Ok None ∧
  out (koji_tag.ensure_tag "t" true
         [ {| i_parent := "missing"; i_priority := 0 |} ] None []
         examples.kwargs0 (model.world model.empty_hub))
  = Ok {| changed := true; stdout_lines := [WouldCreateTag "t"] |}.
Proof. split; reflexivity. Qed.

(** An instance of C2: [child] inherits from [base] with priority 5 and
    priority 0 is declared, so one field of one rule differs; the run
    replaces the whole rule set. *)
Lemma inheritance_compared_and_replaced_whole_witness :
  declared_rules examples.hub1 2 [ {| i_parent := "base"; i_priority := 0 |} ]
  = Some [new_rule 2 "base" 1 0] ∧
  rpc_getInheritanceData "child" examples.hub1 = Ok [new_rule 2 "base" 1 5] ∧
  writes (koji_tag.ensure_inheritance "child" false
            [ {| i_parent := "base"; i_priority := 0 |} ] 2 result0
            (model.world examples.hub1))
  = [SetInheritanceData "child" [new_rule 2 "base" 1 0] true].
Proof.
  split; [reflexivity|]. split; [reflexivity|].
  refine (proj2 (proj2 (proj2 (proj2 (inheritance_compared_and_replaced_whole
    "child" false [ {| i_parent := "base"; i_priority := 0 |} ] 2 result0
    (model.world examples.hub1) [new_rule 2 "base" 1 0]
    [new_rule 2 "base" 1 5] eq_refl eq_refl)) _))).
  discriminate.
Defined.

Example inheritance_order_matters :
  [new_rule 3 "a" 1 0; new_rule 3 "b" 2 1] ≠
  [new_rule 3 "b" 2 1; new_rule 3 "a" 1 0].
Proof. discriminate. Qed.

Example inheritance_count_matters :
  [new_rule 3 "a" 1 0; new_rule 3 "a" 1 0] ≠ [new_rule 3 "a" 1 0].
Proof. discriminate. Qed.

(** ** The calls of each step *)

Section StepCalls.
Context {Hub : Type} `{!Session Hub} {order : Iteration} {keys : KeyOrder}.
Implicit Types w : World Hub.

Lemma repo_changes_calls tag cur repos :
  Forall (λ ch, ch_login ch = true ∧ mutating (ch_call ch) = true ∧
                repo_call (ch_call ch) = true)
         (repo_changes tag cur repos).
Proof.
  unfold repo_changes. apply Forall_app. split.
  - apply Forall_forall. intros ch (d & _ & Hd)%list_elem_of_omap.
    unfold repo_change in Hd. destruct (index_repos cur !! d_repo d).
    + destruct (decide _); [done|]. by injection Hd as <-.
    + by injection Hd as <-.
  - apply Forall_forall. by intros ch (n & -> & _)%list_elem_of_fmap.
Qed.

Lemma pkg_changes_calls name cur packages :
  Forall (λ ch, ch_login ch = false ∧ mutating (ch_call ch) = true ∧
                package_call (ch_call ch) = true)
         (pkg_changes name cur packages).
Proof.
  unfold pkg_changes. apply Forall_app. split.
  - apply Forall_forall. intros ch ([o p] & _ & Hd)%list_elem_of_omap.
    unfold pkg_change in Hd. destruct (decide _).
    + destruct (decide _); [done|]. by injection Hd as <-.
    + by injection Hd as <-.
  - destruct (owner_after packages None); [|done].
    apply Forall_forall. by intros ch (n & -> & _)%list_elem_of_fmap.
Qed.

Lemma calls_in_ensure_external_repos (P : call → Prop) tag cm repos :
  P EnsureLoggedIn → (∀ c, repo_call c = true → P c) →
  calls_in P (koji_tag.ensure_external_repos tag cm repos).
Proof.
  intros H1 H2.
  eapply calls_in_ext; [intros w; apply ensure_external_repos_plan|].
  apply calls_in_bind; [by apply calls_in_read, H2|]. intros cur.
  apply calls_in_apply_changes; [done|].
  eapply Forall_impl; [apply repo_changes_calls|]. intros ch (_ & _ & ?). by apply H2.
Qed.

Lemma calls_in_ensure_packages (P : call → Prop) name cm packages id r :
  P EnsureLoggedIn → (∀ c, package_call c = true → P c) →
  calls_in P (koji_tag.ensure_packages name cm packages id r).
Proof.
  intros H1 H2.
  destruct (decide (packages = [])) as [->|Hne]; [apply calls_in_ret|].
  eapply calls_in_ext; [intros w; by apply ensure_packages_plan|].
  apply calls_in_bind; [by apply calls_in_read|]. intros _.
  apply calls_in_bind; [by apply calls_in_read, H2|]. intros cur.
  apply calls_in_apply_changes; [done|].
  eapply Forall_impl; [apply pkg_changes_calls|]. intros ch (_ & _ & ?). by apply H2.
Qed.

(** With [external_repos] unset, no call of the run is about external
    repos. *)
Lemma unset_repos_untouched name cm inh packages kwargs :
  calls_in (λ c, repo_call c = false)
    (koji_tag.ensure_tag name cm inh None packages kwargs).
Proof.
  apply calls_in_bind.
  { eapply calls_in_mono; [|apply calls_in_ensure_tag_head]. by intros []. }
  intros [r|[id r]]; [apply calls_in_ret|].
  apply calls_in_bind; [by apply calls_in_ensure_inheritance|]. intros r1.
  apply calls_in_bind; [apply calls_in_ret|]. intros r2.
  apply calls_in_ensure_packages; [done|]. by intros [].
Qed.

(** With an empty [packages], no call of the run is about packages. *)
Lemma empty_packages_untouched name cm inh repos kwargs :
  calls_in (λ c, package_call c = false)
    (koji_tag.ensure_tag name cm inh repos [] kwargs).
Proof.
  apply calls_in_bind.
  { eapply calls_in_mono; [|apply calls_in_ensure_tag_head]. by intros []. }
  intros [r|[id r]]; [apply calls_in_ret|].
  apply calls_in_bind; [by apply calls_in_ensure_inheritance|]. intros r1.
  apply calls_in_bind; [|intros; apply calls_in_ret].
  destruct repos as [repos|]; [|apply calls_in_ret].
  apply calls_in_bind; [|intros; apply calls_in_ret].
  apply calls_in_ensure_external_repos; [done|]. by intros [].
Qed.

(** The mutating calls of a plan that ran to its end. *)
Lemma writes_of_changes chs :
  Forall (λ ch, mutating (ch_call ch) = true) chs →
  filter (λ c, mutating c = true) (flat_map change_calls chs) = map ch_call chs.
Proof.
  induction 1 as [|ch chs Hch _ IH]; [done|].
  simpl. rewrite filter_app, IH. unfold change_calls.
  destruct (ch_login ch).
  - rewrite filter_cons_False by done. by rewrite filter_cons_True.
  - by rewrite filter_cons_True.
Qed.

(** The external-repo step, once the bindings are read. *)
Lemma ensure_external_repos_read tag cm repos w cur :
  rpc_getTagExternalRepos tag (hub w) = Ok cur →
  let o := apply_changes cm (repo_changes tag cur repos) result0 w in
  koji_tag.ensure_external_repos tag cm repos w =
  {| out := out o; post := post o; calls := GetTagExternalRepos tag :: calls o |}.
Proof.
  intros Hc o. rewrite ensure_external_repos_plan, bind_unfold.
  unfold session_getTagExternalRepos, rpc_read. simpl. by rewrite Hc.
Qed.

Lemma ensure_external_repos_ok_inv tag cm repos w r :
  out (koji_tag.ensure_external_repos tag cm repos w) = Ok r →
  ∃ cur, rpc_getTagExternalRepos tag (hub w) = Ok cur.
Proof.
  rewrite ensure_external_repos_plan. intros (cur & Hc & _)%bind_ok_inv.
  by exists cur.
Qed.

(** The package step, once logged in and the package list read. *)
Lemma ensure_packages_read name cm packages id r w cur :
  packages ≠ [] →
  rpc_ensure_logged_in (hub w) = Ok tt →
  rpc_listPackages id (hub w) = Ok cur →
  let o := apply_changes cm (pkg_changes name cur packages) r w in
  koji_tag.ensure_packages name cm packages id r w =
  {| out := out o; post := post o;
     calls := EnsureLoggedIn :: ListPackages id :: calls o |}.
Proof.
  intros Hne Hl Hc o. rewrite ensure_packages_plan, bind_unfold by done.
  unfold common_koji_ensure_logged_in, rpc_read at 1 2 3. simpl. rewrite Hl.
  simpl. rewrite bind_unfold. unfold session_listPackages, rpc_read. simpl.
  by rewrite Hc.
Qed.

Lemma ensure_packages_ok_inv name cm packages id r w r' :
  packages ≠ [] →
  out (koji_tag.ensure_packages name cm packages id r w) = Ok r' →
  rpc_ensure_logged_in (hub w) = Ok tt ∧
  ∃ cur, rpc_listPackages id (hub w) = Ok cur.
Proof.
  intros Hne. rewrite ensure_packages_plan by done.
  intros ([] & Hl & H2 & _)%bind_ok_inv.
  apply bind_ok_inv in H2 as (cur & Hc & _). split; [done|]. by exists cur.
Qed.
End StepCalls.

(** ** Claims about external repos *)

Lemma filter_none {A} (P : A → Prop) `{!∀ x, Decision (P x)} (l : list A) :
  Forall (λ x, ¬ P x) l → filter P l = [].
Proof.
  induction 1 as [|x l Hx _ IH]; [done|]. by rewrite filter_cons_False.
Qed.

Section ExternalRepos.
Context {Hub : Type} `{!Session Hub} {order : Iteration} {keys : KeyOrder}.
Implicit Types w : World Hub.

(** The mutating calls of a run of the external-repo step that returned:
    the calls of its plan. *)
Lemma ensure_external_repos_writes tag repos w cur res :
  rpc_getTagExternalRepos tag (hub w) = Ok cur →
  out (koji_tag.ensure_external_repos tag false repos w) = Ok res →
  writes (koji_tag.ensure_external_repos tag false repos w) =
  map ch_call (repo_changes tag cur repos).
Proof.
  intros Hc. rewrite (ensure_external_repos_read _ _ _ _ _ Hc). simpl.
  intros (Hcalls & _)%apply_changes_ok. unfold writes. simpl.
  rewrite filter_cons_False by done. rewrite Hcalls.
  apply writes_of_changes. eapply Forall_impl; [apply repo_changes_calls|].
  by intros ch (_ & ? & _).
Qed.

Lemma declared_repo_calls tag current repos r b :
  current !! r = Some b →
  filter (λ c, about_repo r c = true)
         (map ch_call (omap (repo_change tag current) repos)) =
  map (λ d, EditTagExternalRepo tag r (d_priority d))
      (filter (λ d, d_priority d ≠ x_priority b ∧ d_repo d = r) repos).
Proof.
  intros Hb. induction repos as [|d repos IH]; [done|].
  cbn [omap list_omap]. unfold repo_change at 1.
  destruct (decide (d_repo d = r)) as [Hd|Hd].
  - rewrite Hd, Hb. destruct (decide (d_priority d = x_priority b)) as [Hp|Hp].
    + rewrite filter_cons_False by tauto. apply IH.
    + rewrite filter_cons_True by done. cbn [map ch_call fmap list_fmap].
      rewrite filter_cons_True by (simpl; by rewrite bool_decide_true).
      f_equal. apply IH.
  - rewrite filter_cons_False by tauto.
    destruct (current !! d_repo d) as [b'|].
    + destruct (decide _); [apply IH|].
      cbn [map ch_call fmap list_fmap].
      rewrite filter_cons_False; [apply IH|].
      simpl. by rewrite bool_decide_false.
    + cbn [map ch_call fmap list_fmap].
      rewrite filter_cons_False; [apply IH|].
      simpl. by rewrite bool_decide_false.
Qed.

Lemma removed_repo_calls tag current repos r :
  r ∈ map d_repo repos →
  filter (λ c, about_repo r c = true)
         (map ch_call (map (repo_removal tag)
                           (set_order RepoLoop (repos_to_remove current repos)))) = [].
Proof.
  intros Hr. apply filter_none, Forall_forall.
  intros c (ch & -> & (n & -> & Hn)%list_elem_of_fmap)%list_elem_of_fmap.
  simpl. rewrite bool_decide_false; [done|]. intros ->.
  apply elem_of_set_order in Hn. unfold repos_to_remove in Hn.
  apply elem_of_difference in Hn as [_ Hn]. apply Hn.
  by apply elem_of_list_to_set.
Qed.

(** The dictionary [current] of the external-repo step, in terms of
    the reply of [getTagExternalRepos]: a name maps to the last binding
    of that name. *)
Lemma index_repos_snoc cur b :
  index_repos (cur ++ [b]) = <[x_external_repo_name b := b]> (index_repos cur).
Proof. unfold index_repos. by rewrite foldl_app. Qed.

Lemma index_repos_last cur r :
  index_repos cur !! r =
  last (filter (λ b, x_external_repo_name b = r) cur).
Proof.
  induction cur as [|b cur IH] using rev_ind; [done|].
  rewrite index_repos_snoc, filter_app.
  destruct (decide (x_external_repo_name b = r)) as [Heq|Hne].
  - rewrite filter_cons_True by done. rewrite filter_nil, last_snoc.
    by rewrite <- Heq, lookup_insert_eq.
  - rewrite filter_cons_False by done. rewrite filter_nil, app_nil_r.
    by rewrite lookup_insert_ne.
Qed.

Lemma dom_index_repos cur :
  dom (index_repos cur) = list_to_set (map x_external_repo_name cur).
Proof.
  induction cur as [|b cur IH] using rev_ind; [apply dom_empty_L|].
  rewrite index_repos_snoc, dom_insert_L, IH, map_app, list_to_set_app_L.
  cbn. by rewrite (right_id_L ∅ (∪)), (comm_L (∪)).
Qed.

(** C5 (amended).  (i) With [external_repos] unset, no call of
    [ensure_tag] is about external repos, so the bindings stay as they
    are.  For a run of the external-repo step outside check mode that
    read the bindings and returned: (ii) with an empty declared list,
    its mutating calls are one [removeExternalRepoFromTag] for every
    repo of the reply, each once, and nothing else; (iii) for a declared
    binding whose repo is bound remotely with another priority, the run
    issues the [editTagExternalRepo] of that binding, never an
    [addExternalRepoToTag] nor a [removeExternalRepoFromTag] for that
    repo; the mutating calls about the repo are one edit per
    declaration of it whose priority is not the bound one, in declared
    order, so that, when the repo is declared once, that edit is the
    only one.  The bound priority is that of the last binding of the
    repo in the reply. *)
Theorem external_repos_synchronized
    name cm inh packages kwargs tag repos w cur res :
  Forall (λ c, repo_call c = false)
    (calls (koji_tag.ensure_tag name cm inh None packages kwargs w)) ∧
  (rpc_getTagExternalRepos tag (hub w) = Ok cur →
   out (koji_tag.ensure_external_repos tag false repos w) = Ok res →
   let ws := writes (koji_tag.ensure_external_repos tag false repos w) in
   (repos = [] →
      NoDup ws ∧
      ∀ c, c ∈ ws ↔
           ∃ b, b ∈ cur ∧
                c = RemoveExternalRepoFromTag tag (x_external_repo_name b)) ∧
   (∀ d b,
      d ∈ repos →
      last (filter (λ b', x_external_repo_name b' = d_repo d) cur) = Some b →
      d_priority d ≠ x_priority b →
      EditTagExternalRepo tag (d_repo d) (d_priority d) ∈ ws ∧
      (∀ p, AddExternalRepoToTag tag (d_repo d) p ∉ ws) ∧
      (RemoveExternalRepoFromTag tag (d_repo d) ∉ ws) ∧
      filter (λ c, about_repo (d_repo d) c = true) ws =
        map (λ d', EditTagExternalRepo tag (d_repo d) (d_priority d'))
            (filter (λ d', d_priority d' ≠ x_priority b ∧
                           d_repo d' = d_repo d) repos) ∧
      (filter (λ d', d_repo d' = d_repo d) repos = [d] →
       filter (λ c, about_repo (d_repo d) c = true) ws =
       [EditTagExternalRepo tag (d_repo d) (d_priority d)]))).
Proof.
  split; [apply unset_repos_untouched|].
  intros Hc Hok ws. subst ws.
  rewrite (ensure_external_repos_writes _ _ _ _ _ Hc Hok).
  split.
  - intros ->. unfold repo_changes, repos_to_remove. simpl.
    rewrite difference_empty_L, <- list_fmap_compose. split.
    + apply NoDup_fmap_2; [|apply NoDup_set_order]. by intros x y [= ->].
    + intros c. rewrite list_elem_of_fmap. split.
      * intros (r & -> & Hr). apply elem_of_set_order in Hr.
        rewrite dom_index_repos, elem_of_list_to_set in Hr.
        apply list_elem_of_fmap in Hr as (b & -> & Hb). by exists b.
      * intros (b & Hb & ->). exists (x_external_repo_name b).
        split; [done|]. apply elem_of_set_order.
        rewrite dom_index_repos, elem_of_list_to_set.
        apply list_elem_of_fmap. by exists b.
  - intros d b Hd Hb Hp. rewrite <- index_repos_last in Hb.
    assert (Hr : d_repo d ∈ map d_repo repos) by by apply list_elem_of_fmap_2.
    assert (Habout :
      filter (λ c, about_repo (d_repo d) c = true)
             (map ch_call (repo_changes tag cur repos)) =
      map (λ d', EditTagExternalRepo tag (d_repo d) (d_priority d'))
          (filter (λ d', d_priority d' ≠ x_priority b ∧ d_repo d' = d_repo d)
                  repos)).
    { unfold repo_changes. rewrite map_app, filter_app.
      rewrite (declared_repo_calls _ _ _ _ _ Hb).
      by rewrite removed_repo_calls, app_nil_r. }
    assert (Hin : ∀ c, about_repo (d_repo d) c = true →
              c ∈ map ch_call (repo_changes tag cur repos) →
              ∃ p, c = EditTagExternalRepo tag (d_repo d) p).
    { intros c Hc1 Hc2.
      assert (Hc3 : c ∈ filter (λ c, about_repo (d_repo d) c = true)
                (map ch_call (repo_changes tag cur repos)))
        by by apply list_elem_of_filter.
      rewrite Habout in Hc3.
      apply list_elem_of_fmap in Hc3 as (d' & -> & _). by eexists. }
    split; [|split; [|split; [|split]]].
    + assert (Hx : EditTagExternalRepo tag (d_repo d) (d_priority d) ∈
                filter (λ c, about_repo (d_repo d) c = true)
                       (map ch_call (repo_changes tag cur repos))).
      { rewrite Habout. apply list_elem_of_fmap. exists d. split; [done|].
        by apply list_elem_of_filter. }
      by apply list_elem_of_filter in Hx as [_ ?].
    + intros p Hadd. apply Hin in Hadd as [? [=]].
      simpl. by rewrite bool_decide_true.
    + intros Hrm. apply Hin in Hrm as [? [=]].
      simpl. by rewrite bool_decide_true.
    + exact Habout.
    + intros Honce. rewrite Habout.
      rewrite <- (list_filter_filter (λ d', d_priority d' ≠ x_priority b)
                   (λ d', d_repo d' = d_repo d)), Honce.
      by rewrite filter_cons_True.
Qed.
End ExternalRepos.

(** An instance of C5: [child] binds the repo [a] with priority 1.
    Declaring no repo removes it; declaring [a] with priority 5 edits
    it. *)
Lemma external_repos_synchronized_witness :
  RemoveExternalRepoFromTag "child" "a" ∈
    writes (koji_tag.ensure_external_repos "child" false []
              (model.world examples.hub1)) ∧
  filter (λ c, about_repo "a" c = true)
    (writes (koji_tag.ensure_external_repos "child" false
               [ {| d_repo := "a"; d_priority := 5 |} ]
               (model.world examples.hub1)))
  = [EditTagExternalRepo "child" "a" 5].
Proof.
  split.
  - refine (proj2 (proj2 (proj1 (proj2 (external_repos_synchronized
      "child" false [] [] examples.kwargs0 "child" []
      (model.world examples.hub1)
      [ {| x_external_repo_name := "a"; x_priority := 1 |} ]
      (note (RemovedRepo "a" "child") result0))
      eq_refl eq_refl) eq_refl) _) _).
    exists {| x_external_repo_name := "a"; x_priority := 1 |}.
    split; [by left|reflexivity].
  - refine (proj2 (proj2 (proj2 (proj2 (proj2 (proj2
      (external_repos_synchronized
      "child" false [] [] examples.kwargs0 "child"
      [ {| d_repo := "a"; d_priority := 5 |} ]
      (model.world examples.hub1)
      [ {| x_external_repo_name := "a"; x_priority := 1 |} ]
      (note (SetRepoPriority "a" 5) result0))
      eq_refl eq_refl)
      {| d_repo := "a"; d_priority := 5 |}
      {| x_external_repo_name := "a"; x_priority := 1 |}
      _ eq_refl _)))) eq_refl).
    + by left.
    + discriminate.
Defined.

(** C5 as stated does not hold: a repo declared twice with priorities
    other than the bound one is edited twice.  [child] binds [a] with
    priority 1; declaring it with 5 and with 7 sends two edits. *)
Lemma repo_declared_twice_edited_twice :
  writes (koji_tag.ensure_external_repos "child" false
            [ {| d_repo := "a"; d_priority := 5 |};
              {| d_repo := "a"; d_priority := 7 |} ]
            (model.world examples.hub1))
  = [EditTagExternalRepo "child" "a" 5; EditTagExternalRepo "child" "a" 7].
Proof. reflexivity. Qed.

(** ** Claims about packages *)

Lemma owned_index_snoc cur pkg :
  owned_index (cur ++ [pkg]) =
  (<[p_owner_name pkg :=
       {[p_package_name pkg]} ∪
       default ∅ ((owned_index cur).1 !! p_owner_name pkg)]>
     (owned_index cur).1,
   Some (p_owner_name pkg)).
Proof.
  unfold owned_index. rewrite foldl_app. simpl.
  by destruct (foldl _ _ cur).
Qed.

Lemma owned_index_spec cur owner package :
  package ∈ default ∅ ((owned_index cur).1 !! owner) ↔
  {| p_package_name := package; p_owner_name := owner |} ∈ cur.
Proof.
  induction cur as [|pkg cur IH] using rev_ind.
  - simpl. rewrite lookup_empty. simpl. split; [set_solver|by intros ?%elem_of_nil].
  - rewrite owned_index_snoc. cbn [fst]. rewrite elem_of_app, list_elem_of_singleton.
    destruct (decide (p_owner_name pkg = owner)) as [<- | Hne].
    + rewrite lookup_insert_eq. simpl. rewrite elem_of_union, elem_of_singleton, IH.
      destruct pkg as [n o]. simpl. split.
      * intros [-> | ?]; [by right|by left].
      * intros [?|[= ->]]; [by right|by left].
    + rewrite lookup_insert_ne by done. rewrite IH. split; [by left|].
      intros [? | <-]; [done|]. by destruct Hne.
Qed.

Lemma owned_pairs_names packages :
  map snd (owned_pairs packages) = concat (map snd packages).
Proof.
  induction packages as [|[o owned] packages IH]; [done|].
  cbn [owned_pairs flat_map map concat]. rewrite map_app. f_equal; [|apply IH].
  rewrite map_map. simpl. apply map_id.
Qed.

Section Packages.
Context {Hub : Type} `{!Session Hub} {order : Iteration} {keys : KeyOrder}.
Implicit Types w : World Hub.

Lemma ensure_packages_writes name packages id r w cur res :
  packages ≠ [] →
  rpc_listPackages id (hub w) = Ok cur →
  out (koji_tag.ensure_packages name false packages id r w) = Ok res →
  writes (koji_tag.ensure_packages name false packages id r w) =
  map ch_call (pkg_changes name cur packages).
Proof.
  intros Hne Hc Hok.
  destruct (ensure_packages_ok_inv _ _ _ _ _ _ _ Hne Hok) as [Hl _].
  rewrite (ensure_packages_read _ _ _ _ _ _ _ Hne Hl Hc) in *. simpl in *.
  apply apply_changes_ok in Hok as (Hcalls & _). unfold writes. simpl.
  rewrite !filter_cons_False by done. rewrite Hcalls.
  apply writes_of_changes. eapply Forall_impl; [apply pkg_changes_calls|].
  by intros ch (_ & ? & _).
Qed.

Lemma declared_pkg_calls name cn co pairs p :
  p ∈ cn →
  filter (λ c, about_package p c = true)
         (map ch_call (omap (pkg_change name cn co) pairs)) =
  map (λ pr, PackageListSetOwner name p pr.1)
      (filter (λ pr, (p ∉ default ∅ (co !! pr.1)) ∧ pr.2 = p) pairs).
Proof.
  intros Hp. induction pairs as [|[o q] pairs IH]; [done|].
  cbn [omap list_omap]. unfold pkg_change at 1.
  destruct (decide (q = p)) as [-> | Hq].
  - rewrite decide_True by done.
    destruct (decide (p ∈ default ∅ (co !! o))) as [Hin|Hin].
    + rewrite filter_cons_False by (simpl; tauto). apply IH.
    + rewrite filter_cons_True by done. cbn [map ch_call fmap list_fmap].
      rewrite filter_cons_True by (simpl; by rewrite bool_decide_true).
      simpl. f_equal. apply IH.
  - rewrite filter_cons_False by (simpl; tauto).
    destruct (decide (q ∈ cn)).
    + destruct (decide _); [apply IH|].
      cbn [map ch_call fmap list_fmap].
      rewrite filter_cons_False; [apply IH|].
      simpl. by rewrite bool_decide_false.
    + cbn [map ch_call fmap list_fmap].
      rewrite filter_cons_False; [apply IH|].
      simpl. by rewrite bool_decide_false.
Qed.

Lemma removed_pkg_calls name cur packages owner p :
  p ∈ concat (map snd packages) →
  filter (λ c, about_package p c = true)
         (map ch_call (map (pkg_removal name owner)
                           (set_order PackageLoop (delete_names cur packages)))) = [].
Proof.
  intros Hp. apply filter_none, Forall_forall.
  intros c (ch & -> & (n & -> & Hn)%list_elem_of_fmap)%list_elem_of_fmap.
  simpl. rewrite bool_decide_false; [done|]. intros ->.
  apply elem_of_set_order in Hn. unfold delete_names in Hn.
  apply elem_of_difference in Hn as [_ Hn]. apply Hn.
  by apply elem_of_list_to_set.
Qed.

(** C6 (amended).  (a) With an empty [packages] the package step
    returns at once (no [listPackages], no write), and no call of
    [ensure_tag] is about packages.  (b) For a run of the package step
    outside check mode that returned: when a declared (owner, package)
    names a package that is in the tag's list but not under that owner,
    the run issues the [packageListSetOwner] of that pair, no
    [packageListAdd] and no [packageListRemove] for that package; the
    mutating calls about the package are one reassignment per
    declaration of it under an owner it is not listed under, in
    declared order, so that, when the package is declared once, that
    reassignment is the only one. *)
Theorem packages_synchronized
    name cm inh repos kwargs id packages r w cur res :
  koji_tag.ensure_packages name cm [] id r w =
    {| out := Ok r; post := w; calls := [] |} ∧
  Forall (λ c, package_call c = false)
    (calls (koji_tag.ensure_tag name cm inh repos [] kwargs w)) ∧
  (rpc_listPackages id (hub w) = Ok cur →
   out (koji_tag.ensure_packages name false packages id r w) = Ok res →
   let ws := writes (koji_tag.ensure_packages name false packages id r w) in
   ∀ owner package pkg,
     (owner, package) ∈ owned_pairs packages →
     pkg ∈ cur →
     p_package_name pkg = package →
     {| p_package_name := package; p_owner_name := owner |} ∉ cur →
     PackageListSetOwner name package owner ∈ ws ∧
     (∀ o, PackageListAdd name package o ∉ ws) ∧
     (∀ o, PackageListRemove name package o ∉ ws) ∧
     filter (λ c, about_package package c = true) ws =
       map (λ pr, PackageListSetOwner name package pr.1)
           (filter (λ pr, pr.2 = package ∧
                      {| p_package_name := package;
                         p_owner_name := pr.1 |} ∉ cur)
                   (owned_pairs packages)) ∧
     (filter (λ pr, pr.2 = package) (owned_pairs packages) = [(owner, package)] →
      filter (λ c, about_package package c = true) ws =
      [PackageListSetOwner name package owner])).
Proof.
  split; [done|]. split; [apply empty_packages_untouched|].
  intros Hc Hok ws owner package pkg Hpair Hpkg Hname Hown. subst ws.
  assert (Hne : packages ≠ []) by (by intros ->; apply elem_of_nil in Hpair).
  rewrite (ensure_packages_writes _ _ _ _ _ _ _ Hne Hc Hok).
  assert (Hcn : package ∈ (list_to_set (map p_package_name cur) : gset string)).
  { apply elem_of_list_to_set, list_elem_of_fmap. by exists pkg. }
  assert (Hdecl : package ∈ concat (map snd packages)).
  { rewrite <- owned_pairs_names. apply list_elem_of_fmap. by exists (owner, package). }
  assert (Habout :
    filter (λ c, about_package package c = true)
           (map ch_call (pkg_changes name cur packages)) =
    map (λ pr, PackageListSetOwner name package pr.1)
        (filter (λ pr, (package ∉ default ∅ ((owned_index cur).1 !! pr.1)) ∧
                       pr.2 = package) (owned_pairs packages))).
  { unfold pkg_changes. rewrite map_app, filter_app.
    rewrite (declared_pkg_calls _ _ _ _ _ Hcn).
    destruct (owner_after packages None); [|by rewrite app_nil_r].
    by rewrite removed_pkg_calls, app_nil_r. }
  assert (Hin : ∀ c, about_package package c = true →
            c ∈ map ch_call (pkg_changes name cur packages) →
            ∃ o, c = PackageListSetOwner name package o).
  { intros c Hc1 Hc2.
    assert (Hc3 : c ∈ filter (λ c, about_package package c = true)
              (map ch_call (pkg_changes name cur packages)))
      by by apply list_elem_of_filter.
    rewrite Habout in Hc3.
    apply list_elem_of_fmap in Hc3 as (d' & -> & _). by eexists. }
  assert (Hnot : package ∉ default ∅ ((owned_index cur).1 !! owner))
    by by rewrite owned_index_spec.
  split; [|split; [|split; [|split]]]; [| | |
    rewrite Habout; f_equal; apply list_filter_iff; intros [o q]; cbn;
    rewrite owned_index_spec; tauto|].
  - assert (Hx : PackageListSetOwner name package owner ∈
              filter (λ c, about_package package c = true)
                     (map ch_call (pkg_changes name cur packages))).
    { rewrite Habout. apply list_elem_of_fmap. exists (owner, package).
      split; [done|]. by apply list_elem_of_filter. }
    by apply list_elem_of_filter in Hx as [_ ?].
  - intros o Hadd. apply Hin in Hadd as [? [=]].
    simpl. by rewrite bool_decide_true.
  - intros o Hrm. apply Hin in Hrm as [? [=]].
    simpl. by rewrite bool_decide_true.
  - intros Honce. rewrite Habout.
    rewrite <- (list_filter_filter
                 (λ pr, package ∉ default ∅ ((owned_index cur).1 !! pr.1))
                 (λ pr, pr.2 = package)), Honce.
    by rewrite filter_cons_True.
Qed.
End Packages.

(** An instance of C6: [child] lists [foo], owned by [bob]; declaring
    [foo] under [alice] reassigns it and does nothing else. *)
Lemma packages_synchronized_witness :
  writes (koji_tag.ensure_packages "child" false [("alice", ["foo"])] 2
            result0 (model.world examples.hub1))
  = [PackageListSetOwner "child" "foo" "alice"] ∧
  filter (λ c, about_package "foo" c = true)
    (writes (koji_tag.ensure_packages "child" false [("alice", ["foo"])] 2
               result0 (model.world examples.hub1)))
  = [PackageListSetOwner "child" "foo" "alice"].
Proof.
  split; [reflexivity|].
  refine (proj2 (proj2 (proj2 (proj2 (proj2 (proj2 (packages_synchronized
    "child" false [] None examples.kwargs0 2 [("alice", ["foo"])] result0
    (model.world examples.hub1)
    [ {| p_package_name := "foo"; p_owner_name := "bob" |} ]
    (note (SetOwner "foo" "alice") result0))) eq_refl eq_refl
    "alice" "foo" {| p_package_name := "foo"; p_owner_name := "bob" |}
    _ _ eq_refl _)))) eq_refl).
  - by left.
  - by left.
  - by intros [=]%list_elem_of_singleton.
Defined.

(** C6 as stated does not hold: a package declared under two owners,
    neither of which it is listed under, is reassigned twice.  [child]
    lists [foo] under [bob]; declaring it under [alice] and under
    [carol] sends two reassignments. *)
Lemma package_declared_twice_reassigned_twice :
  writes (koji_tag.ensure_packages "child" false
            [("alice", ["foo"]); ("carol", ["foo"])] 2 result0
            (model.world examples.hub1))
  = [PackageListSetOwner "child" "foo" "alice";
     PackageListSetOwner "child" "foo" "carol"].
Proof. reflexivity. Qed.

Section RemovedPackages.
Context {Hub : Type} `{!Session Hub} {order : Iteration} {keys : KeyOrder}.
Implicit Types w : World Hub.

Lemma remove_calls_of_changes name cur packages owner :
  owner_after packages None = Some owner →
  filter (λ c, is_remove_package c = true)
         (map ch_call (pkg_changes name cur packages)) =
  map (λ package, PackageListRemove name package owner)
      (set_order PackageLoop (delete_names cur packages)).
Proof.
  intros Ho. unfold pkg_changes. rewrite Ho, map_app, filter_app.
  rewrite filter_none, app_nil_l.
  - rewrite <- list_fmap_compose.
    induction (set_order PackageLoop (delete_names cur packages)) as [|p l IH]; [done|].
    cbn [fmap list_fmap map]. rewrite filter_cons_True by done.
    unfold compose at 1. cbn [ch_call pkg_removal]. f_equal. exact IH.
  - apply Forall_forall.
    intros c (ch & -> & ([o p] & _ & Hch)%list_elem_of_omap)%list_elem_of_fmap.
    unfold pkg_change in Hch. destruct (decide _).
    + destruct (decide _); [done|]. by injection Hch as <-.
    + by injection Hch as <-.
Qed.

(** C10.  Every [packageListRemove] the package step issues names the
    tag and passes, as owner, the value the loop over
    [packages.items()] left in [owner]: the owner declared last.  For a
    run outside check mode that returned, the removals are one call, with
    that owner, for each package that is in the tag's list and in none of
    the declared lists, in the order in which the run iterates that
    set; the owner the package has remotely is not looked at. *)
Theorem removed_package_owner_is_last_declared
    name cm packages id r w :
  Forall (λ c, ∀ t p o, c = PackageListRemove t p o →
                t = name ∧
                owner_after packages None = Some o ∧
                last (map fst packages) = Some o)
    (calls (koji_tag.ensure_packages name cm packages id r w)) ∧
  (∀ cur res owner,
     rpc_listPackages id (hub w) = Ok cur →
     out (koji_tag.ensure_packages name false packages id r w) = Ok res →
     last (map fst packages) = Some owner →
     filter (λ c, is_remove_package c = true)
       (writes (koji_tag.ensure_packages name false packages id r w)) =
     map (λ package, PackageListRemove name package owner)
         (set_order PackageLoop (delete_names cur packages))).
Proof.
  assert (Hlast : ∀ o, owner_after packages None = Some o →
                       last (map fst packages) = Some o).
  { intros o. rewrite owner_after_last, fmap_last.
    by destruct (last packages). }
  split.
  - destruct (decide (packages = [])) as [->|Hne]; [constructor|].
    eapply calls_in_ext; [intros w'; by apply ensure_packages_plan|].
    apply calls_in_bind; [by apply calls_in_read|]. intros _.
    apply calls_in_bind; [by apply calls_in_read|]. intros cur.
    apply calls_in_apply_changes; [done|]. unfold pkg_changes.
    apply Forall_app. split.
    + apply Forall_forall. intros ch ([o p] & _ & Hch)%list_elem_of_omap.
      unfold pkg_change in Hch. destruct (decide _).
      * destruct (decide _); [done|]. by injection Hch as <-.
      * by injection Hch as <-.
    + destruct (owner_after packages None) as [o|] eqn:Ho; [|done].
      apply Forall_forall. intros ch (p & -> & _)%list_elem_of_fmap.
      simpl. intros t p' o' [= <- <- <-]. auto.
  - intros cur res owner Hc Hok Hown.
    assert (Hne : packages ≠ []) by (by intros ->).
    rewrite (ensure_packages_writes _ _ _ _ _ _ _ Hne Hc Hok).
    apply remove_calls_of_changes.
    rewrite owner_after_last. rewrite fmap_last in Hown.
    by destruct (last packages) as [[]|].
Qed.
End RemovedPackages.

(** An instance of C10: [child] lists [foo], owned by [bob]; [alice]
    and then [carol] are declared, neither with [foo].  [foo] is removed
    with [carol] as owner. *)
Lemma removed_package_owner_is_last_declared_witness :
  filter (λ c, is_remove_package c = true)
    (writes (koji_tag.ensure_packages "child" false
               [("alice", ["bar"]); ("carol", ["baz"])] 2 result0
               (model.world examples.hub1)))
  = [PackageListRemove "child" "foo" "carol"].
Proof.
  refine (proj2 (removed_package_owner_is_last_declared
    "child" false [("alice", ["bar"]); ("carol", ["baz"])] 2 result0
    (model.world examples.hub1))
    [ {| p_package_name := "foo"; p_owner_name := "bob" |} ]
    (note (RemovePkg "foo") (note (AddedPkg "baz") (note (AddedPkg "bar") result0)))
    "carol" eq_refl eq_refl eq_refl).
Defined.

(** ** Claims about [koji_cg] *)

Lemma prefix_spec (needle hay : string) :
  String.prefix needle hay = true ↔ ∃ rest, hay = needle +:+ rest.
Proof.
  revert hay. induction needle as [|c needle IH]; intros hay; simpl.
  - split; [by exists hay|by destruct hay].
  - destruct hay as [|c' hay].
    + split; [done|]. by intros [rest [=]].
    + simpl. destruct (Ascii.ascii_dec c c') as [->|Hc].
      * rewrite IH. split.
        -- intros [rest ->]. by exists rest.
        -- intros [rest [= ->]]. by exists rest.
      * split; [done|]. intros [rest [= -> _]]. done.
Qed.

(** [contains] is the substring test. *)
Lemma contains_spec (needle hay : string) :
  contains needle hay = true ↔
  ∃ before rest, hay = before +:+ needle +:+ rest.
Proof.
  induction hay as [|c hay IH]; cbn [contains].
  - rewrite orb_false_r, prefix_spec. split.
    + intros [rest ->]. by exists "", rest.
    + intros (before & rest & H). destruct before; [by exists rest|done].
  - rewrite orb_true_iff, prefix_spec, IH. split.
    + intros [[rest ->]|(before & rest & ->)].
      * by exists "", rest.
      * by exists (String c before), rest.
    + intros (before & rest & H). destruct before as [|c' before].
      * left. by exists rest.
      * right. injection H as -> ->. by exists before, rest.
Qed.

Section ContentGenerator.
Context {Hub : Type} `{!Session Hub} {order : Iteration} {keys : KeyOrder}.
Implicit Types w : World Hub.

End ContentGenerator.

Example cg_already_granted :
  out (koji_cg.run_module false "cg" "u" "present"
         (post (koji_cg.run_module false "cg" "u" "present"
                  (model.world model.empty_hub))))
  = Ok {| cg_changed := false |}.
Proof. reflexivity. Qed.

(** In check mode the grant is sent all the same. *)
Example cg_check_mode_grants :
  calls (koji_cg.run_module true "cg" "u" "present"
           (model.world model.empty_hub))
  = [GrantCGAccess "u" "cg" true].
Proof. reflexivity. Qed.

(** ** Claims about the attribute edits *)

Lemma remove_extra_loop_snoc keys key declared :
  remove_extra_loop (keys ++ [key]) declared =
  if decide (declared !! key = None)
  then Some (default [] (remove_extra_loop keys declared) ++ [key])
  else remove_extra_loop keys declared.
Proof. unfold remove_extra_loop. by rewrite foldl_app. Qed.

(** The loop collects, in order, the keys that are not declared; the
    entry is absent when there is none. *)
Lemma remove_extra_loop_filter keys declared :
  remove_extra_loop keys declared =
  match filter (λ key, declared !! key = None) keys with
  | [] => None
  | removed => Some removed
  end.
Proof.
  induction keys as [|key keys IH] using rev_ind; [done|].
  rewrite remove_extra_loop_snoc, filter_app, IH.
  destruct (decide (declared !! key = None)) as [Hk|Hk].
  - rewrite filter_cons_True by done. rewrite filter_nil.
    by destruct (filter _ keys).
  - rewrite filter_cons_False by done. by rewrite filter_nil, app_nil_r.
Qed.

Lemma remove_extra_default keys declared :
  default [] (remove_extra_loop keys declared) =
  filter (λ key, declared !! key = None) keys.
Proof. rewrite remove_extra_loop_filter. by destruct (filter _ keys). Qed.

Section RemoveExtra.
Context {keys : KeyOrder}.

(** C9.  For an existing tag, the [remove_extra] entry of the edits lists
    each key of the remote [extra] that the declared [extra] does not
    have, once, and nothing else; the entry is absent exactly when there
    is no such key. *)
Theorem remove_extra_is_remote_minus_declared taginfo kwargs :
  let remove_extra := e_remove_extra (compute_edits taginfo kwargs) in
  NoDup (default [] remove_extra) ∧
  (list_to_set (default [] remove_extra) : gset string) =
    dom (ti_extra taginfo) ∖ dom (kw_extra kwargs) ∧
  (remove_extra = None ↔ dom (ti_extra taginfo) ⊆ dom (kw_extra kwargs)).
Proof.
  cbn [compute_edits e_remove_extra].
  assert (Hkeys : ∀ key, key ∈ dict_order (ti_extra taginfo) ↔
                         key ∈ dom (ti_extra taginfo)).
  { intros key. by rewrite elem_of_dom, elem_of_dict_order. }
  assert (Hmem : ∀ key,
    key ∈ default [] (remove_extra_loop
                        (dict_order (ti_extra taginfo))
                        (kw_extra kwargs)) ↔
    key ∈ dom (ti_extra taginfo) ∧ key ∉ dom (kw_extra kwargs)).
  { intros key. rewrite remove_extra_default, list_elem_of_filter, Hkeys.
    rewrite not_elem_of_dom. tauto. }
  split; [|split].
  - rewrite remove_extra_default. apply NoDup_filter, NoDup_dict_order.
  - apply set_eq. intros key.
    by rewrite elem_of_list_to_set, Hmem, elem_of_difference.
  - split.
    + intros Hnone key Hkey. destruct (decide (key ∈ dom (kw_extra kwargs))); [done|].
      assert (Hin : key ∈ default [] (remove_extra_loop
                        (dict_order (ti_extra taginfo))
                        (kw_extra kwargs))) by by apply Hmem.
      rewrite Hnone in Hin. by apply elem_of_nil in Hin.
    + intros Hsub. rewrite remove_extra_loop_filter.
      destruct (filter _ _) as [|key l] eqn:Hf; [done|].
      assert (Hin : key ∈ filter (λ key, kw_extra kwargs !! key = None)
                (dict_order (ti_extra taginfo)))
        by (rewrite Hf; left).
      apply list_elem_of_filter in Hin as [Hnone Hin%Hkeys].
      apply Hsub, elem_of_dom in Hin as [v Hv]. congruence.
Qed.
End RemoveExtra.

(** The example of the specification: declared [{"a": 1}] against remote
    [{"a": 1, "b": 2}]. *)
Example remove_extra_b :
  e_remove_extra
    (compute_edits
       {| ti_id := 7; ti_arches := None; ti_perm := PermNone;
          ti_locked := false; ti_maven_support := false;
          ti_maven_include_all := false;
          ti_extra := <["a" := SInt 1]> (<["b" := SInt 2]> ∅) |}
       {| kw_arches := None; kw_perm := PermNone; kw_locked := false;
          kw_maven_support := false; kw_maven_include_all := false;
          kw_extra := <["a" := SInt 1]> ∅ |})
  = Some ["b"].
Proof. vm_compute. reflexivity. Qed.

(** ** Claims about the permission cache *)

Lemma dict_of_perms_snoc perms perm :
  dict_of_perms (perms ++ [perm]) =
  <[perm_name perm := perm_id perm]> (dict_of_perms perms).
Proof. unfold dict_of_perms. by rewrite foldl_app. Qed.

Lemma dict_of_perms_empty perms : dict_of_perms perms = ∅ ↔ perms = [].
Proof.
  split; [|by intros ->].
  destruct perms as [|perm perms _] using rev_ind; [done|].
  rewrite dict_of_perms_snoc. intros H.
  by apply insert_non_empty in H.
Qed.

Section PermCache.
Context {Hub : Type} `{!Session Hub} {order : Iteration} {keys : KeyOrder}.
Implicit Types w : World Hub.

(** With a filled cache a resolution makes no call. *)
Lemma get_perm_id_cached name w :
  perm_cache w ≠ ∅ →
  koji_tag.get_perm_id name w =
  {| out := cached (perm_cache w) name; post := w; calls := [] |}.
Proof.
  intros Hc. unfold koji_tag.get_perm_id. rewrite bind_unfold. simpl.
  rewrite decide_False by done. rewrite ret_bind.
  unfold cached. destruct name as [|s|z]; try done.
  by destruct (perm_cache w !! s).
Qed.

(** With an empty cache a resolution fetches the catalog and stores it. *)
Lemma get_perm_id_fetch name w perms :
  perm_cache w = ∅ →
  rpc_getAllPerms (hub w) = Ok perms →
  koji_tag.get_perm_id name w =
  {| out := cached (dict_of_perms perms) name;
     post := {| hub := hub w; perm_cache := dict_of_perms perms |};
     calls := [GetAllPerms] |}.
Proof.
  intros Hc Hp. unfold koji_tag.get_perm_id. rewrite bind_unfold. simpl.
  rewrite decide_True by done. rewrite !bind_unfold.
  unfold session_getAllPerms, rpc_read. simpl. rewrite Hp. simpl.
  unfold cached. destruct name as [|s|z]; try done.
  by destruct (dict_of_perms perms !! s).
Qed.

(** Once the cache is filled, no resolution fetches the catalog. *)
Lemma resolutions_cached names w :
  perm_cache w ≠ ∅ → resolutions names w = [].
Proof.
  revert w. induction names as [|name names IH]; intros w Hc; [done|].
  cbn [resolutions]. rewrite get_perm_id_cached by done. simpl. by apply IH.
Qed.

(** A catalog that is not empty is fetched at most once. *)
Lemma nonempty_catalog_fetched_once names w perms :
  rpc_getAllPerms (hub w) = Ok perms → perms ≠ [] →
  (List.length (resolutions names w) ≤ 1)%nat.
Proof.
  intros Hp Hne. destruct names as [|name names]; [simpl; lia|].
  destruct (decide (perm_cache w = ∅)) as [Hc|Hc].
  - cbn [resolutions]. rewrite (get_perm_id_fetch _ _ _ Hc Hp). simpl.
    rewrite resolutions_cached; [simpl; lia|]. simpl.
    by rewrite dict_of_perms_empty.
  - rewrite resolutions_cached by done. simpl; lia.
Qed.
End PermCache.

(** The function alone, called again by a caller that caught its
    [KeyError]: when the catalog is empty the cache stays empty, so each
    of the two resolutions fetches the catalog.  The module never does
    so: it resolves one label per run, and an exception ends the run. *)
Remark empty_catalog_fetched_again :
  model.perms model.empty_hub = [] ∧
  resolutions [PermStr "admin"; PermStr "build"] (model.world model.empty_hub)
  = [GetAllPerms; GetAllPerms] ∧
  out (koji_tag.get_perm_id (PermStr "admin") (model.world model.empty_hub))
  = Raise (KeyError (PermStr "admin")).
Proof. repeat split. Qed.

(** ** Runs that returned *)

Section Returned.
Context {Hub : Type} `{!Session Hub} {order : Iteration} {keys : KeyOrder}.
Implicit Types w : World Hub.

Lemma apply_changes_returned chs r w r' :
  out (apply_changes false chs r w) = Ok r' →
  r' = notes chs r ∧
  hub (post (apply_changes false chs r w)) = effects chs (hub w) ∧
  perm_cache (post (apply_changes false chs r w)) = perm_cache w.
Proof.
  intros Hok. split; [by apply apply_changes_out in Hok|].
  by apply apply_changes_ok in Hok as (_ & ? & ?).
Qed.

(** A plan of one change that ran: its write returned. *)
Lemma apply_change_returned ch r w r' :
  out (apply_changes false [ch] r w) = Ok r' →
  (rpc_effect (ch_call ch) (hub w)).1 = Ok tt.
Proof.
  rewrite apply_changes_cons, bind_unfold. unfold unless.
  rewrite perform_unfold.
  destruct (ch_login ch); simpl.
  - destruct (rpc_ensure_logged_in (hub w)); [|done]. simpl.
    by destruct (rpc_effect (ch_call ch) (hub w)).1 as [[]|].
  - by destruct (rpc_effect (ch_call ch) (hub w)).1 as [[]|].
Qed.

Lemma ensure_inheritance_returned name inh id r w r' :
  out (koji_tag.ensure_inheritance name false inh id r w) = Ok r' →
  ∃ rules cur,
    declared_rules (hub w) id inh = Some rules ∧
    rpc_getInheritanceData name (hub w) = Ok cur ∧
    r' = notes (inheritance_changes name inh cur rules) r ∧
    hub (post (koji_tag.ensure_inheritance name false inh id r w)) =
      effects (inheritance_changes name inh cur rules) (hub w) ∧
    perm_cache (post (koji_tag.ensure_inheritance name false inh id r w)) =
      perm_cache w.
Proof.
  intros Hok.
  destruct (ensure_inheritance_ok_inv _ _ _ _ _ _ _ Hok) as (rules & cur & Hr & Hc).
  exists rules, cur. split; [done|]. split; [done|].
  rewrite (ensure_inheritance_resolved _ _ _ _ _ _ _ _ Hr Hc) in *.
  simpl in *. by apply apply_changes_returned.
Qed.

Lemma ensure_inheritance_check name inh id r w rules cur :
  declared_rules (hub w) id inh = Some rules →
  rpc_getInheritanceData name (hub w) = Ok cur →
  out (koji_tag.ensure_inheritance name true inh id r w) =
  Ok (notes (inheritance_changes name inh cur rules) r).
Proof.
  intros Hr Hc. rewrite (ensure_inheritance_resolved _ _ _ _ _ _ _ _ Hr Hc).
  simpl. by rewrite apply_changes_check.
Qed.

Lemma ensure_external_repos_returned tag repos w r' :
  out (koji_tag.ensure_external_repos tag false repos w) = Ok r' →
  ∃ cur,
    rpc_getTagExternalRepos tag (hub w) = Ok cur ∧
    r' = notes (repo_changes tag cur repos) result0 ∧
    hub (post (koji_tag.ensure_external_repos tag false repos w)) =
      effects (repo_changes tag cur repos) (hub w) ∧
    perm_cache (post (koji_tag.ensure_external_repos tag false repos w)) =
      perm_cache w.
Proof.
  intros Hok.
  destruct (ensure_external_repos_ok_inv _ _ _ _ _ Hok) as (cur & Hc).
  exists cur. split; [done|].
  rewrite (ensure_external_repos_read _ _ _ _ _ Hc) in *.
  simpl in *. by apply apply_changes_returned.
Qed.

Lemma ensure_external_repos_check tag repos w cur :
  rpc_getTagExternalRepos tag (hub w) = Ok cur →
  out (koji_tag.ensure_external_repos tag true repos w) =
  Ok (notes (repo_changes tag cur repos) result0).
Proof.
  intros Hc. rewrite (ensure_external_repos_read _ _ _ _ _ Hc).
  simpl. by rewrite apply_changes_check.
Qed.

Lemma ensure_packages_returned name packages id r w r' :
  packages ≠ [] →
  out (koji_tag.ensure_packages name false packages id r w) = Ok r' →
  ∃ cur,
    rpc_ensure_logged_in (hub w) = Ok tt ∧
    rpc_listPackages id (hub w) = Ok cur ∧
    r' = notes (pkg_changes name cur packages) r ∧
    hub (post (koji_tag.ensure_packages name false packages id r w)) =
      effects (pkg_changes name cur packages) (hub w) ∧
    perm_cache (post (koji_tag.ensure_packages name false packages id r w)) =
      perm_cache w.
Proof.
  intros Hne Hok.
  destruct (ensure_packages_ok_inv _ _ _ _ _ _ _ Hne Hok) as (Hl & cur & Hc).
  exists cur. split; [done|]. split; [done|].
  rewrite (ensure_packages_read _ _ _ _ _ _ _ Hne Hl Hc) in *.
  simpl in *. by apply apply_changes_returned.
Qed.

Lemma ensure_packages_check name packages id r w cur :
  packages ≠ [] →
  rpc_ensure_logged_in (hub w) = Ok tt →
  rpc_listPackages id (hub w) = Ok cur →
  out (koji_tag.ensure_packages name true packages id r w) =
  Ok (notes (pkg_changes name cur packages) r).
Proof.
  intros Hne Hl Hc. rewrite (ensure_packages_read _ _ _ _ _ _ _ Hne Hl Hc).
  simpl. by rewrite apply_changes_check.
Qed.
End Returned.

(** ** The model: what each plan leaves untouched *)

Section Effects.
Context {Hub : Type} `{!Session Hub} {order : Iteration} {keys : KeyOrder}.

Lemma effects_cons ch chs (h : Hub) :
  effects (ch :: chs) h = effects chs (rpc_effect (ch_call ch) h).2.
Proof. done. Qed.

Lemma effects_app chs chs' (h : Hub) :
  effects (chs ++ chs') h = effects chs' (effects chs h).
Proof. unfold effects. by rewrite foldl_app. Qed.

Lemma effects_invariant (P : Hub → Prop) chs h :
  P h →
  (∀ ch h, ch ∈ chs → P h → P (rpc_effect (ch_call ch) h).2) →
  P (effects chs h).
Proof.
  revert h. induction chs as [|ch chs IH]; intros h Hh Hstep; [done|].
  rewrite effects_cons. apply IH.
  - apply Hstep; [left|done].
  - intros ch' h' Hch'. apply Hstep. by right.
Qed.
End Effects.

Section ModelFrames.
Import model.
Context {order : Iteration} {keys : KeyOrder}.

Lemma editTag2_frame name edits h :
  same_but_attrs h (editTag2 name edits h).2.
Proof.
  unfold editTag2, same_but_attrs.
  assert (Hids : ∀ f p,
    (∀ t, ti_id (f t) = ti_id t) →
    ti_id <$> alter f name (tags h) !! p = ti_id <$> tags h !! p).
  { intros f p Hf. destruct (decide (name = p)) as [->|Hne].
    - rewrite lookup_alter_eq. destruct (tags h !! p); simpl; [|done].
      by rewrite Hf.
    - by rewrite lookup_alter_ne. }
  destruct (e_perm edits) as [p|].
  - destruct (resolve_perm h p); simpl; auto 10.
  - simpl; auto 10.
Qed.

Lemma effects_edit_frame name taginfo kwargs h :
  same_but_attrs h (effects (edit_changes name taginfo kwargs) h).
Proof.
  unfold edit_changes. destruct (decide _); [by repeat split|].
  apply editTag2_frame.
Qed.

Lemma effects_inheritance_frame name inh cur rules h :
  let h' := effects (inheritance_changes name inh cur rules) h in
  tags h' = tags h ∧ external_repos h' = external_repos h ∧
  packages h' = packages h ∧ perms h' = perms h.
Proof. unfold inheritance_changes. by destruct (decide _). Qed.

Lemma effects_repos_frame name cur repos h :
  let h' := effects (repo_changes name cur repos) h in
  tags h' = tags h ∧ inheritance h' = inheritance h ∧
  packages h' = packages h ∧ perms h' = perms h.
Proof.
  apply (effects_invariant (λ h', tags h' = tags h ∧ inheritance h' = inheritance h ∧
                                  packages h' = packages h ∧ perms h' = perms h));
    [done|].
  intros ch h' Hch Hh'.
  pose proof (repo_changes_calls name cur repos) as Hc.
  rewrite Forall_forall in Hc. destruct (Hc ch Hch) as (_ & _ & Hrc).
  by destruct (ch_call ch).
Qed.

Lemma update_pkgs_frame name f h :
  let h' := (update_pkgs name f h).2 in
  tags h' = tags h ∧ inheritance h' = inheritance h ∧
  external_repos h' = external_repos h ∧ perms h' = perms h.
Proof. unfold update_pkgs. by destruct (tags h !! name). Qed.

Lemma effects_pkgs_frame name cur packages h :
  let h' := effects (pkg_changes name cur packages) h in
  tags h' = tags h ∧ inheritance h' = inheritance h ∧
  external_repos h' = external_repos h ∧ perms h' = perms h.
Proof.
  apply (effects_invariant (λ h', tags h' = tags h ∧ inheritance h' = inheritance h ∧
                      external_repos h' = external_repos h ∧ perms h' = perms h));
    [done|].
  intros ch h' Hch (H1 & H2 & H3 & H4).
  pose proof (pkg_changes_calls name cur packages) as Hc.
  rewrite Forall_forall in Hc. destruct (Hc ch Hch) as (_ & _ & Hrc).
  destruct (ch_call ch); try done; simpl;
    rewrite <- H1, <- H2, <- H3, <- H4; apply update_pkgs_frame.
Qed.

Lemma declared_rules_ids (h h' : Hub) id inh :
  (∀ p, ti_id <$> tags h' !! p = ti_id <$> tags h !! p) →
  declared_rules h' id inh = declared_rules h id inh.
Proof.
  intros Hids. induction inh as [|d inh IH]; [done|].
  rewrite !declared_rules_cons, IH. simpl.
  specialize (Hids (i_parent d)).
  destruct (tags h' !! i_parent d), (tags h !! i_parent d); simpl in *; try done.
  by injection Hids as ->.
Qed.
End ModelFrames.

(** ** Check mode against the model *)

Lemma bind_quiet_out {Hub A B} (m : M Hub A) (f : A → M Hub B) w a :
  quiet m → out (m w) = Ok a → out ((m ≫= f) w) = out (f a w).
Proof.
  intros Hq Ha. rewrite bind_unfold, Ha. simpl. by destruct (Hq w) as [-> _].
Qed.

Lemma changed_merge_repos_result r r' :
  changed r = true → changed (merge_repos_result r r') = true.
Proof. intros Hr. unfold merge_repos_result. simpl. by destruct (changed r'). Qed.

Lemma changed_notes_true chs r : changed r = true → changed (notes chs r) = true.
Proof. rewrite changed_notes. by destruct chs. Qed.

Section CheckMode.
Import model.
Context {order : Iteration} {keys : KeyOrder}.
Implicit Types w : World Hub.

Lemma read_inheritance_frame name (h h' : Hub) :
  inheritance h' = inheritance h →
  rpc_getInheritanceData name h' = rpc_getInheritanceData name h.
Proof. intros E. simpl. by rewrite E. Qed.

Lemma read_repos_frame name (h h' : Hub) :
  external_repos h' = external_repos h →
  rpc_getTagExternalRepos name h' = rpc_getTagExternalRepos name h.
Proof. intros E. simpl. unfold getTagExternalRepos, repos_of. by rewrite E. Qed.

Lemma read_packages_frame id (h h' : Hub) :
  packages h' = packages h →
  rpc_listPackages id h' = rpc_listPackages id h.
Proof. intros E. simpl. unfold listPackages, pkgs_of. by rewrite E. Qed.

(** From line 228 on, a run that returned and the check-mode run from a
    state with the same tag ids, inheritance, external repos and packages
    return the same result. *)
Lemma tail_check_agrees name inh repos packages id r0 w1 w r :
  same_but_attrs (hub w) (hub w1) →
  out (koji_tag.ensure_tag_tail name false inh repos packages id r0 w1) = Ok r →
  out (koji_tag.ensure_tag_tail name true inh repos packages id r0 w) = Ok r.
Proof.
  intros (Hinh & Hrepos & Hpkgs & _ & Hids) Hok.
  unfold koji_tag.ensure_tag_tail in *.
  apply bind_ok_inv in Hok as (r1 & H1 & Hok & _).
  pose proof (ensure_inheritance_returned _ _ _ _ _ _ H1)
    as (rules & cur & Hrules & Hcur & -> & Hh2 & _).
  set (w2 := post (koji_tag.ensure_inheritance name false inh id r0 w1)) in *.
  pose proof (effects_inheritance_frame name inh cur rules (hub w1))
    as (Ht2 & Hr2 & Hp2 & _). cbv zeta in *. rewrite <- Hh2 in *.
  rewrite (bind_quiet_out _ _ w (notes (inheritance_changes name inh cur rules) r0));
    [|apply quiet_ensure_inheritance|]; last first.
  { apply ensure_inheritance_check.
    - by rewrite <- (declared_rules_ids (hub w) (hub w1)).
    - by rewrite <- (read_inheritance_frame name (hub w) (hub w1)). }
  apply bind_ok_inv in Hok as (r2 & H2 & Hok & _).
  assert (∃ w3, 
    out (koji_tag.ensure_packages name false packages id r2 w3) = Ok r ∧
    model.packages (hub w3) = model.packages (hub w) ∧
    out ((match repos with
         | Some external_repos =>
             koji_tag.ensure_external_repos name true external_repos ≫=
             λ repos_result, mret (merge_repos_result
               (notes (inheritance_changes name inh cur rules) r0) repos_result)
         | None => mret (notes (inheritance_changes name inh cur rules) r0)
         end : M Hub Result) w) = Ok r2) as (w3 & H3 & Hp3 & Hcheck).
  { destruct repos as [repos|].
    - apply bind_ok_inv in H2 as (rr & Hrr & H2 & Hpost & _).
      injection H2 as <-.
      pose proof (ensure_external_repos_returned _ _ _ _ Hrr)
        as (cur' & Hcur' & -> & Hh3 & _).
      pose proof (effects_repos_frame name cur' repos (hub w2))
        as (_ & _ & Hp3 & _). cbv zeta in Hp3. rewrite <- Hh3 in Hp3.
      eexists. split; [exact Hok|]. split.
      + rewrite Hpost. unfold mret, M_ret, ret. cbn [post]. congruence.
      + rewrite (bind_quiet_out _ _ w (notes (repo_changes name cur' repos) result0));
          [done|apply quiet_ensure_external_repos|].
        apply ensure_external_repos_check.
        rewrite <- Hcur'. symmetry. apply read_repos_frame. congruence.
    - injection H2 as <-. exists w2. split; [done|]. split; [congruence|done]. }
  rewrite (bind_quiet_out _ _ w r2); [| |done].
  2:{ destruct repos; [|apply quiet_ret].
      apply quiet_bind; [apply quiet_ensure_external_repos|]. intros; apply quiet_ret. }
  destruct (decide (packages = [])) as [->|Hne].
  - simpl in *. done.
  - pose proof (ensure_packages_returned _ _ _ _ _ _ Hne H3)
      as (cur'' & Hl & Hc'' & -> & _).
    apply ensure_packages_check; [done|done|].
    rewrite <- Hc''. symmetry. by apply read_packages_frame.
Qed.
End CheckMode.

Section Created.
Context {Hub : Type} `{!Session Hub} {order : Iteration} {keys : KeyOrder}.
Implicit Types w : World Hub.

(** Lines 194-227 outside check mode for a tag that does not exist: when
    they return, the tag was created and the log says so. *)
Lemma ensure_tag_head_created name kwargs w hd :
  rpc_getTag name (hub w) = Ok None →
  out (koji_tag.ensure_tag_head name false kwargs w) = Ok hd →
  ∃ id_, hd = inr (id_, note (CreatedTagId id_) result0).
Proof.
  intros Ht. unfold koji_tag.ensure_tag_head. rewrite bind_unfold.
  unfold session_getTag, rpc_read at 1 2 3. simpl. rewrite Ht. simpl.
  intros Ho.
  apply bind_ok_inv in Ho as ([] & _ & Ho & _).
  apply bind_ok_inv in Ho as (kw & _ & Ho & _).
  apply bind_ok_inv in Ho as (id_ & _ & Ho & _).
  injection Ho as <-. by exists id_.
Qed.

Lemma ensure_tag_tail_changed name inh repos packages id r w r' :
  out (koji_tag.ensure_tag_tail name false inh repos packages id r w) = Ok r' →
  changed r = true → changed r' = true.
Proof.
  intros Hok Hr. unfold koji_tag.ensure_tag_tail in Hok.
  apply bind_ok_inv in Hok as (r1 & H1 & Hok & _).
  apply ensure_inheritance_returned in H1 as (rules & cur & _ & _ & -> & _).
  apply bind_ok_inv in Hok as (r2 & H2 & Hok & _).
  assert (Hr2 : changed r2 = true).
  { destruct repos as [repos|].
    - apply bind_ok_inv in H2 as (rr & _ & H2 & _). injection H2 as <-.
      by apply changed_merge_repos_result, changed_notes_true.
    - injection H2 as <-. by apply changed_notes_true. }
  destruct (decide (packages = [])) as [->|Hne].
  - by injection Hok as <-.
  - apply ensure_packages_returned in Hok as (cur' & _ & _ & -> & _); [|done].
    by apply changed_notes_true.
Qed.
End Created.

(** [delete_tag] in check mode: the same result, nothing deleted. *)
Lemma delete_tag_check_agrees name (w : World model.Hub) :
  out (koji_tag.delete_tag name true w) = out (koji_tag.delete_tag name false w) ∧
  post (koji_tag.delete_tag name true w) = w.
Proof.
  split; [|apply quiet_delete_tag].
  unfold koji_tag.delete_tag. rewrite !bind_unfold. simpl.
  by destruct (model.tags (hub w) !! name).
Qed.

(** ** Synchronising a map *)

Section SyncFacts.
Context {V : Type} `{!EqDecision V}.
Implicit Types (m : gmap string V) (kvs decl : list (string * V)).

Lemma puts_snoc kvs kv m :
  puts (kvs ++ [kv]) m = <[kv.1 := kv.2]> (puts kvs m).
Proof. unfold puts. by rewrite foldl_app. Qed.

Lemma puts_cons kv kvs m : puts (kv :: kvs) m = puts kvs (<[kv.1 := kv.2]> m).
Proof. done. Qed.

Lemma puts_lookup_in kvs m k v :
  (∀ v', (k, v') ∈ kvs → v' = v) →
  k ∈ map fst kvs →
  puts kvs m !! k = Some v.
Proof.
  induction kvs as [|[k' v'] kvs IH] using rev_ind; intros Hv Hk.
  - by apply elem_of_nil in Hk.
  - rewrite puts_snoc. simpl. destruct (decide (k' = k)) as [->|Hne].
    + rewrite lookup_insert_eq. f_equal. apply Hv.
      apply elem_of_app. right. by left.
    + rewrite lookup_insert_ne by done. apply IH.
      * intros v'' Hin. apply Hv. apply elem_of_app. by left.
      * rewrite map_app in Hk. apply elem_of_app in Hk as [Hk|Hk]; [done|].
        apply list_elem_of_singleton in Hk. by destruct Hne.
Qed.

Lemma puts_lookup_notin kvs m k :
  k ∉ map fst kvs → puts kvs m !! k = m !! k.
Proof.
  induction kvs as [|[k' v'] kvs IH] using rev_ind; intros Hk; [done|].
  rewrite puts_snoc. simpl. rewrite map_app in Hk.
  rewrite lookup_insert_ne.
  - apply IH. intros Hin. apply Hk, elem_of_app. by left.
  - intros ->. apply Hk, elem_of_app. right. by left.
Qed.

Lemma dels_snoc ks k m : dels (ks ++ [k]) m = delete k (dels ks m).
Proof. unfold dels. by rewrite foldl_app. Qed.

Lemma dels_lookup ks m k :
  dels ks m !! k = if decide (k ∈ ks) then None else m !! k.
Proof.
  induction ks as [|k' ks IH] using rev_ind.
  - rewrite decide_False; [done|]. apply not_elem_of_nil.
  - rewrite dels_snoc. destruct (decide (k' = k)) as [->|Hne].
    + rewrite lookup_delete_eq, decide_True; [done|].
      apply elem_of_app. right. by left.
    + rewrite lookup_delete_ne, IH by done.
      destruct (decide (k ∈ ks)) as [Hin|Hin].
      * rewrite decide_True; [done|]. apply elem_of_app. by left.
      * rewrite decide_False; [done|]. intros [?|Hk]%elem_of_app; [done|].
        apply list_elem_of_singleton in Hk. by destruct Hne.
Qed.

Lemma dels_Permutation ks ks' m : ks ≡ₚ ks' → dels ks m = dels ks' m.
Proof.
  intros Hperm. apply map_eq. intros k. rewrite !dels_lookup.
  destruct (decide (k ∈ ks)) as [Hin|Hin].
  - rewrite decide_True; [done|]. by rewrite <- Hperm.
  - rewrite decide_False; [done|]. by rewrite <- Hperm.
Qed.

Lemma stale_declared m decl kv : kv ∈ stale m decl → kv ∈ decl.
Proof. unfold stale. by intros [_ ?]%list_elem_of_filter. Qed.

(** After the writes and the deletions the map holds the declared
    entries and nothing else. *)
Lemma sync_agrees m decl : functional decl → agrees (sync m decl) decl.
Proof.
  intros Hf. unfold sync, undeclared. split.
  - intros k v Hkv. rewrite dels_lookup, decide_False.
    + destruct (decide (k ∈ map fst (stale m decl))) as [Hin|Hin].
      * apply puts_lookup_in; [|done]. intros v' Hv'%stale_declared.
        by apply (Hf k).
      * rewrite puts_lookup_notin by done.
        destruct (decide (m !! k = Some v)) as [|Hne]; [done|].
        destruct Hin. apply list_elem_of_fmap. exists (k, v). split; [done|].
        by apply list_elem_of_filter.
    + rewrite elem_of_elements, elem_of_difference, elem_of_list_to_set.
      intros [_ Hn]. apply Hn, list_elem_of_fmap. by exists (k, v).
  - intros k Hk. rewrite dels_lookup.
    destruct (decide _) as [|Hn]; [done|].
    rewrite puts_lookup_notin.
    + apply not_elem_of_dom. intros Hd. apply Hn.
      rewrite elem_of_elements, elem_of_difference, elem_of_list_to_set. done.
    + intros ([k' v'] & -> & Hin%stale_declared)%list_elem_of_fmap.
      apply Hk, list_elem_of_fmap. by exists (k', v').
Qed.

(** A map that agrees with the declared list needs no write and no
    deletion. *)
Lemma agrees_stale m decl : agrees m decl → stale m decl = [].
Proof.
  intros [Ha _]. apply filter_none, Forall_forall. intros [k v] Hin.
  simpl. rewrite (Ha k v Hin). by intros [].
Qed.

Lemma agrees_undeclared m decl : agrees m decl → undeclared m decl = [].
Proof.
  intros [_ Hb]. unfold undeclared.
  replace (dom m ∖ list_to_set (map fst decl)) with (∅ : gset string);
    [apply elements_empty|].
  symmetry. apply set_eq. intros k.
  rewrite elem_of_difference, elem_of_list_to_set, elem_of_dom. split.
  - intros [[v Hv] Hk]. apply Hb in Hk. congruence.
  - by intros ?%not_elem_of_empty.
Qed.

Lemma NoDup_fst_functional kvs k v v' :
  NoDup (map fst kvs) → (k, v) ∈ kvs → (k, v') ∈ kvs → v = v'.
Proof.
  induction kvs as [|[k0 v0] kvs IH]; intros Hnd H1 H2.
  - by apply elem_of_nil in H1.
  - apply NoDup_cons in Hnd as [Hk0 Hnd].
    apply elem_of_cons in H1 as [[= -> ->]|H1], H2 as [[= ->]|H2].
    + done.
    + destruct Hk0. apply list_elem_of_fmap. by exists (k0, v').
    + destruct Hk0. apply list_elem_of_fmap. by exists (k0, v).
    + by apply IH.
Qed.

(** A list with distinct keys, written into a map, is looked up as it
    is. *)
Lemma puts_NoDup_lookup kvs m k :
  NoDup (map fst kvs) →
  puts kvs m !! k =
  match list_find (λ kv, kv.1 = k) kvs with
  | Some (_, kv) => Some kv.2
  | None => m !! k
  end.
Proof.
  intros Hnd. destruct (list_find _ kvs) as [[i [k' v]]|] eqn:Hfind.
  - apply list_find_Some in Hfind as (Hi & Hk & _). simpl in Hk. subst k'.
    apply list_elem_of_lookup_2 in Hi. apply puts_lookup_in.
    + intros v' Hv'. by apply (NoDup_fst_functional kvs k).
    + apply list_elem_of_fmap. by exists (k, v).
  - apply list_find_None in Hfind. apply puts_lookup_notin.
    intros ([k' v] & -> & Hin)%list_elem_of_fmap.
    rewrite Forall_forall in Hfind. by apply (Hfind _ Hin).
Qed.
End SyncFacts.

(** ** The model: external repos and packages after their plans *)

Lemma omap_none {A B} (f : A → option B) (l : list A) :
  Forall (λ x, f x = None) l → omap f l = [].
Proof. induction 1 as [|x l Hx _ IH]; [done|]. cbn. by rewrite Hx. Qed.

Section ModelSync.
Import model.
Context {order : Iteration} {keys : KeyOrder}.

Lemma index_repos_puts l :
  index_repos l = puts (map (λ x, (x_external_repo_name x, x)) l) ∅.
Proof.
  unfold index_repos, puts. generalize (∅ : gmap string ExtRepo).
  induction l as [|x l IH]; intros m; [done|]. simpl. apply IH.
Qed.

Lemma elem_of_repo_list m r p :
  {| x_external_repo_name := r; x_priority := p |} ∈ repo_list m ↔
  m !! r = Some p.
Proof.
  unfold repo_list. rewrite list_elem_of_fmap. split.
  - intros ([r' p'] & [= -> ->] & Hin). by apply elem_of_map_to_list.
  - intros Hm. exists (r, p). split; [done|]. by apply elem_of_map_to_list.
Qed.

Lemma index_repo_list m r :
  index_repos (repo_list m) !! r =
  (λ p, {| x_external_repo_name := r; x_priority := p |}) <$> m !! r.
Proof.
  rewrite index_repos_puts. destruct (m !! r) as [p|] eqn:Hm; simpl.
  - apply puts_lookup_in.
    + intros v' (x & [= -> ->] & Hx)%list_elem_of_fmap.
      destruct x as [r' p']. simpl in *.
      apply elem_of_repo_list in Hx. congruence.
    + apply list_elem_of_fmap.
      exists (r, {| x_external_repo_name := r; x_priority := p |}).
      split; [done|]. apply list_elem_of_fmap.
      exists {| x_external_repo_name := r; x_priority := p |}.
      split; [done|]. by apply elem_of_repo_list.
  - rewrite puts_lookup_notin; [done|].
    intros ([r' x] & -> & (x' & [= -> ->] & Hx)%list_elem_of_fmap)%list_elem_of_fmap.
    destruct x' as [r' p']. apply elem_of_repo_list in Hx. simpl in Hm. congruence.
Qed.

Lemma repo_change_agreed name m d :
  m !! d_repo d = Some (d_priority d) →
  repo_change name (index_repos (repo_list m)) d = None.
Proof.
  intros Hm. unfold repo_change. rewrite index_repo_list, Hm. simpl.
  by rewrite decide_True.
Qed.

Lemma repo_change_stale name m d :
  m !! d_repo d ≠ Some (d_priority d) →
  ∃ ch, repo_change name (index_repos (repo_list m)) d = Some ch ∧
        ∀ h, repos_of name (rpc_effect (ch_call ch) h).2 =
             <[d_repo d := d_priority d]> (repos_of name h).
Proof.
  intros Hm. unfold repo_change. rewrite index_repo_list.
  assert (Hbind : ∀ h, repos_of name
            (bindExternalRepo name (d_repo d) (d_priority d) h).2 =
            <[d_repo d := d_priority d]> (repos_of name h)).
  { intros h. unfold bindExternalRepo, repos_of. simpl.
    by rewrite lookup_insert_eq. }
  destruct (m !! d_repo d) as [p|] eqn:Hp; simpl.
  - rewrite decide_False by congruence. eexists. split; [done|]. apply Hbind.
  - eexists. split; [done|]. apply Hbind.
Qed.

Lemma declared_repos_effect name m repos h :
  repos_of name
    (effects (omap (repo_change name (index_repos (repo_list m))) repos) h) =
  puts (stale m (declared_repos repos)) (repos_of name h).
Proof.
  revert h. induction repos as [|d repos IH]; intros h; [done|].
  unfold declared_repos, stale in *. cbn [map omap list_omap].
  destruct (decide (m !! d_repo d = Some (d_priority d))) as [Hm|Hm].
  - rewrite repo_change_agreed by done.
    rewrite filter_cons_False by (simpl; tauto). apply IH.
  - destruct (repo_change_stale name m d Hm) as (ch & -> & Hch).
    rewrite filter_cons_True by done. rewrite effects_cons, IH, Hch. done.
Qed.

Lemma removed_repos_effect name ks h :
  repos_of name (effects (map (repo_removal name) ks) h) =
  dels ks (repos_of name h).
Proof.
  revert h. induction ks as [|k ks IH]; intros h; [done|].
  cbn [map]. rewrite effects_cons, IH.
  change (dels (k :: ks) (repos_of name h))
    with (dels ks (delete k (repos_of name h))).
  f_equal. unfold repos_of at 1. simpl. by rewrite lookup_insert_eq.
Qed.

Lemma repos_to_remove_list m repos :
  set_order RepoLoop (repos_to_remove (index_repos (repo_list m)) repos) ≡ₚ
  undeclared m (declared_repos repos).
Proof.
  rewrite set_order_elements.
  unfold repos_to_remove, undeclared, declared_repos.
  rewrite map_map. simpl.
  assert (dom (index_repos (repo_list m)) = dom m) as ->; [|done].
  apply set_eq. intros r.
  rewrite !elem_of_dom, index_repo_list. by rewrite fmap_is_Some.
Qed.

(** After its plan, the bindings of the tag are the declared ones. *)
Lemma repos_synced name repos h :
  repos_of name (effects (repo_changes name (repo_list (repos_of name h)) repos) h) =
  sync (repos_of name h) (declared_repos repos).
Proof.
  unfold repo_changes. cbv zeta.
  rewrite effects_app, removed_repos_effect.
  rewrite (dels_Permutation _ _ _ (repos_to_remove_list _ repos)).
  by rewrite declared_repos_effect.
Qed.

(** When the bindings are the declared ones the plan is empty. *)
Lemma repo_changes_agreed name m repos :
  agrees m (declared_repos repos) → repo_changes name (repo_list m) repos = [].
Proof.
  intros Ha. unfold repo_changes. cbv zeta.
  pose proof (repos_to_remove_list m repos) as Hperm.
  rewrite (agrees_undeclared _ _ Ha) in Hperm.
  apply Permutation_nil_r in Hperm. rewrite Hperm. cbn [map]. rewrite app_nil_r.
  apply omap_none, Forall_forall. intros d Hd. apply repo_change_agreed.
  apply Ha. apply list_elem_of_fmap. by exists d.
Qed.
End ModelSync.

Section ModelSyncPackages.
Import model.
Context {order : Iteration} {keys : KeyOrder}.

Lemma elem_of_pkg_list m p o :
  {| p_package_name := p; p_owner_name := o |} ∈ pkg_list m ↔ m !! p = Some o.
Proof.
  unfold pkg_list. rewrite list_elem_of_fmap. split.
  - intros ([p' o'] & [= -> ->] & Hin). by apply elem_of_map_to_list.
  - intros Hm. exists (p, o). split; [done|]. by apply elem_of_map_to_list.
Qed.

Lemma names_pkg_list m :
  (list_to_set (map p_package_name (pkg_list m)) : gset string) = dom m.
Proof.
  apply set_eq. intros p.
  rewrite elem_of_list_to_set, elem_of_dom, list_elem_of_fmap. split.
  - intros ([p' o] & -> & Hin%elem_of_pkg_list). by exists o.
  - intros [o Ho]. exists {| p_package_name := p; p_owner_name := o |}.
    split; [done|]. by apply elem_of_pkg_list.
Qed.

Lemma owned_pkg_list m o p :
  p ∈ default ∅ ((owned_index (pkg_list m)).1 !! o) ↔ m !! p = Some o.
Proof. by rewrite owned_index_spec, elem_of_pkg_list. Qed.

Lemma pkg_change_agreed name m o p :
  m !! p = Some o →
  pkg_change name (list_to_set (map p_package_name (pkg_list m)))
    (owned_index (pkg_list m)).1 (o, p) = None.
Proof.
  intros Hm. unfold pkg_change. rewrite names_pkg_list.
  rewrite decide_True by (apply elem_of_dom; by exists o).
  rewrite decide_True; [done|]. by apply owned_pkg_list.
Qed.

Lemma update_pkgs_effect name f t h :
  tags h !! name = Some t →
  pkgs_of (ti_id t) (update_pkgs name f h).2 = f (pkgs_of (ti_id t) h) ∧
  tags (update_pkgs name f h).2 = tags h.
Proof.
  intros Ht. unfold update_pkgs. rewrite Ht. simpl. split; [|done].
  unfold pkgs_of at 1. simpl. by rewrite lookup_insert_eq.
Qed.

Lemma pkg_change_stale name m o p :
  m !! p ≠ Some o →
  ∃ ch,
    pkg_change name (list_to_set (map p_package_name (pkg_list m)))
      (owned_index (pkg_list m)).1 (o, p) = Some ch ∧
    ∀ h, rpc_effect (ch_call ch) h = update_pkgs name (<[p := o]>) h.
Proof.
  intros Hm. unfold pkg_change. destruct (decide (p ∈ _)).
  - rewrite decide_False by (by rewrite owned_pkg_list).
    by eexists.
  - by eexists.
Qed.

Lemma declared_pkgs_effect name t m pairs h :
  tags h !! name = Some t →
  let h' := effects (omap (pkg_change name
                 (list_to_set (map p_package_name (pkg_list m)))
                 (owned_index (pkg_list m)).1) pairs) h in
  pkgs_of (ti_id t) h' =
    puts (stale m (map (λ pair, (pair.2, pair.1)) pairs)) (pkgs_of (ti_id t) h) ∧
  tags h' = tags h.
Proof.
  revert h. induction pairs as [|[o p] pairs IH]; intros h Ht; [done|].
  unfold stale in *. cbn [map omap list_omap fst snd].
  destruct (decide (m !! p = Some o)) as [Hm|Hm].
  - rewrite pkg_change_agreed by done.
    rewrite filter_cons_False by (simpl; tauto). by apply IH.
  - destruct (pkg_change_stale name m o p Hm) as (ch & -> & Hch).
    rewrite filter_cons_True by done. cbv zeta. rewrite effects_cons, Hch.
    destruct (update_pkgs_effect name (<[p := o]>) t h Ht) as [Hp Htags].
    destruct (IH (update_pkgs name (<[p := o]>) h).2) as [IH1 IH2];
      [by rewrite Htags|].
    cbv zeta in IH1, IH2. rewrite IH1, IH2, Hp. done.
Qed.

Lemma removed_pkgs_effect name owner t ks h :
  tags h !! name = Some t →
  pkgs_of (ti_id t) (effects (map (pkg_removal name owner) ks) h) =
  dels ks (pkgs_of (ti_id t) h).
Proof.
  revert h. induction ks as [|k ks IH]; intros h Ht; [done|].
  cbn [map]. rewrite effects_cons.
  change (rpc_effect (ch_call (pkg_removal name owner k)) h)
    with (update_pkgs name (delete k) h).
  destruct (update_pkgs_effect name (delete k) t h Ht) as [Hp Htags].
  rewrite IH by (by rewrite Htags). by rewrite Hp.
Qed.

Lemma delete_names_list m pkgs :
  set_order PackageLoop (delete_names (pkg_list m) pkgs) ≡ₚ
  undeclared m (declared_owners pkgs).
Proof.
  rewrite set_order_elements.
  unfold delete_names, undeclared, declared_owners.
  rewrite names_pkg_list, map_map. simpl.
  by rewrite <- owned_pairs_names.
Qed.

(** After its plan, the packages of the tag are the declared ones. *)
Lemma pkgs_synced name t pkgs h :
  pkgs ≠ [] →
  tags h !! name = Some t →
  pkgs_of (ti_id t)
    (effects (pkg_changes name (pkg_list (pkgs_of (ti_id t) h)) pkgs) h) =
  sync (pkgs_of (ti_id t) h) (declared_owners pkgs).
Proof.
  intros Hne Ht. unfold pkg_changes. cbv zeta.
  rewrite effects_app.
  destruct (declared_pkgs_effect name t (pkgs_of (ti_id t) h)
              (owned_pairs pkgs) h Ht) as [Hp Htags]. cbv zeta in Hp, Htags.
  destruct (owner_after pkgs None) as [owner|] eqn:Ho.
  - rewrite removed_pkgs_effect by (by rewrite Htags).
    by rewrite Hp, (dels_Permutation _ _ _ (delete_names_list _ pkgs)).
  - rewrite owner_after_last in Ho.
    destruct pkgs as [|x pkgs' _] using rev_ind; [done|].
    by rewrite last_snoc in Ho.
Qed.

(** When the packages are the declared ones the plan is empty. *)
Lemma pkg_changes_agreed name m pkgs :
  agrees m (declared_owners pkgs) → pkg_changes name (pkg_list m) pkgs = [].
Proof.
  intros Ha. unfold pkg_changes. cbv zeta.
  pose proof (delete_names_list m pkgs) as Hperm.
  rewrite (agrees_undeclared _ _ Ha) in Hperm.
  apply Permutation_nil_r in Hperm. rewrite Hperm.
  rewrite omap_none.
  - by destruct (owner_after pkgs None).
  - apply Forall_forall. intros [o p] Hd. apply pkg_change_agreed.
    apply Ha. apply list_elem_of_fmap. by exists (o, p).
Qed.
End ModelSyncPackages.

(** ** A converged state *)

Section Converged.
Context {Hub : Type} `{!Session Hub} {order : Iteration} {keys : KeyOrder}.
Implicit Types w : World Hub.

(** In a converged state a run of [ensure_tag], in check mode or not,
    returns [changed] false with an empty log, makes no mutating call and
    leaves the state as it is. *)
Lemma converged_run name cm inh repos pkgs kwargs w :
  converged name inh repos pkgs kwargs (hub w) →
  out (koji_tag.ensure_tag name cm inh repos pkgs kwargs w) = Ok result0 ∧
  post (koji_tag.ensure_tag name cm inh repos pkgs kwargs w) = w ∧
  writes (koji_tag.ensure_tag name cm inh repos pkgs kwargs w) = [].
Proof.
  intros (taginfo & rules & Ht & He & Hr & Hc & Hrepos & Hpkgs).
  unfold koji_tag.ensure_tag. rewrite bind_unfold.
  rewrite (ensure_tag_head_present _ _ _ _ _ Ht).
  unfold edit_changes. rewrite decide_True by done.
  cbn [apply_changes for_each]. cbn [out post calls mret M_ret ret].
  unfold koji_tag.ensure_tag_tail. rewrite bind_unfold.
  rewrite (ensure_inheritance_resolved _ _ _ _ _ _ _ _ Hr Hc).
  unfold inheritance_changes. rewrite decide_True by done.
  cbn [apply_changes for_each]. cbn [out post calls mret M_ret ret].
  rewrite bind_unfold.
  assert (Hstep :
    (match repos with
     | Some external_repos =>
         koji_tag.ensure_external_repos name cm external_repos ≫=
         λ repos_result, mret (merge_repos_result result0 repos_result)
     | None => mret result0
     end : M Hub Result) w =
    {| out := Ok result0; post := w;
       calls := match repos with
                | Some _ => [GetTagExternalRepos name]
                | None => []
                end |}).
  { destruct repos as [repos|]; [|done].
    destruct Hrepos as (cur & Hcur & Hplan).
    rewrite bind_unfold, (ensure_external_repos_read _ _ _ _ _ Hcur), Hplan.
    done. }
  rewrite Hstep. cbn [out post calls].
  assert (Hlast :
    koji_tag.ensure_packages name cm pkgs (ti_id taginfo) result0 w =
    {| out := Ok result0; post := w;
       calls := match pkgs with
                | [] => []
                | _ => [EnsureLoggedIn; ListPackages (ti_id taginfo)]
                end |}).
  { destruct Hpkgs as [->|(cur & Hl & Hcur & Hplan)]; [done|].
    destruct (decide (pkgs = [])) as [->|Hne]; [done|].
    rewrite (ensure_packages_read _ _ _ _ _ _ _ Hne Hl Hcur), Hplan.
    by destruct pkgs. }
  rewrite Hlast. cbn [out post calls]. split; [done|]. split; [done|].
  unfold writes. cbn [calls]. apply no_writes_among_reads.
  assert (Hl : Forall (λ c, mutating c = false) (parent_lookups inh)).
  { apply Forall_forall. by intros c (d & -> & _)%list_elem_of_fmap. }
  destruct repos, pkgs; rewrite ?Forall_cons, ?Forall_app, ?Forall_cons;
    repeat split; try done; by repeat constructor.
Qed.

(** Whether a plan is empty does not depend on the order in which the
    sets are iterated, and so neither does convergence. *)
Lemma repo_changes_nil (other : Iteration) tag cur repos :
  repo_changes (order := order) tag cur repos = [] →
  repo_changes (order := other) tag cur repos = [].
Proof.
  unfold repo_changes. cbv zeta.
  intros [-> Hrem]%app_eq_nil. apply fmap_nil_inv in Hrem.
  apply (set_order_nil (order := order)) in Hrem. rewrite Hrem.
  by rewrite (set_order_empty (order := other)).
Qed.

Lemma pkg_changes_nil (other : Iteration) name cur packages :
  pkg_changes (order := order) name cur packages = [] →
  pkg_changes (order := other) name cur packages = [].
Proof.
  unfold pkg_changes. cbv zeta.
  intros [-> Hrem]%app_eq_nil.
  destruct (owner_after packages None); [|done].
  apply fmap_nil_inv in Hrem.
  apply (set_order_nil (order := order)) in Hrem. rewrite Hrem.
  by rewrite (set_order_empty (order := other)).
Qed.

Lemma converged_order (other : Iteration) name inh repos pkgs kwargs h :
  converged (order := order) name inh repos pkgs kwargs h →
  converged (order := other) name inh repos pkgs kwargs h.
Proof.
  intros (taginfo & rules & Ht & He & Hr & Hc & Hrepos & Hpkgs).
  exists taginfo, rules. split; [done|]. split; [done|]. split; [done|].
  split; [done|]. split.
  - destruct repos as [repos|]; [|done].
    destruct Hrepos as (cur & Hcur & Hplan). exists cur.
    split; [done|]. by apply (repo_changes_nil other).
  - destruct Hpkgs as [->|(cur & Hl & Hcur & Hplan)]; [by left|]. right.
    exists cur. split; [done|]. split; [done|].
    by apply (pkg_changes_nil other).
Qed.
End Converged.

(** ** The model: attributes after the first step *)

Lemma default_differing {A} `{EqDecision A} (remote value : A) :
  default remote (differing remote value) = value.
Proof. unfold differing. by destruct (decide _). Qed.

Lemma differing_same {A} `{EqDecision A} (value : A) :
  differing value value = None.
Proof. unfold differing. by rewrite decide_True. Qed.

Lemma foldr_delete_lookup {V} (m : gmap string V) ks k :
  foldr delete m ks !! k = if decide (k ∈ ks) then None else m !! k.
Proof.
  induction ks as [|k' ks IH]; cbn [foldr].
  - rewrite decide_False; [done|]. apply not_elem_of_nil.
  - destruct (decide (k' = k)) as [->|Hne].
    + rewrite lookup_delete_eq, decide_True; [done|]. by left.
    + rewrite lookup_delete_ne, IH by done.
      destruct (decide (k ∈ ks)) as [Hin|Hin].
      * rewrite decide_True; [done|]. by right.
      * rewrite decide_False; [done|]. by intros [->|?]%elem_of_cons.
Qed.

(** The [extra] of a tag after [editTag2] with the computed edits is the
    declared [extra]. *)
Section AttributesConverge.
Context {keys : KeyOrder}.

Lemma extra_converges (old new : gmap string scalar) :
  foldr delete (default ∅ (differing old new) ∪ old)
        (default [] (remove_extra_loop (dict_order old) new)) = new.
Proof.
  apply map_eq. intros k. rewrite foldr_delete_lookup, remove_extra_default.
  destruct (decide _) as [Hin|Hin].
  - by apply list_elem_of_filter in Hin as [-> _].
  - rewrite list_elem_of_filter, elem_of_dict_order in Hin. unfold differing.
    destruct (decide (old = new)) as [->|Hne]; simpl.
    + by rewrite (left_id_L ∅ (∪)).
    + rewrite lookup_union. destruct (new !! k) as [v|] eqn:Hk.
      * by destruct (old !! k).
      * destruct (old !! k) as [v|] eqn:Ho; [|done].
        destruct Hin. split; [done|by exists v].
Qed.

Lemma remove_extra_same (declared : gmap string scalar) :
  remove_extra_loop (dict_order declared) declared = None.
Proof.
  rewrite remove_extra_loop_filter, filter_none; [done|].
  apply Forall_forall. intros k [v Hv]%elem_of_dict_order. congruence.
Qed.

(** The attributes of a tag after [editTag2] with the computed edits are
    the declared attributes. *)
Lemma edit_taginfo_converges taginfo kwargs :
  let edits := compute_edits taginfo kwargs in
  compute_edits (model.edit_taginfo edits (e_perm edits) taginfo) kwargs
  = no_edits.
Proof.
  unfold compute_edits, model.edit_taginfo, no_edits. simpl.
  rewrite !default_differing, !differing_same, extra_converges.
  by rewrite differing_same, remove_extra_same.
Qed.
End AttributesConverge.

Lemma NoDup_fmap_inj_on {A B} (f : A → B) (l : list A) x y :
  NoDup (map f l) → x ∈ l → y ∈ l → f x = f y → x = y.
Proof.
  induction l as [|a l IH]; intros Hnd Hx Hy Hf.
  - by apply elem_of_nil in Hx.
  - cbn [map] in Hnd. apply NoDup_cons in Hnd as [Ha Hnd].
    apply elem_of_cons in Hx as [->|Hx], Hy as [->|Hy].
    + done.
    + destruct Ha. rewrite Hf. by apply list_elem_of_fmap_2.
    + destruct Ha. rewrite <- Hf. by apply list_elem_of_fmap_2.
    + by apply IH.
Qed.

Lemma dict_of_perms_lookup perms s i :
  dict_of_perms perms !! s = Some i →
  ∃ perm, perm ∈ perms ∧ perm_name perm = s ∧ perm_id perm = i.
Proof.
  induction perms as [|perm perms IH] using rev_ind; [done|].
  rewrite dict_of_perms_snoc. destruct (decide (perm_name perm = s)) as [<-|Hne].
  - rewrite lookup_insert_eq. intros [= <-]. exists perm.
    split; [|done]. apply elem_of_app. right. by left.
  - rewrite lookup_insert_ne by done. intros (perm' & Hin & Hn & Hi)%IH.
    exists perm'. split; [|done]. apply elem_of_app. by left.
Qed.

Section ModelHead.
Import model.
Context {order : Iteration} {keys : KeyOrder}.
Implicit Types w : World Hub.

Lemma resolve_perm_label h p p' :
  (∀ z, p ≠ PermInt z) → resolve_perm h p = Ok p' → p' = p.
Proof.
  intros Hp. destruct p as [|s|z]; simpl.
  - by intros [= <-].
  - destruct (decide _); [|done]. by intros [= <-].
  - by destruct (Hp z).
Qed.

Lemma resolve_perm_id h s i p' :
  NoDup (map perm_id (perms h)) →
  dict_of_perms (perms h) !! s = Some i →
  resolve_perm h (PermInt i) = Ok p' → p' = PermStr s.
Proof.
  intros Hnd (perm & Hin & <- & <-)%dict_of_perms_lookup. simpl.
  destruct (list_find _ (perms h)) as [[k perm']|] eqn:Hf; [|done].
  intros [= <-]. apply list_find_Some in Hf as (Hk%list_elem_of_lookup_2 & Hid & _).
  f_equal. f_equal. by apply (NoDup_fmap_inj_on perm_id (perms h)).
Qed.

(** The first step on an existing tag leaves it with the declared
    attributes. *)
Lemma head_edit_converges name kwargs w taginfo hd :
  tags (hub w) !! name = Some taginfo →
  (∀ z, kw_perm kwargs ≠ PermInt z) →
  out (koji_tag.ensure_tag_head name false kwargs w) = Ok hd →
  ∃ r taginfo',
    hd = inr (ti_id taginfo', r) ∧
    tags (hub (post (koji_tag.ensure_tag_head name false kwargs w))) !! name
      = Some taginfo' ∧
    compute_edits taginfo' kwargs = no_edits.
Proof.
  intros Ht Hp Hok.
  assert (Hget : rpc_getTag name (hub w) = Ok (Some taginfo))
    by (simpl; by rewrite Ht).
  rewrite (ensure_tag_head_present _ _ _ _ _ Hget) in *. cbn [out post] in *.
  destruct (out (apply_changes false _ result0 w)) as [r0|] eqn:H0; [|done].
  injection Hok as <-.
  pose proof (apply_changes_returned _ _ _ _ H0) as (_ & Hh1 & _).
  rewrite Hh1. unfold edit_changes in *.
  destruct (decide (compute_edits taginfo kwargs = no_edits)) as [He|He].
  - exists r0, taginfo. by repeat split.
  - apply apply_change_returned in H0. cbn [ch_call rpc_effect] in H0.
    change (rpc_editTag2 name (compute_edits taginfo kwargs) (hub w))
      with (editTag2 name (compute_edits taginfo kwargs) (hub w)) in H0.
    exists r0, (edit_taginfo (compute_edits taginfo kwargs)
                  (e_perm (compute_edits taginfo kwargs)) taginfo).
    split; [done|]. split; [|apply edit_taginfo_converges].
    unfold effects. cbn [foldl ch_call rpc_effect].
    change (rpc_editTag2 name (compute_edits taginfo kwargs) (hub w))
      with (editTag2 name (compute_edits taginfo kwargs) (hub w)).
    unfold editTag2 in *.
    destruct (e_perm (compute_edits taginfo kwargs)) as [p|] eqn:Hep.
    + assert (p = kw_perm kwargs) as ->.
      { cbn [compute_edits e_perm] in Hep. unfold differing in Hep.
        destruct (decide _); [done|]. by injection Hep. }
      destruct (resolve_perm (hub w) (kw_perm kwargs)) as [p'|] eqn:Hres; [|done].
      apply resolve_perm_label in Hres as ->; [|done].
      simpl. by rewrite lookup_alter_eq, Ht.
    + simpl. by rewrite lookup_alter_eq, Ht.
Qed.

(** The first step on a tag that does not exist creates it with the
    declared attributes. *)
Lemma head_create_converges name kwargs w hd :
  tags (hub w) !! name = None →
  (∀ z, kw_perm kwargs ≠ PermInt z) →
  NoDup (map perm_id (perms (hub w))) →
  cache_consistent w →
  out (koji_tag.ensure_tag_head name false kwargs w) = Ok hd →
  ∃ r taginfo',
    hd = inr (ti_id taginfo', r) ∧
    tags (hub (post (koji_tag.ensure_tag_head name false kwargs w))) !! name
      = Some taginfo' ∧
    compute_edits taginfo' kwargs = no_edits.
Proof.
  intros Ht Hp Hnd Hcache Hok. unfold koji_tag.ensure_tag_head in *.
  apply bind_ok_inv in Hok as (ti & Hti & Hok & -> & _).
  change (out (session_getTag name w)) with (Ok (tags (hub w) !! name)) in Hti.
  rewrite Ht in Hti. injection Hti as <-.
  change (post (session_getTag name w)) with w in *.
  apply bind_ok_inv in Hok as ([] & _ & Hok & -> & _).
  change (post (common_koji_ensure_logged_in w)) with w in *.
  apply bind_ok_inv in Hok as (kw & Hkw & Hok & -> & _).
  apply bind_ok_inv in Hok as (id_ & Hid & Hok & -> & _).
  injection Hok as <-.
  match goal with |- context [post (?m w)] => set (w' := post (m w)) in * end.
  assert (Hw' : hub w' = hub w ∧
    kw_arches kw = kw_arches kwargs ∧ kw_locked kw = kw_locked kwargs ∧
    kw_maven_support kw = kw_maven_support kwargs ∧
    kw_maven_include_all kw = kw_maven_include_all kwargs ∧
    kw_extra kw = kw_extra kwargs ∧
    ∀ p, resolve_perm (hub w) (kw_perm kw) = Ok p → p = kw_perm kwargs).
  { subst w'. destruct (truthy (kw_perm kwargs)) eqn:Htr.
    - apply bind_ok_inv in Hkw as (i & Hi & Hkw & -> & _).
      injection Hkw as <-.
      unfold mret at 1, M_ret at 1, ret; cbn [post].
      assert (Hg : hub (post (koji_tag.get_perm_id (kw_perm kwargs) w)) = hub w ∧
                   cached (dict_of_perms (perms (hub w))) (kw_perm kwargs) = Ok i).
      { destruct (decide (perm_cache w = ∅)) as [He|He].
        - assert (Hperms : rpc_getAllPerms (hub w) = Ok (perms (hub w)))
            by done.
          rewrite (get_perm_id_fetch _ _ _ He Hperms) in *. done.
        - rewrite (get_perm_id_cached _ _ He) in *.
          destruct Hcache as [|<-]; done. }
      destruct Hg as [Hh Hc]. split; [done|]. repeat split; try done.
      cbn [kw_perm set_perm]. intros p Hres.
      unfold cached in Hc. destruct (kw_perm kwargs) as [|s|z]; try done.
      destruct (dict_of_perms (perms (hub w)) !! s) as [i'|] eqn:Hd; [|done].
      injection Hc as ->. by apply (resolve_perm_id (hub w) s i).
    - injection Hkw as <-. repeat split; try done.
      intros p. by apply resolve_perm_label. }
  destruct Hw' as (Hh & Ha & Hl & Hm & Hi & Hx & Hperm).
  unfold session_createTag, rpc_write in *.
  change (rpc_createTag name kw (hub w')) with (createTag name kw (hub w')) in *.
  unfold createTag in *. rewrite Hh in *.
  destruct (resolve_perm (hub w) (kw_perm kw)) as [p|e] eqn:Hres; [|done].
  pose proof (Hperm p eq_refl) as ->. cbn [out post calls hub] in *.
  injection Hid as <-.
  exists (note (CreatedTagId (next_id (hub w))) result0),
    {| ti_id := next_id (hub w); ti_arches := kw_arches kw;
       ti_perm := kw_perm kwargs; ti_locked := kw_locked kw;
       ti_maven_support := kw_maven_support kw;
       ti_maven_include_all := kw_maven_include_all kw;
       ti_extra := kw_extra kw |}.
  split; [reflexivity|].
  cbn [tags post hub mret M_ret ret]. rewrite lookup_insert_eq. split; [reflexivity|].
  unfold compute_edits, no_edits. cbn.
  rewrite Ha, Hl, Hm, Hi, Hx, !differing_same. by rewrite remove_extra_same.
Qed.
End ModelHead.

(** ** Idempotence against the model *)

Section Idempotence.
Import model.
Context {order : Iteration} {keys : KeyOrder}.
Implicit Types w : World Hub.

Lemma inheritance_converges name inh cur rules h :
  rpc_getInheritanceData name h = Ok cur →
  rpc_getInheritanceData name
    (effects (inheritance_changes name inh cur rules) h) = Ok rules.
Proof.
  intros Hcur. unfold inheritance_changes.
  destruct (decide (cur = rules)) as [<-|Hne]; [done|].
  unfold effects. simpl. by rewrite lookup_insert_eq.
Qed.

(** After lines 228-298 returned, the state is converged. *)
Lemma tail_converges name inh repos pkgs kwargs taginfo r0 w1 r :
  tags (hub w1) !! name = Some taginfo →
  compute_edits taginfo kwargs = no_edits →
  functional (declared_repos (default [] repos)) →
  functional (declared_owners pkgs) →
  out (koji_tag.ensure_tag_tail name false inh repos pkgs (ti_id taginfo) r0 w1)
    = Ok r →
  converged name inh repos pkgs kwargs
    (hub (post (koji_tag.ensure_tag_tail name false inh repos pkgs
                  (ti_id taginfo) r0 w1))).
Proof.
  intros Ht He Hfr Hfp Hok. unfold koji_tag.ensure_tag_tail in *.
  apply bind_ok_inv in Hok as (r1 & H1 & Hok & -> & _).
  pose proof (ensure_inheritance_returned _ _ _ _ _ _ H1)
    as (rules & cur & Hrules & Hcur & _ & Hh2 & _).
  set (w2 := post (koji_tag.ensure_inheritance name false inh (ti_id taginfo) r0 w1)) in *.
  pose proof (effects_inheritance_frame name inh cur rules (hub w1))
    as (Ht2 & Hr2 & Hp2 & _). cbv zeta in *.
  pose proof (inheritance_converges name inh cur rules (hub w1) Hcur) as Hi2.
  rewrite <- Hh2 in *. clear Hh2 H1.
  apply bind_ok_inv in Hok as (r2 & H2 & Hok & -> & _).
  match goal with |- context [post (?m w2)] => set (w3 := post (m w2)) in * end.
  assert (H3 : tags (hub w3) = tags (hub w2) ∧
               inheritance (hub w3) = inheritance (hub w2) ∧
               match repos with
               | Some repos' =>
                   repo_changes name (repo_list (repos_of name (hub w3))) repos' = []
               | None => True
               end).
  { subst w3. destruct repos as [repos'|].
    - apply bind_ok_inv in H2 as (rr & Hrr & _ & -> & _).
      unfold mret at 1 2 3, M_ret at 1 2 3, ret; cbn [post].
      pose proof (ensure_external_repos_returned _ _ _ _ Hrr)
        as (cur' & Hcur' & _ & Hh3 & _).
      assert (cur' = repo_list (repos_of name (hub w2))) as ->
        by (by injection Hcur').
      pose proof (effects_repos_frame name (repo_list (repos_of name (hub w2)))
                    repos' (hub w2)) as (Ht3 & Hi3 & _). cbv zeta in *.
      rewrite Hh3. split; [done|]. split; [done|].
      apply repo_changes_agreed. rewrite repos_synced. by apply sync_agrees.
    - done. }
  destruct H3 as (Ht3 & Hi3 & Hrepos3). clearbody w3. clear H2.
  match goal with |- context [post (?m w3)] => set (w4 := post (m w3)) in * end.
  assert (H4 : tags (hub w4) = tags (hub w3) ∧
               inheritance (hub w4) = inheritance (hub w3) ∧
               external_repos (hub w4) = external_repos (hub w3) ∧
               (pkgs = [] ∨
                pkg_changes name (pkg_list (pkgs_of (ti_id taginfo) (hub w4))) pkgs = [])).
  { subst w4. destruct (decide (pkgs = [])) as [->|Hne]; [by auto|].
    pose proof (ensure_packages_returned _ _ _ _ _ _ Hne Hok)
      as (cur'' & _ & Hcur'' & _ & Hh4 & _).
    assert (cur'' = pkg_list (pkgs_of (ti_id taginfo) (hub w3))) as ->
      by (by injection Hcur'').
    pose proof (effects_pkgs_frame name
                  (pkg_list (pkgs_of (ti_id taginfo) (hub w3))) pkgs (hub w3))
      as (Ht4 & Hi4 & Hr4 & _). cbv zeta in *.
    rewrite Hh4. split; [done|]. split; [done|]. split; [done|]. right.
    apply pkg_changes_agreed. rewrite pkgs_synced; [|done|by rewrite Ht3, Ht2].
    by apply sync_agrees. }
  destruct H4 as (Ht4 & Hi4 & Hr4 & Hpkgs4). clearbody w4.
  exists taginfo, rules. split; [|split; [done|split; [|split; [|split]]]].
  - simpl. by rewrite Ht4, Ht3, Ht2, Ht.
  - rewrite <- Hrules. apply declared_rules_ids. intros p.
    by rewrite Ht4, Ht3, Ht2.
  - rewrite <- Hi2. apply read_inheritance_frame. by rewrite Hi4, Hi3.
  - destruct repos as [repos'|]; [|done].
    exists (repo_list (repos_of name (hub w4))). split; [done|].
    unfold repos_of in *. by rewrite Hr4.
  - destruct Hpkgs4 as [->|Hplan]; [by left|]. right.
    by exists (pkg_list (pkgs_of (ti_id taginfo) (hub w4))).
Qed.

(** C3 (amended).  Against the model of the remote service, take a
    desired state in which [perm] is a label or [None], no external repo
    is declared with two priorities and no package under two owners, a
    catalog whose permission ids are distinct, and a cache that is empty
    or holds the catalog.  When a run of [ensure_tag] outside check mode
    returns, a second run with the same desired state from the state the
    first one left, in check mode or not and whatever the order in which
    it iterates its sets, returns [changed] false with an empty log,
    issues no mutating call and leaves the state as it is. *)
Theorem second_run_changes_nothing
    name inh repos pkgs kwargs w r1 cm (second : Iteration) :
  (∀ z, kw_perm kwargs ≠ PermInt z) →
  functional (declared_repos (default [] repos)) →
  functional (declared_owners pkgs) →
  NoDup (map perm_id (perms (hub w))) →
  cache_consistent w →
  out (koji_tag.ensure_tag (order := order) name false inh repos pkgs kwargs w)
    = Ok r1 →
  let w1 :=
    post (koji_tag.ensure_tag (order := order) name false inh repos pkgs
            kwargs w) in
  let o2 :=
    koji_tag.ensure_tag (order := second) name cm inh repos pkgs kwargs w1 in
  out o2 = Ok {| changed := false; stdout_lines := [] |} ∧
  writes o2 = [] ∧
  post o2 = w1.
Proof.
  intros Hp Hfr Hfp Hnd Hcache Hok w1 o2.
  assert (Hconv : converged (order := order) name inh repos pkgs kwargs
                    (hub w1)).
  { subst w1 o2. unfold koji_tag.ensure_tag in *.
    apply bind_ok_inv in Hok as (hd & Hhd & Hok & -> & _).
    assert (Hhead : ∃ r taginfo',
      hd = inr (ti_id taginfo', r) ∧
      tags (hub (post (koji_tag.ensure_tag_head name false kwargs w))) !! name
        = Some taginfo' ∧
      compute_edits taginfo' kwargs = no_edits).
    { destruct (tags (hub w) !! name) as [taginfo|] eqn:Ht.
      - by apply (head_edit_converges name kwargs w taginfo).
      - by apply head_create_converges. }
    destruct Hhead as (r & taginfo' & -> & Ht' & He').
    by apply (tail_converges name inh repos pkgs kwargs taginfo' r _ r1). }
  apply (converged_order (order := order) second) in Hconv.
  destruct (converged_run (order := second) name cm inh repos pkgs kwargs w1
              Hconv) as (Hout & Hpost & Hwrites).
  by subst o2.
Qed.
End Idempotence.

(** An instance of C3: [child] exists; the run locks it, sets the
    priority of its parent to 0, binds the repo [b] instead of [a] and
    gives [foo] to [alice].  The second run, which iterates its sets in
    the reverse order, finds nothing to change. *)
Lemma second_run_changes_nothing_witness :
  out (koji_tag.ensure_tag (order := reversed_iteration) "child" false
         [ {| i_parent := "base"; i_priority := 0 |} ]
         (Some [ {| d_repo := "b"; d_priority := 2 |} ])
         [("alice", ["foo"])] examples.locked_kwargs
         (post (koji_tag.ensure_tag "child" false
                  [ {| i_parent := "base"; i_priority := 0 |} ]
                  (Some [ {| d_repo := "b"; d_priority := 2 |} ])
                  [("alice", ["foo"])] examples.locked_kwargs
                  (model.world examples.hub1))))
  = Ok {| changed := false; stdout_lines := [] |}.
Proof.
  assert (Hp : ∀ z, kw_perm examples.locked_kwargs ≠ PermInt z) by done.
  assert (Hfr : functional (declared_repos
                  (default [] (Some [ {| d_repo := "b"; d_priority := 2 |} ])))).
  { intros k v v' H1%list_elem_of_singleton H2%list_elem_of_singleton.
    congruence. }
  assert (Hfp : functional (declared_owners [("alice", ["foo"])])).
  { intros k v v' H1%list_elem_of_singleton H2%list_elem_of_singleton.
    congruence. }
  assert (Hnd : NoDup (map perm_id
                  (model.perms (hub (model.world examples.hub1)))))
    by apply NoDup_singleton.
  assert (Hc : model.cache_consistent (model.world examples.hub1)) by by left.
  destruct (out (koji_tag.ensure_tag "child" false
         [ {| i_parent := "base"; i_priority := 0 |} ]
         (Some [ {| d_repo := "b"; d_priority := 2 |} ])
         [("alice", ["foo"])] examples.locked_kwargs
         (model.world examples.hub1))) as [r1|e] eqn:Hrun.
  - exact (proj1 (second_run_changes_nothing "child"
      [ {| i_parent := "base"; i_priority := 0 |} ]
      (Some [ {| d_repo := "b"; d_priority := 2 |} ])
      [("alice", ["foo"])] examples.locked_kwargs
      (model.world examples.hub1) r1 false reversed_iteration
      Hp Hfr Hfp Hnd Hc Hrun)).
  - vm_compute in Hrun. discriminate Hrun.
Defined.

(** C3, counterexample.  The repo [a] is declared twice, with priorities
    5 and 7, against a tag that binds it with priority 1.  Each run
    compares both declarations with the priority it read at its start,
    so the first run leaves priority 7 and the second, which returns
    too, sets priority 5: [changed] is true again. *)
Lemma repo_declared_twice_changes_again :
  out (koji_tag.ensure_tag "child" false
         [ {| i_parent := "base"; i_priority := 5 |} ]
         (Some [ {| d_repo := "a"; d_priority := 5 |};
                 {| d_repo := "a"; d_priority := 7 |} ])
         [] examples.kwargs0 (model.world examples.hub1))
  = Ok {| changed := true;
          stdout_lines := [SetRepoPriority "a" 5; SetRepoPriority "a" 7] |} ∧
  out (koji_tag.ensure_tag "child" false
         [ {| i_parent := "base"; i_priority := 5 |} ]
         (Some [ {| d_repo := "a"; d_priority := 5 |};
                 {| d_repo := "a"; d_priority := 7 |} ])
         [] examples.kwargs0
         (post (koji_tag.ensure_tag "child" false
                  [ {| i_parent := "base"; i_priority := 5 |} ]
                  (Some [ {| d_repo := "a"; d_priority := 5 |};
                          {| d_repo := "a"; d_priority := 7 |} ])
                  [] examples.kwargs0 (model.world examples.hub1))))
  = Ok {| changed := true; stdout_lines := [SetRepoPriority "a" 5] |}.
Proof. split; vm_compute; reflexivity. Qed.

(** The same with a package declared under two owners. *)
Example package_declared_twice_changes_again :
  changed <$>
  (match out (koji_tag.ensure_tag "child" false
         [ {| i_parent := "base"; i_priority := 5 |} ] None
         [("alice", ["foo"]); ("bob", ["foo"])] examples.kwargs0
         (post (koji_tag.ensure_tag "child" false
                  [ {| i_parent := "base"; i_priority := 5 |} ] None
                  [("alice", ["foo"]); ("bob", ["foo"])] examples.kwargs0
                  (model.world examples.hub1)))) with
   | Ok r => Some r
   | Raise _ => None
   end) = Some true.
Proof. vm_compute. reflexivity. Qed.

(** ** Deleting a tag *)

Section DeleteTag.
Context {Hub : Type} `{!Session Hub} {order : Iteration} {keys : KeyOrder}.

Lemma delete_tag_unfold name cm w :
  koji_tag.delete_tag name cm w =
  match rpc_getTag name (hub w) with
  | Ok None => {| out := Ok result0; post := w; calls := [GetTag name] |}
  | Raise e => {| out := Raise e; post := w; calls := [GetTag name] |}
  | Ok (Some taginfo) =>
      let deleted :=
        {| changed := true; stdout_lines := [DeletedTag (ti_id taginfo)] |} in
      if cm then {| out := Ok deleted; post := w; calls := [GetTag name] |}
      else
        match rpc_ensure_logged_in (hub w) with
        | Ok _ =>
            {| out := match (rpc_deleteTag name (hub w)).1 with
                      | Ok _ => Ok deleted
                      | Raise e => Raise e
                      end;
               post := {| hub := (rpc_deleteTag name (hub w)).2;
                          perm_cache := perm_cache w |};
               calls := [GetTag name; EnsureLoggedIn; DeleteTag name] |}
        | Raise e =>
            {| out := Raise e; post := w;
               calls := [GetTag name; EnsureLoggedIn] |}
        end
  end.
Proof.
  unfold koji_tag.delete_tag. rewrite bind_unfold.
  unfold session_getTag. cbn [rpc_read out post calls].
  destruct (rpc_getTag name (hub w)) as [[taginfo|]|e]; [|done|done].
  cbv zeta. destruct cm; [done|].
  cbn [unless]. unfold common_koji_ensure_logged_in, session_deleteTag.
  rewrite !bind_unfold. cbn [rpc_read out post calls hub].
  destruct (rpc_ensure_logged_in (hub w)) as [[]|e]; [|done].
  cbn [out post calls]. unfold rpc_write. cbn [hub].
  by destruct (rpc_deleteTag name (hub w)) as [[[]|e] h'].
Qed.

(** X1.  [delete_tag] looks the tag up once.  When the tag does not
    exist it returns [changed] false with an empty log and issues no
    other call; when the lookup raises, so does the function.  When the
    tag exists, a run that returns reports [changed] true and the line
    'deleted tag <id>'; in check mode the lookup is the only call;
    outside check mode the function logs in and, when the login
    succeeds, calls [deleteTag] once, whose reply decides the outcome. *)
Theorem delete_tag_deletes_only_an_existing_tag name cm w :
  let o := koji_tag.delete_tag name cm w in
  (rpc_getTag name (hub w) = Ok None →
   o = {| out := Ok result0; post := w; calls := [GetTag name] |}) ∧
  (∀ e, rpc_getTag name (hub w) = Raise e →
   o = {| out := Raise e; post := w; calls := [GetTag name] |}) ∧
  (∀ taginfo,
     rpc_getTag name (hub w) = Ok (Some taginfo) →
     let deleted :=
       {| changed := true; stdout_lines := [DeletedTag (ti_id taginfo)] |} in
     (∀ r, out o = Ok r → r = deleted) ∧
     (cm = true →
      o = {| out := Ok deleted; post := w; calls := [GetTag name] |}) ∧
     (cm = false →
      match rpc_ensure_logged_in (hub w) with
      | Ok _ =>
          calls o = [GetTag name; EnsureLoggedIn; DeleteTag name] ∧
          hub (post o) = (rpc_deleteTag name (hub w)).2 ∧
          out o = match (rpc_deleteTag name (hub w)).1 with
                  | Ok _ => Ok deleted
                  | Raise e => Raise e
                  end
      | Raise e =>
          o = {| out := Raise e; post := w;
                 calls := [GetTag name; EnsureLoggedIn] |}
      end)).
Proof.
  intros o. subst o. rewrite delete_tag_unfold.
  split; [|split].
  - by intros ->.
  - by intros e ->.
  - intros taginfo ->. cbv zeta. split; [|split].
    + intros r. destruct cm; [by intros [= <-]|].
      destruct (rpc_ensure_logged_in (hub w)); [|done]. cbn [out].
      destruct (rpc_deleteTag name (hub w)).1; [|done]. by intros [= <-].
    + by intros ->.
    + intros ->. by destruct (rpc_ensure_logged_in (hub w)).
Qed.

Lemma delete_tag_gone name w r :
  (∀ h, rpc_getTag name (rpc_deleteTag name h).2 = Ok None) →
  out (koji_tag.delete_tag name false w) = Ok r →
  rpc_getTag name (hub (post (koji_tag.delete_tag name false w))) = Ok None.
Proof.
  intros Hdel Hok. rewrite delete_tag_unfold in Hok |- *.
  destruct (rpc_getTag name (hub w)) as [[taginfo|]|e] eqn:Hget;
    [|done|done].
  cbv zeta in *. destruct (rpc_ensure_logged_in (hub w)); [|done].
  apply Hdel.
Qed.

(** X2.  Deleting is idempotent: for a service whose [deleteTag] makes
    the tag unknown to [getTag], a run of [delete_tag] that follows one
    that returned outside check mode finds no tag, returns [changed]
    false and issues no call but the lookup. *)
Theorem delete_tag_twice name cm w r :
  (∀ h, rpc_getTag name (rpc_deleteTag name h).2 = Ok None) →
  out (koji_tag.delete_tag name false w) = Ok r →
  let w1 := post (koji_tag.delete_tag name false w) in
  koji_tag.delete_tag name cm w1 =
  {| out := Ok result0; post := w1; calls := [GetTag name] |}.
Proof.
  intros Hdel Hok w1.
  rewrite delete_tag_unfold. subst w1.
  by rewrite (delete_tag_gone name w r Hdel Hok).
Qed.
End DeleteTag.

(** An instance of X2: the tag [child] of the example state is deleted;
    the second run finds nothing to delete. *)
Lemma delete_tag_twice_witness :
  koji_tag.delete_tag "child" false
    (post (koji_tag.delete_tag "child" false (model.world examples.hub1))) =
  {| out := Ok result0;
     post := post (koji_tag.delete_tag "child" false
                     (model.world examples.hub1));
     calls := [GetTag "child"] |}.
Proof.
  destruct (out (koji_tag.delete_tag "child" false (model.world examples.hub1)))
    as [r|e] eqn:Hrun.
  - apply (delete_tag_twice "child" false (model.world examples.hub1) r);
      [|exact Hrun].
    intros h. cbn. by rewrite lookup_delete_eq.
  - vm_compute in Hrun. discriminate Hrun.
Defined.

(** ** The calls of a run *)

Section RunCalls.
Context {Hub : Type} `{!Session Hub} {order : Iteration} {keys : KeyOrder}.

(** A computation whose result satisfies [Q] whenever it returns. *)
Lemma calls_in_bind_post {A B} (P : call → Prop) (Q : A → Prop)
    (m : M Hub A) (f : A → M Hub B) :
  calls_in P m → (∀ w a, out (m w) = Ok a → Q a) →
  (∀ a, Q a → calls_in P (f a)) → calls_in P (m ≫= f).
Proof.
  intros Hm HQ Hf w. rewrite bind_unfold.
  destruct (out (m w)) as [a|e] eqn:Hout; cbn [calls]; [|apply Hm].
  apply Forall_app. split; [apply Hm|]. apply Hf. by apply (HQ w).
Qed.

Lemma repo_changes_named tag cur repos :
  Forall (λ ch, ensure_tag_call tag (ch_call ch)) (repo_changes tag cur repos).
Proof.
  unfold repo_changes. apply Forall_app. split.
  - apply Forall_forall. intros ch (d & _ & Hd)%list_elem_of_omap.
    unfold repo_change in Hd. destruct (index_repos cur !! d_repo d).
    + destruct (decide _); [done|]. by injection Hd as <-.
    + by injection Hd as <-.
  - apply Forall_forall. by intros ch (n & -> & _)%list_elem_of_fmap.
Qed.

Lemma pkg_changes_named name cur packages :
  Forall (λ ch, ensure_tag_call name (ch_call ch))
         (pkg_changes name cur packages).
Proof.
  unfold pkg_changes. apply Forall_app. split.
  - apply Forall_forall. intros ch ([o p] & _ & Hd)%list_elem_of_omap.
    unfold pkg_change in Hd. destruct (decide _).
    + destruct (decide _); [done|]. by injection Hd as <-.
    + by injection Hd as <-.
  - destruct (owner_after packages None); [|done].
    apply Forall_forall. by intros ch (n & -> & _)%list_elem_of_fmap.
Qed.

Lemma calls_in_head_named name cm kwargs :
  calls_in (ensure_tag_call name) (koji_tag.ensure_tag_head name cm kwargs).
Proof.
  apply calls_in_bind; [by apply calls_in_read|]. intros [t|].
  - apply calls_in_bind; [|intros; apply calls_in_ret].
    destruct (decide _); [apply calls_in_ret|].
    apply calls_in_bind; [|intros; apply calls_in_ret].
    apply calls_in_unless, calls_in_bind; [by apply calls_in_read|].
    intros _. by apply calls_in_write.
  - destruct cm; [apply calls_in_ret|].
    apply calls_in_bind; [by apply calls_in_read|]. intros _.
    apply calls_in_bind.
    + destruct (truthy _); [|apply calls_in_ret].
      apply calls_in_bind; [by apply calls_in_get_perm_id|].
      intros; apply calls_in_ret.
    + intros kw. apply calls_in_bind; [by apply calls_in_write|].
      intros; apply calls_in_ret.
Qed.

Lemma calls_in_tail_named name cm inh repos packages id r :
  calls_in (ensure_tag_call name)
    (koji_tag.ensure_tag_tail name cm inh repos packages id r).
Proof.
  apply calls_in_bind; [by apply calls_in_ensure_inheritance|]. intros r1.
  apply calls_in_bind.
  - destruct repos as [repos|]; [|apply calls_in_ret].
    apply calls_in_bind; [|intros; apply calls_in_ret].
    eapply calls_in_ext; [intros w; apply ensure_external_repos_plan|].
    apply calls_in_bind; [by apply calls_in_read|]. intros cur.
    apply calls_in_apply_changes; [done|]. apply repo_changes_named.
  - intros r2.
    destruct (decide (packages = [])) as [->|Hne]; [apply calls_in_ret|].
    eapply calls_in_ext; [intros w; by apply ensure_packages_plan|].
    apply calls_in_bind; [by apply calls_in_read|]. intros _.
    apply calls_in_bind; [by apply calls_in_read|]. intros cur.
    apply calls_in_apply_changes; [done|]. apply pkg_changes_named.
Qed.

Lemma calls_in_ensure_tag_tail (P : call → Prop)
    name cm inh repos packages id r :
  (∀ n, P (GetTag n)) → P (GetInheritanceData name) → P EnsureLoggedIn →
  (∀ rules, P (SetInheritanceData name rules true)) →
  (∀ c, repo_call c = true → P c) → (∀ c, package_call c = true → P c) →
  calls_in P (koji_tag.ensure_tag_tail name cm inh repos packages id r).
Proof.
  intros H1 H2 H3 H4 H5 H6.
  apply calls_in_bind; [by apply calls_in_ensure_inheritance|]. intros r1.
  apply calls_in_bind.
  - destruct repos as [repos|]; [|apply calls_in_ret].
    apply calls_in_bind; [|intros; apply calls_in_ret].
    by apply calls_in_ensure_external_repos.
  - intros r2. by apply calls_in_ensure_packages.
Qed.

Lemma calls_in_ensure_tag_named name cm inh repos packages kwargs :
  calls_in (ensure_tag_call name)
    (koji_tag.ensure_tag name cm inh repos packages kwargs).
Proof.
  apply calls_in_bind; [apply calls_in_head_named|].
  intros [r|[id r]]; [apply calls_in_ret|apply calls_in_tail_named].
Qed.

(** X3.  Every call of [ensure_tag] names the tag it was asked to
    ensure, but for the lookups of parents, the permission catalog, the
    login and the package listing by tag id: the function reads the
    inheritance and the external repos of that tag only, creates, edits
    and rebinds that tag only, always replaces the inheritance with
    [clear] set, and never deletes a tag or touches content-generator
    access. *)
Theorem ensure_tag_calls_name_its_tag name cm inh repos packages kwargs w :
  let o := koji_tag.ensure_tag name cm inh repos packages kwargs w in
  Forall (ensure_tag_call name) (calls o) ∧
  Forall (λ c, mutating c = true → written_tag c = Some name) (calls o) ∧
  (∀ n, DeleteTag n ∉ calls o).
Proof.
  intros o.
  pose proof (calls_in_ensure_tag_named name cm inh repos packages kwargs w)
    as Hcalls.
  fold o in Hcalls. split; [done|]. split.
  - eapply Forall_impl; [exact Hcalls|].
    intros c Hc Hm. destruct c; cbn in *; try done; by destruct_and?; subst.
  - intros n Hin. rewrite Forall_forall in Hcalls. by apply Hcalls in Hin.
Qed.
End RunCalls.

(** ** The module entry points *)

Section EntryPoints.
Context {Hub : Type} `{!Session Hub} {order : Iteration} {keys : KeyOrder}.

(** X4.  A [state] of [koji_cg] other than 'present' and 'absent' ends
    the run with [fail_json] and the message "State must be 'present'
    or 'absent'." before any remote call: nothing is granted or
    revoked. *)
Theorem cg_invalid_state_calls_nothing cm name user state w :
  state ≠ "present" → state ≠ "absent" →
  koji_cg.run_module cm name user state w =
  {| out := Raise (FailJson "State must be 'present' or 'absent'.");
     post := w; calls := [] |}.
Proof.
  intros H1 H2. unfold koji_cg.run_module.
  by rewrite !decide_False by done.
Qed.

(** X5.  A [state] of [koji_tag] other than 'present' and 'absent' ends
    the run with [fail_json] and the message "State must be 'present'
    or 'absent'." before any remote call, whatever the other
    parameters. *)
Theorem tag_invalid_state_calls_nothing cm params w :
  p_state params ≠ "present" → p_state params ≠ "absent" →
  koji_tag.run_module cm params w =
  {| m_exit := ExitFailJson "State must be 'present' or 'absent'.";
     m_final := w; m_calls := [] |}.
Proof.
  intros H1 H2. unfold koji_tag.run_module.
  by rewrite !decide_False by done.
Qed.

(** X6.  What a run of the [koji_tag] module may do to the service:
    every mutating call names the tag of the [name] parameter; with
    state 'present' no tag is deleted, with state 'absent' the only
    mutating call is [deleteTag] of that tag; in check mode no mutating
    call is issued and the state is left as it is. *)
Theorem tag_module_changes_only_its_tag cm params w :
  let o := koji_tag.run_module cm params w in
  Forall (λ c, mutating c = true → written_tag c = Some (p_name params))
         (m_calls o) ∧
  (p_state params = "present" → ∀ n, DeleteTag n ∉ m_calls o) ∧
  (p_state params = "absent" →
   Forall (λ c, mutating c = true → c = DeleteTag (p_name params))
          (m_calls o)) ∧
  (cm = true →
   m_final o = w ∧ Forall (λ c, mutating c = false) (m_calls o)).
Proof.
  intros o. subst o. unfold koji_tag.run_module.
  assert (Hdel : ∀ cm',
    Forall (λ c, mutating c = true → c = DeleteTag (p_name params))
           (calls (koji_tag.delete_tag (p_name params) cm' w))).
  { intros cm'. rewrite delete_tag_unfold.
    destruct (rpc_getTag _ _) as [[t|]|e];
      [|repeat constructor; done|repeat constructor; done].
    cbv zeta. destruct cm'; [repeat constructor; done|].
    destruct (rpc_ensure_logged_in _); repeat constructor; done. }
  assert (Hquiet : ∀ A (m : M Hub A), quiet m →
    post (m w) = w ∧ Forall (λ c, mutating c = false) (calls (m w))).
  { intros A m Hq. destruct (Hq w) as [Hp Hw]. split; [done|].
    unfold writes in Hw. apply Forall_forall. intros c Hc.
    destruct (mutating c) eqn:Hm; [|done].
    assert (Hin : c ∈ filter (λ c, mutating c = true) (calls (m w)))
      by by apply list_elem_of_filter.
    rewrite Hw in Hin. by apply elem_of_nil in Hin. }
  destruct (decide (p_state params = "present")) as [Hp|Hp].
  - cbn [m_calls m_final].
    pose proof (calls_in_ensure_tag_named (p_name params) cm
                  (p_inheritance params) (p_external_repos params)
                  (p_packages params) (kwargs_of params) w) as Hcalls.
    split; [|split; [|split]].
    + eapply Forall_impl; [exact Hcalls|].
      intros c Hc Hm. destruct c; cbn in *; try done; by destruct_and?; subst.
    + intros _ n Hin. rewrite Forall_forall in Hcalls. by apply Hcalls in Hin.
    + intros Ha. rewrite Hp in Ha. done.
    + intros ->. apply Hquiet, quiet_ensure_tag.
  - destruct (decide (p_state params = "absent")) as [Ha|Ha].
    + cbn [m_calls m_final]. split; [|split; [|split]].
      * eapply Forall_impl; [apply Hdel|]. intros c Hc Hm. by rewrite (Hc Hm).
      * done.
      * intros _. apply Hdel.
      * intros ->. apply Hquiet, quiet_delete_tag.
    + cbn [m_calls m_final]. by split; [|split; [|split]].
Qed.
End EntryPoints.

(** An instance of X4: the state 'enabled'. *)
Lemma cg_invalid_state_calls_nothing_witness :
  koji_cg.run_module false "cg" "u" "enabled" (model.world model.empty_hub) =
  {| out := Raise (FailJson "State must be 'present' or 'absent'.");
     post := model.world model.empty_hub; calls := [] |}.
Proof.
  by apply (cg_invalid_state_calls_nothing false "cg" "u" "enabled"
              (model.world model.empty_hub)).
Defined.

(** An instance of X5: the state 'deleted' for the tag [child]. *)
Lemma tag_invalid_state_calls_nothing_witness :
  koji_tag.run_module false
    {| p_name := "child"; p_state := "deleted"; p_inheritance := [];
       p_external_repos := None; p_packages := []; p_arches := None;
       p_perm := None; p_locked := false; p_maven_support := false;
       p_maven_include_all := false; p_extra := ∅ |}
    (model.world examples.hub1) =
  {| m_exit := ExitFailJson "State must be 'present' or 'absent'.";
     m_final := model.world examples.hub1; m_calls := [] |}.
Proof.
  by apply (tag_invalid_state_calls_nothing false
    {| p_name := "child"; p_state := "deleted"; p_inheritance := [];
       p_external_repos := None; p_packages := []; p_arches := None;
       p_perm := None; p_locked := false; p_maven_support := false;
       p_maven_include_all := false; p_extra := ∅ |}
    (model.world examples.hub1)).
Defined.

(** ** Looking a permission up *)

Lemma dict_of_perms_last perms s :
  dict_of_perms perms !! s =
  perm_id <$> last (filter (λ perm, perm_name perm = s) perms).
Proof.
  induction perms as [|perm perms IH] using rev_ind; [done|].
  rewrite dict_of_perms_snoc, filter_app.
  destruct (decide (perm_name perm = s)) as [Heq|Hne].
  - rewrite filter_cons_True by done. rewrite filter_nil, last_snoc.
    by rewrite <- Heq, lookup_insert_eq.
  - rewrite filter_cons_False by done. rewrite filter_nil, app_nil_r.
    by rewrite lookup_insert_ne.
Qed.

Section PermissionLookup.
Context {Hub : Type} `{!Session Hub} {order : Iteration} {keys : KeyOrder}.

(** X7.  With an empty cache, [get_perm_id] fetches the catalog and
    answers from the dictionary built of it: a label resolves to the id
    of the last catalog entry of that name, and the lookup raises
    [KeyError] exactly when no entry has that name.  The cache holds the
    dictionary afterwards, whether the lookup returned or raised. *)
Theorem get_perm_id_answers_from_catalog s w perms :
  perm_cache w = ∅ →
  rpc_getAllPerms (hub w) = Ok perms →
  let o := koji_tag.get_perm_id (PermStr s) w in
  out o = match last (filter (λ perm, perm_name perm = s) perms) with
          | Some perm => Ok (perm_id perm)
          | None => Raise (KeyError (PermStr s))
          end ∧
  (out o = Raise (KeyError (PermStr s)) ↔ s ∉ map perm_name perms) ∧
  calls o = [GetAllPerms] ∧
  post o = {| hub := hub w; perm_cache := dict_of_perms perms |}.
Proof.
  intros Hempty Hperms o. subst o.
  rewrite (get_perm_id_fetch _ _ perms) by done. cbn [out post calls cached].
  rewrite dict_of_perms_last.
  destruct (last (filter _ perms)) as [perm|] eqn:Hlast; cbn [fmap option_fmap option_map].
  - split; [done|]. split; [|done]. split; [done|]. intros Hnot.
    apply last_Some in Hlast as [l' Hl'].
    assert (Hin : perm ∈ filter (λ perm, perm_name perm = s) perms).
    { rewrite Hl'. apply elem_of_app. right. by apply list_elem_of_singleton. }
    apply list_elem_of_filter in Hin as [Hname Hin].
    exfalso. apply Hnot. rewrite <- Hname. apply list_elem_of_fmap. by exists perm.
  - split; [done|]. split; [|done]. split; [|done]. intros _.
    intros (perm & Hname & Hin)%list_elem_of_fmap.
    apply last_None in Hlast.
    assert (Hf : perm ∈ filter (λ perm, perm_name perm = s) perms)
      by by apply list_elem_of_filter.
    rewrite Hlast in Hf. by apply elem_of_nil in Hf.
Qed.

(** X8.  Once a lookup has fetched a catalog that is not empty, the
    cache is never refreshed: every later lookup in the process is
    answered from the dictionary of that first catalog without a call,
    whatever the service holds by then, and a sequence of lookups
    issues [getAllPerms] at most once. *)
Theorem fetched_catalog_is_kept name w perms :
  perm_cache w = ∅ →
  rpc_getAllPerms (hub w) = Ok perms →
  perms ≠ [] →
  let w1 := post (koji_tag.get_perm_id name w) in
  perm_cache w1 = dict_of_perms perms ∧
  (∀ h' name',
     let w' := {| hub := h'; perm_cache := perm_cache w1 |} in
     koji_tag.get_perm_id name' w' =
     {| out := cached (dict_of_perms perms) name'; post := w'; calls := [] |}) ∧
  (∀ names, (List.length (resolutions names w) ≤ 1)%nat).
Proof.
  intros Hempty Hperms Hne w1. subst w1.
  rewrite (get_perm_id_fetch _ _ perms) by done. cbn [post perm_cache].
  split; [done|]. split.
  - intros h' name'. cbv zeta. rewrite get_perm_id_cached; [done|].
    cbn [perm_cache]. by rewrite dict_of_perms_empty.
  - intros names. by apply (nonempty_catalog_fetched_once names w perms).
Qed.
End PermissionLookup.

(** An instance of X7: the catalog of the example state holds [admin]
    with id 1. *)
Lemma get_perm_id_answers_from_catalog_witness :
  out (koji_tag.get_perm_id (PermStr "admin") (model.world examples.hub1))
  = Ok 1 ∧
  out (koji_tag.get_perm_id (PermStr "build") (model.world examples.hub1))
  = Raise (KeyError (PermStr "build")).
Proof.
  split.
  - refine (proj1 (get_perm_id_answers_from_catalog "admin"
                     (model.world examples.hub1)
                     [ {| perm_name := "admin"; perm_id := 1 |} ] _ _));
      reflexivity.
  - refine (proj1 (get_perm_id_answers_from_catalog "build"
                     (model.world examples.hub1)
                     [ {| perm_name := "admin"; perm_id := 1 |} ] _ _));
      reflexivity.
Defined.

(** An instance of X8: after [admin] was looked up in the example
    state, a lookup of [build] is answered from the cache even when the
    service has lost its catalog. *)
Lemma fetched_catalog_is_kept_witness :
  koji_tag.get_perm_id (PermStr "build")
    {| hub := model.empty_hub;
       perm_cache := perm_cache (post (koji_tag.get_perm_id (PermStr "admin")
                                        (model.world examples.hub1))) |}
  = {| out := Raise (KeyError (PermStr "build"));
       post := {| hub := model.empty_hub;
                  perm_cache := perm_cache
                    (post (koji_tag.get_perm_id (PermStr "admin")
                             (model.world examples.hub1))) |};
       calls := [] |}.
Proof.
  refine (proj1 (proj2 (fetched_catalog_is_kept (PermStr "admin")
                          (model.world examples.hub1)
                          [ {| perm_name := "admin"; perm_id := 1 |} ] _ _ _))
            model.empty_hub (PermStr "build"));
    [reflexivity|reflexivity|discriminate].
Defined.

(** ** Creating and editing the tag *)

Lemma differing_None {A} `{EqDecision A} (remote value : A) :
  differing remote value = None ↔ remote = value.
Proof. unfold differing. by destruct (decide (remote = value)). Qed.

Lemma compute_edits_no_edits {keys : KeyOrder} taginfo kwargs :
  compute_edits taginfo kwargs = no_edits ↔ same_attributes taginfo kwargs.
Proof.
  unfold same_attributes. split.
  - intros He.
    pose proof (f_equal e_arches He) as H1.
    pose proof (f_equal e_perm He) as H2.
    pose proof (f_equal e_locked He) as H3.
    pose proof (f_equal e_maven_support He) as H4.
    pose proof (f_equal e_maven_include_all He) as H5.
    pose proof (f_equal e_extra He) as H6.
    cbn in H1, H2, H3, H4, H5, H6.
    apply (proj1 (differing_None _ _)) in H1, H2, H3, H4, H5, H6.
    by repeat split.
  - intros (H1 & H2 & H3 & H4 & H5 & H6). unfold compute_edits, no_edits.
    rewrite H1, H2, H3, H4, H5, H6, !differing_same.
    by rewrite remove_extra_same.
Qed.

Section CreateAndEdit.
Context {Hub : Type} `{!Session Hub} {order : Iteration} {keys : KeyOrder}.

Lemma read_bind {A B} c (f : Hub → result A) (k : A → M Hub B) w :
  (rpc_read c f ≫= k) w =
  match f (hub w) with
  | Ok a => {| out := out (k a w); post := post (k a w);
               calls := c :: calls (k a w) |}
  | Raise e => {| out := Raise e; post := w; calls := [c] |}
  end.
Proof.
  rewrite bind_unfold. cbn [rpc_read out post calls].
  by destruct (f (hub w)).
Qed.

Lemma ensure_tag_head_absent name kwargs w :
  rpc_getTag name (hub w) = Ok None →
  rpc_ensure_logged_in (hub w) = Ok tt →
  let o :=
    (kwargs ←
       (if truthy (kw_perm kwargs) then
          id_ ← koji_tag.get_perm_id (kw_perm kwargs);
          mret (set_perm (PermInt id_) kwargs)
        else mret kwargs);
     id_ ← session_createTag name kwargs;
     mret (inr (id_, note (CreatedTagId id_) result0)
             : Result + Z * Result)) w in
  koji_tag.ensure_tag_head name false kwargs w =
  {| out := out o; post := post o;
     calls := GetTag name :: EnsureLoggedIn :: calls o |}.
Proof.
  intros Hget Hlogin o. subst o. unfold koji_tag.ensure_tag_head.
  unfold session_getTag. rewrite read_bind, Hget. cbv beta iota.
  unfold common_koji_ensure_logged_in. rewrite read_bind, Hlogin.
  done.
Qed.

Lemma create_unfold name kw w :
  (id_ ← session_createTag name kw;
   mret (inr (id_, note (CreatedTagId id_) result0) : Result + Z * Result)) w =
  {| out := match (rpc_createTag name kw (hub w)).1 with
            | Ok id_ => Ok (inr (id_, note (CreatedTagId id_) result0))
            | Raise e => Raise e
            end;
     post := {| hub := (rpc_createTag name kw (hub w)).2;
                perm_cache := perm_cache w |};
     calls := [CreateTag name kw] |}.
Proof.
  rewrite bind_unfold. unfold session_createTag, rpc_write.
  by destruct (rpc_createTag name kw (hub w)) as [[id_|e] h'].
Qed.

Lemma get_perm_id_hub name w :
  hub (post (koji_tag.get_perm_id name w)) = hub w ∧
  Forall (λ c, mutating c = false) (calls (koji_tag.get_perm_id name w)).
Proof.
  destruct (decide (perm_cache w = ∅)) as [He|Hne].
  - destruct (rpc_getAllPerms (hub w)) as [perms|e] eqn:Hperms.
    + rewrite (get_perm_id_fetch _ _ perms) by done. cbn.
      split; [done|]. by repeat constructor.
    + unfold koji_tag.get_perm_id. rewrite bind_unfold. cbn [get_cache out post calls].
      rewrite decide_True by done. rewrite !bind_unfold.
      unfold session_getAllPerms. cbn [rpc_read out post calls]. rewrite Hperms.
      cbn. split; [done|]. by repeat constructor.
  - rewrite get_perm_id_cached by done. cbn. split; [done|]. constructor.
Qed.

(** X9.  A tag that does not exist is created with the declared
    attributes, after the login and after the permission is resolved:
    a truthy [perm] label is replaced by its id in the arguments of
    [createTag], a falsy one is passed as it is.  When the resolution
    raises (an unknown label, a failing catalog fetch) the exception
    leaves [ensure_tag], no mutating call is issued and the service is
    left as it was: no tag is created.  A returned creation logs
    'created tag id <id>' with the id [createTag] replied. *)
Theorem permission_resolved_before_creation
    name inh repos packages kwargs w :
  rpc_getTag name (hub w) = Ok None →
  rpc_ensure_logged_in (hub w) = Ok tt →
  let head := koji_tag.ensure_tag_head name false kwargs w in
  let o := koji_tag.ensure_tag name false inh repos packages kwargs w in
  (truthy (kw_perm kwargs) = false →
   calls head = [GetTag name; EnsureLoggedIn; CreateTag name kwargs]) ∧
  (truthy (kw_perm kwargs) = true →
   ∀ id_, out (koji_tag.get_perm_id (kw_perm kwargs) w) = Ok id_ →
   writes head = [CreateTag name (set_perm (PermInt id_) kwargs)]) ∧
  (truthy (kw_perm kwargs) = true →
   ∀ e, out (koji_tag.get_perm_id (kw_perm kwargs) w) = Raise e →
   out o = Raise e ∧ writes o = [] ∧ hub (post o) = hub w) ∧
  (∀ hd, out head = Ok hd →
   ∃ id_, hd = inr (id_, {| changed := true;
                            stdout_lines := [CreatedTagId id_] |})).
Proof.
  intros Hget Hlogin head o. subst head o.
  split; [|split; [|split]].
  - intros Hfalsy. rewrite ensure_tag_head_absent by done. cbn [calls].
    rewrite Hfalsy, ret_bind, create_unfold. done.
  - intros Htruthy id_ Hid. rewrite ensure_tag_head_absent by done.
    unfold writes. cbn [calls]. rewrite Htruthy.
    rewrite bind_assoc, bind_unfold, Hid. cbn [calls].
    rewrite ret_bind, create_unfold. cbn [calls].
    destruct (get_perm_id_hub (kw_perm kwargs) w) as [_ Hreads].
    rewrite !filter_cons_False by (cbn; done).
    rewrite filter_app, (no_writes_among_reads _ Hreads). done.
  - intros Htruthy e He. unfold koji_tag.ensure_tag.
    rewrite bind_unfold, ensure_tag_head_absent by done.
    cbn [out post calls]. rewrite Htruthy.
    rewrite bind_assoc, bind_unfold, He. cbn [out post calls].
    destruct (get_perm_id_hub (kw_perm kwargs) w) as [Hhub Hreads].
    split; [done|]. split; [|done]. unfold writes. cbn [calls].
    rewrite !filter_cons_False by (cbn; done).
    by apply no_writes_among_reads.
  - intros hd Hhd. by apply (ensure_tag_head_created name kwargs w).
Qed.

Lemma calls_in_created_as name cm inh repos packages kwargs :
  calls_in (created_as name kwargs)
    (koji_tag.ensure_tag name cm inh repos packages kwargs).
Proof.
  set (P := created_as name kwargs).
  assert (Hother : ∀ c, (∀ n kw, c ≠ CreateTag n kw) → P c).
  { intros c Hc n kw ->. by destruct (Hc n kw). }
  apply calls_in_bind.
  - apply calls_in_bind; [by apply calls_in_read, Hother|]. intros [t|].
    + apply calls_in_bind; [|intros; apply calls_in_ret].
      destruct (decide _); [apply calls_in_ret|].
      apply calls_in_bind; [|intros; apply calls_in_ret].
      apply calls_in_unless, calls_in_bind;
        [by apply calls_in_read, Hother|].
      intros _. by apply calls_in_write, Hother.
    + destruct cm; [apply calls_in_ret|].
      apply calls_in_bind; [by apply calls_in_read, Hother|]. intros _.
      apply (calls_in_bind_post P
               (λ kw, ∃ p, kw = set_perm p kwargs ∧
                  if truthy (kw_perm kwargs) then ∃ id_, p = PermInt id_
                  else p = kw_perm kwargs)).
      * destruct (truthy _); [|apply calls_in_ret].
        apply calls_in_bind; [by apply calls_in_get_perm_id, Hother|].
        intros; apply calls_in_ret.
      * intros w kw. destruct (truthy (kw_perm kwargs)).
        -- intros (id_ & _ & Hkw & _)%bind_ok_inv.
           injection Hkw as <-. exists (PermInt id_). split; [done|by exists id_].
        -- intros [= <-]. exists (kw_perm kwargs). split; [|done].
           by destruct kwargs.
      * intros kw Hkw. apply calls_in_bind; [|intros; apply calls_in_ret].
        apply calls_in_write. intros n kw' [= <- <-]. done.
  - intros [r|[id r]]; [apply calls_in_ret|].
    apply calls_in_ensure_tag_tail; try done;
      intros c Hc; apply Hother; by intros n kw ->.
Qed.

(** X10.  Whatever the service replies, [ensure_tag] calls [createTag]
    for its own tag only and with the declared [arches], [locked],
    [maven_support], [maven_include_all] and [extra]; the [perm]
    argument is a permission id when the declared one is truthy, and
    the declared one otherwise. *)
Theorem create_tag_arguments name cm inh repos packages kwargs w :
  Forall (λ c, ∀ n kw, c = CreateTag n kw →
            n = name ∧
            kw_arches kw = kw_arches kwargs ∧
            kw_locked kw = kw_locked kwargs ∧
            kw_maven_support kw = kw_maven_support kwargs ∧
            kw_maven_include_all kw = kw_maven_include_all kwargs ∧
            kw_extra kw = kw_extra kwargs ∧
            if truthy (kw_perm kwargs) then ∃ id_, kw_perm kw = PermInt id_
            else kw_perm kw = kw_perm kwargs)
    (calls (koji_tag.ensure_tag name cm inh repos packages kwargs w)).
Proof.
  eapply Forall_impl; [apply calls_in_created_as|].
  intros c Hc n kw Hkw. destruct (Hc n kw Hkw) as (-> & p & -> & Hperm).
  by cbn [set_perm kw_arches kw_perm kw_locked kw_maven_support
          kw_maven_include_all kw_extra].
Qed.

(** X11.  The [run_module] of [koji_tag] passes an empty [perm]
    parameter as [None]: every [createTag] it issues names the tag of
    the [name] parameter and carries no permission or a permission id,
    never a label. *)
Theorem module_creates_tag_with_permission_id cm params w :
  Forall (λ c, ∀ n kw, c = CreateTag n kw →
            n = p_name params ∧
            (kw_perm kw = PermNone ∨ ∃ id_, kw_perm kw = PermInt id_))
    (m_calls (koji_tag.run_module cm params w)).
Proof.
  unfold koji_tag.run_module.
  destruct (decide (p_state params = "present")) as [Hp|Hp].
  - cbn [m_calls].
    eapply Forall_impl;
      [apply (calls_in_created_as (p_name params) cm)|].
    intros c Hc n kw Hkw. destruct (Hc n kw Hkw) as (-> & p & -> & Hperm).
    split; [done|]. cbn [set_perm kw_perm].
    unfold kwargs_of in Hperm. cbn [kw_perm] in Hperm.
    unfold perm_or_none in Hperm. destruct (p_perm params) as [s|].
    + destruct (decide (s = "")) as [->|Hs]; cbn [truthy] in Hperm.
      * by left.
      * rewrite decide_False in Hperm by done. by right.
    + by left.
  - destruct (decide (p_state params = "absent")) as [Ha|Ha];
      cbn [m_calls]; [|constructor].
    rewrite delete_tag_unfold.
    destruct (rpc_getTag _ _) as [[t|]|e];
      [|repeat constructor; done|repeat constructor; done].
    cbv zeta. destruct cm; [repeat constructor; done|].
    destruct (rpc_ensure_logged_in _); repeat constructor; done.
Qed.
End CreateAndEdit.

Section EditExisting.
Context {Hub : Type} `{!Session Hub} {order : Iteration} {keys : KeyOrder}.

(** X12.  For a tag that exists, [ensure_tag] never calls [createTag],
    and it edits the tag exactly when one of the six attributes differs
    from the declared value.  With the same attributes the first step
    issues the lookup only and logs nothing.  With a differing
    attribute a returned step logs the [edits] dictionary; in check
    mode nothing is written, outside it the function logs in and, when
    the login succeeds, calls [editTag2] once with that dictionary. *)
Theorem existing_tag_edited_iff_attributes_differ name cm kwargs w taginfo :
  rpc_getTag name (hub w) = Ok (Some taginfo) →
  let o := koji_tag.ensure_tag_head name cm kwargs w in
  let edits := compute_edits taginfo kwargs in
  (∀ n kw, CreateTag n kw ∉ calls o) ∧
  (same_attributes taginfo kwargs →
   o = {| out := Ok (inr (ti_id taginfo, result0)); post := w;
          calls := [GetTag name] |}) ∧
  (¬ same_attributes taginfo kwargs →
   (∀ hd, out o = Ok hd →
      hd = inr (ti_id taginfo,
                {| changed := true; stdout_lines := [EditsLine edits] |})) ∧
   calls o =
     if cm then [GetTag name]
     else match rpc_ensure_logged_in (hub w) with
          | Ok _ => [GetTag name; EnsureLoggedIn; EditTag2 name edits]
          | Raise _ => [GetTag name; EnsureLoggedIn]
          end).
Proof.
  intros Hget o edits. subst o edits.
  rewrite (ensure_tag_head_present name cm kwargs w taginfo Hget).
  unfold edit_changes. cbv zeta.
  destruct (decide (compute_edits taginfo kwargs = no_edits)) as [He|He].
  - cbn [apply_changes for_each]. unfold mret at 1 2 3, M_ret at 1 2 3, ret.
    cbn [out post calls]. split; [|split].
    + intros n kw Hin. apply list_elem_of_singleton in Hin. done.
    + done.
    + intros Hne. destruct Hne. by apply compute_edits_no_edits.
  - split; [|split].
    + intros n kw. cbn [calls].
      pose proof (calls_in_apply_changes
        (λ c, ∀ n kw, c ≠ CreateTag n kw) cm
        [ {| ch_line := EditsLine (compute_edits taginfo kwargs);
             ch_login := true;
             ch_call := EditTag2 name (compute_edits taginfo kwargs) |} ]
        result0) as Hc.
      intros [Hin|Hin]%elem_of_cons; [done|].
      specialize (Hc ltac:(done) ltac:(by repeat constructor) w).
      rewrite Forall_forall in Hc. by apply (Hc _ Hin n kw).
    + intros Hsame. destruct He. by apply compute_edits_no_edits.
    + intros _. destruct cm.
      * rewrite apply_changes_check. cbn [out calls notes foldl].
        split; [|done]. by intros hd [= <-].
      * rewrite apply_changes_cons. cbn [unless ch_line].
        rewrite bind_unfold, perform_unfold. cbn [ch_login ch_call rpc_effect].
        destruct (rpc_ensure_logged_in (hub w)) as [[]|e]; cbn [out post calls].
        -- destruct (rpc_editTag2 name _ (hub w)) as [[[]|e] h'];
             cbn [fst snd out post calls apply_changes for_each];
             unfold mret, M_ret, ret; cbn [out post calls].
           ++ split; [|done]. by intros hd [= <-].
           ++ done.
        -- done.
Qed.
End EditExisting.

(** An instance of X9: the example catalog has no permission [build];
    ensuring a new tag with it raises [KeyError] and creates nothing. *)
Lemma permission_resolved_before_creation_witness :
  out (koji_tag.ensure_tag "new" false [] None []
         {| kw_arches := None; kw_perm := PermStr "build"; kw_locked := false;
            kw_maven_support := false; kw_maven_include_all := false;
            kw_extra := ∅ |}
         (model.world examples.hub1))
  = Raise (KeyError (PermStr "build")) ∧
  writes (koji_tag.ensure_tag "new" false [] None []
         {| kw_arches := None; kw_perm := PermStr "build"; kw_locked := false;
            kw_maven_support := false; kw_maven_include_all := false;
            kw_extra := ∅ |}
         (model.world examples.hub1)) = [] ∧
  hub (post (koji_tag.ensure_tag "new" false [] None []
         {| kw_arches := None; kw_perm := PermStr "build"; kw_locked := false;
            kw_maven_support := false; kw_maven_include_all := false;
            kw_extra := ∅ |}
         (model.world examples.hub1))) = examples.hub1.
Proof.
  refine (proj1 (proj2 (proj2 (permission_resolved_before_creation
    "new" [] None []
    {| kw_arches := None; kw_perm := PermStr "build"; kw_locked := false;
       kw_maven_support := false; kw_maven_include_all := false;
       kw_extra := ∅ |}
    (model.world examples.hub1) _ _))) _ (KeyError (PermStr "build")) _);
    reflexivity.
Defined.

(** An instance of X12: the tag [child] of the example state is not
    locked; declaring it locked edits that one attribute. *)
Lemma existing_tag_edited_iff_attributes_differ_witness :
  calls (koji_tag.ensure_tag_head "child" false examples.locked_kwargs
           (model.world examples.hub1))
  = [GetTag "child"; EnsureLoggedIn;
     EditTag2 "child"
       {| e_arches := None; e_perm := None; e_locked := Some true;
          e_maven_support := None; e_maven_include_all := None;
          e_extra := None; e_remove_extra := None |}].
Proof.
  refine (proj2 (proj2 (proj2 (existing_tag_edited_iff_attributes_differ
    "child" false examples.locked_kwargs (model.world examples.hub1)
    (examples.taginfo0 2) _)) _)).
  - reflexivity.
  - intros (_ & _ & Hlocked & _). discriminate Hlocked.
Defined.

(** ** Bindings and packages the service does not have yet *)

Lemma filter_eq_NoDup (l : list string) (r : string) :
  NoDup l → r ∈ l → filter (λ x, x = r) l = [r].
Proof.
  induction 1 as [|x l Hx Hnd IH]; [by intros ?%elem_of_nil|].
  intros [->|Hin]%elem_of_cons.
  - rewrite filter_cons_True by done. f_equal.
    apply filter_none, Forall_forall. by intros y Hy ->.
  - rewrite filter_cons_False; [by apply IH|]. by intros ->.
Qed.

Section NewBindings.
Context {Hub : Type} `{!Session Hub} {order : Iteration} {keys : KeyOrder}.

Lemma added_repo_calls tag current repos r :
  current !! r = None →
  filter (λ c, about_repo r c = true)
         (map ch_call (omap (repo_change tag current) repos)) =
  map (λ d, AddExternalRepoToTag tag r (d_priority d))
      (filter (λ d, d_repo d = r) repos).
Proof.
  intros Hb. induction repos as [|d repos IH]; [done|].
  cbn [omap list_omap]. unfold repo_change at 1.
  destruct (decide (d_repo d = r)) as [Hd|Hd].
  - rewrite Hd, Hb. rewrite filter_cons_True by done.
    cbn [map ch_call fmap list_fmap].
    rewrite filter_cons_True by (simpl; by rewrite bool_decide_true).
    f_equal. apply IH.
  - rewrite filter_cons_False by done.
    destruct (current !! d_repo d) as [b'|].
    + destruct (decide _); [apply IH|].
      cbn [map ch_call fmap list_fmap].
      rewrite filter_cons_False; [apply IH|].
      simpl. by rewrite bool_decide_false.
    + cbn [map ch_call fmap list_fmap].
      rewrite filter_cons_False; [apply IH|].
      simpl. by rewrite bool_decide_false.
Qed.

Lemma undeclared_repo_calls tag current repos r :
  r ∉ map d_repo repos →
  filter (λ c, about_repo r c = true)
         (map ch_call (omap (repo_change tag current) repos)) = [].
Proof.
  intros Hr. apply filter_none, Forall_forall.
  intros c (ch & -> & (d & Hd & Hch)%list_elem_of_omap)%list_elem_of_fmap.
  assert (Hne : d_repo d ≠ r).
  { intros <-. apply Hr, list_elem_of_fmap. by exists d. }
  unfold repo_change in Hch. destruct (current !! d_repo d).
  - destruct (decide _); [done|]. injection Hch as <-.
    simpl. by rewrite bool_decide_false.
  - injection Hch as <-. simpl. by rewrite bool_decide_false.
Qed.

Lemma removal_calls_of tag (ks : list string) r :
  filter (λ c, about_repo r c = true)
         (map ch_call (map (repo_removal tag) ks)) =
  map (RemoveExternalRepoFromTag tag) (filter (λ k, k = r) ks).
Proof.
  induction ks as [|k ks IH]; [done|].
  cbn [map fmap list_fmap repo_removal ch_call].
  destruct (decide (k = r)) as [->|Hk].
  - rewrite !filter_cons_True by (simpl; by try rewrite bool_decide_true).
    cbn [map fmap list_fmap]. f_equal. apply IH.
  - rewrite !filter_cons_False; [apply IH|done|].
    simpl. by rewrite bool_decide_false.
Qed.

(** X13.  For a run of the external-repo step outside check mode that
    returned, the mutating calls about one repo are: for a repo that
    is in no binding of the reply, one [addExternalRepoToTag] with the
    declared priority per declaration of it, in declared order; for a
    repo of the reply every declaration of which has the bound priority
    (that of its last binding in the reply), none; for a repo of the
    reply that is not declared, one [removeExternalRepoFromTag]. *)
Theorem repo_added_kept_or_removed tag repos w cur res r :
  rpc_getTagExternalRepos tag (hub w) = Ok cur →
  out (koji_tag.ensure_external_repos tag false repos w) = Ok res →
  let ws := writes (koji_tag.ensure_external_repos tag false repos w) in
  let about := filter (λ c, about_repo r c = true) ws in
  (r ∉ map x_external_repo_name cur →
   about = map (λ d, AddExternalRepoToTag tag r (d_priority d))
               (filter (λ d, d_repo d = r) repos)) ∧
  (∀ b, last (filter (λ b', x_external_repo_name b' = r) cur) = Some b →
        r ∈ map d_repo repos →
        (∀ d, d ∈ repos → d_repo d = r → d_priority d = x_priority b) →
        about = []) ∧
  (r ∈ map x_external_repo_name cur →
   r ∉ map d_repo repos →
   about = [RemoveExternalRepoFromTag tag r]).
Proof.
  intros Hcur Hok ws about. subst ws about.
  rewrite (ensure_external_repos_writes tag repos w cur res Hcur Hok).
  unfold repo_changes. rewrite map_app, filter_app.
  assert (Hdom : r ∈ dom (index_repos cur) ↔
                 r ∈ map x_external_repo_name cur)
    by by rewrite dom_index_repos, elem_of_list_to_set.
  split; [|split].
  - intros Hnew.
    assert (Hnone : index_repos cur !! r = None)
      by by apply not_elem_of_dom; rewrite Hdom.
    rewrite added_repo_calls by done.
    rewrite removal_calls_of.
    rewrite (filter_none (λ k, k = r)); [by rewrite app_nil_r|].
    apply Forall_forall. intros k Hk ->. apply elem_of_set_order in Hk.
    unfold repos_to_remove in Hk. apply elem_of_difference in Hk as [Hk _].
    apply elem_of_dom in Hk as [b Hb]. by rewrite Hnone in Hb.
  - intros b Hb Hdecl Hsame. rewrite <- index_repos_last in Hb.
    rewrite (declared_repo_calls _ _ _ _ b Hb).
    rewrite removed_repo_calls by done. rewrite app_nil_r.
    rewrite (filter_none (λ d, d_priority d ≠ x_priority b ∧ d_repo d = r));
      [done|].
    apply Forall_forall. intros d Hd [Hp Hn]. by apply Hp, Hsame.
  - intros Hbound Hundecl. rewrite undeclared_repo_calls by done.
    rewrite removal_calls_of. cbn [app].
    rewrite filter_eq_NoDup; [done|apply NoDup_set_order|].
    apply elem_of_set_order. unfold repos_to_remove.
    apply elem_of_difference. split.
    + by apply Hdom.
    + by rewrite elem_of_list_to_set.
Qed.

Lemma added_pkg_calls name cn co pairs p :
  p ∉ cn →
  filter (λ c, about_package p c = true)
         (map ch_call (omap (pkg_change name cn co) pairs)) =
  map (λ pr, PackageListAdd name p pr.1) (filter (λ pr, pr.2 = p) pairs).
Proof.
  intros Hp. induction pairs as [|[o q] pairs IH]; [done|].
  cbn [omap list_omap]. unfold pkg_change at 1.
  destruct (decide (q = p)) as [-> | Hq].
  - rewrite decide_False by done. rewrite filter_cons_True by done.
    cbn [map ch_call fmap list_fmap].
    rewrite filter_cons_True by (simpl; by rewrite bool_decide_true).
    simpl. f_equal. apply IH.
  - rewrite filter_cons_False by done.
    destruct (decide (q ∈ cn)).
    + destruct (decide _); [apply IH|].
      cbn [map ch_call fmap list_fmap].
      rewrite filter_cons_False; [apply IH|].
      simpl. by rewrite bool_decide_false.
    + cbn [map ch_call fmap list_fmap].
      rewrite filter_cons_False; [apply IH|].
      simpl. by rewrite bool_decide_false.
Qed.

Lemma kept_pkg_calls name cur packages p :
  p ∉ map p_package_name cur →
  filter (λ c, about_package p c = true)
    (map ch_call
       match owner_after packages None with
       | Some owner =>
           map (pkg_removal name owner)
               (set_order PackageLoop (delete_names cur packages))
       | None => []
       end) = [].
Proof.
  intros Hp. destruct (owner_after packages None) as [owner|]; [|done].
  apply filter_none, Forall_forall.
  intros c (ch & -> & (n & -> & Hn)%list_elem_of_fmap)%list_elem_of_fmap.
  simpl. rewrite bool_decide_false; [done|]. intros ->.
  apply elem_of_set_order in Hn. unfold delete_names in Hn.
  apply elem_of_difference in Hn as [Hn _]. apply Hp.
  by apply elem_of_list_to_set in Hn.
Qed.

(** X14.  For a run of the package step outside check mode that
    returned, the mutating calls about one package are: for a package
    that is not in the tag's list, one [packageListAdd] with the
    declared owner per declaration of it, in declared order; for a
    listed package that is declared, and listed under every owner it is
    declared for, none. *)
Theorem package_added_or_kept name packages id r w cur res p :
  rpc_listPackages id (hub w) = Ok cur →
  out (koji_tag.ensure_packages name false packages id r w) = Ok res →
  let ws := writes (koji_tag.ensure_packages name false packages id r w) in
  let about := filter (λ c, about_package p c = true) ws in
  (p ∉ map p_package_name cur →
   about = map (λ pr, PackageListAdd name p pr.1)
               (filter (λ pr, pr.2 = p) (owned_pairs packages))) ∧
  (p ∈ map p_package_name cur →
   p ∈ concat (map snd packages) →
   (∀ owner, (owner, p) ∈ owned_pairs packages →
      {| p_package_name := p; p_owner_name := owner |} ∈ cur) →
   about = []).
Proof.
  intros Hcur Hok ws about. subst ws about.
  destruct (decide (packages = [])) as [->|Hne]; [by split|].
  rewrite (ensure_packages_writes name packages id r w cur res Hne Hcur Hok).
  unfold pkg_changes. rewrite map_app, filter_app.
  split.
  - intros Hnew. rewrite added_pkg_calls by by rewrite elem_of_list_to_set.
    by rewrite kept_pkg_calls, app_nil_r.
  - intros Hlisted Hdecl Howned.
    rewrite declared_pkg_calls by by rewrite elem_of_list_to_set.
    rewrite (filter_none
      (λ pr, (p ∉ default ∅ ((owned_index cur).1 !! pr.1)) ∧ pr.2 = p)).
    + cbn [map fmap list_fmap app].
      destruct (owner_after packages None) as [owner|]; [|done].
      by apply removed_pkg_calls.
    + apply Forall_forall. intros [o q] Hin [Hnot Hq]. simpl in *. subst q.
      apply Hnot, owned_index_spec. by apply Howned.
Qed.
End NewBindings.

(** An instance of X13: the tag [child] of the example state binds the
    repo [a] only; declaring [b] adds it. *)
Lemma repo_added_kept_or_removed_witness :
  filter (λ c, about_repo "b" c = true)
    (writes (koji_tag.ensure_external_repos "child" false
               [ {| d_repo := "a"; d_priority := 1 |};
                 {| d_repo := "b"; d_priority := 2 |} ]
               (model.world examples.hub1)))
  = [AddExternalRepoToTag "child" "b" 2].
Proof.
  destruct (out (koji_tag.ensure_external_repos "child" false
               [ {| d_repo := "a"; d_priority := 1 |};
                 {| d_repo := "b"; d_priority := 2 |} ]
               (model.world examples.hub1))) as [res|e] eqn:Hrun.
  - refine (proj1 (repo_added_kept_or_removed "child"
               [ {| d_repo := "a"; d_priority := 1 |};
                 {| d_repo := "b"; d_priority := 2 |} ]
               (model.world examples.hub1)
               [ {| x_external_repo_name := "a"; x_priority := 1 |} ]
               res "b" _ Hrun) _).
    + reflexivity.
    + cbn. intros Hin%list_elem_of_singleton. discriminate Hin.
  - vm_compute in Hrun. discriminate Hrun.
Defined.

(** An instance of X14: the tag [child] of the example state lists the
    package [foo] only; declaring [bar] for [bob] adds it. *)
Lemma package_added_or_kept_witness :
  filter (λ c, about_package "bar" c = true)
    (writes (koji_tag.ensure_packages "child" false
               [("bob", ["foo"; "bar"])] 2 result0
               (model.world examples.hub1)))
  = [PackageListAdd "child" "bar" "bob"].
Proof.
  destruct (out (koji_tag.ensure_packages "child" false
               [("bob", ["foo"; "bar"])] 2 result0
               (model.world examples.hub1))) as [res|e] eqn:Hrun.
  - refine (proj1 (package_added_or_kept "child"
               [("bob", ["foo"; "bar"])] 2 result0
               (model.world examples.hub1)
               [ {| p_package_name := "foo"; p_owner_name := "bob" |} ]
               res "bar" _ Hrun) _).
    + reflexivity.
    + cbn. intros Hin%list_elem_of_singleton. discriminate Hin.
  - vm_compute in Hrun. discriminate Hrun.
Defined.

(** ** A failing call *)

Section Failure.
Context {Hub : Type} `{!Session Hub} {order : Iteration} {keys : KeyOrder}.

Lemma writes_bind {A B} (m : M Hub A) (f : A → M Hub B) w :
  writes ((m ≫= f) w) =
  writes (m w) ++
  match out (m w) with
  | Ok a => writes (f a (post (m w)))
  | Raise _ => []
  end.
Proof.
  unfold writes. rewrite bind_unfold.
  destruct (out (m w)); cbn [calls]; [by rewrite filter_app|].
  by rewrite app_nil_r.
Qed.



End Failure.



(** ** The order of the steps *)

Section Steps.
Context {Hub : Type} `{!Session Hub} {order : Iteration} {keys : KeyOrder}.

Lemma calls_bind {A B} (m : M Hub A) (f : A → M Hub B) w :
  calls ((m ≫= f) w) =
  calls (m w) ++
  match out (m w) with
  | Ok a => calls (f a (post (m w)))
  | Raise _ => []
  end.
Proof.
  rewrite bind_unfold. destruct (out (m w)); cbn [calls]; [done|].
  by rewrite app_nil_r.
Qed.

(** X17.  The calls of a run of [ensure_tag] fall into four consecutive
    segments, in this order: the calls of the first step (the lookup of
    the tag, the login, the permission catalog, [createTag] or
    [editTag2]); the parent lookups, [getInheritanceData] and
    [setInheritanceData]; the calls about external repos; the calls
    about packages.  Hence no attribute is written after the
    inheritance, no inheritance after an external repo, and no external
    repo after a package. *)
Theorem ensure_tag_steps_in_order name cm inh repos packages kwargs w :
  ∃ l2 l3 l4,
    calls (koji_tag.ensure_tag name cm inh repos packages kwargs w) =
      calls (koji_tag.ensure_tag_head name cm kwargs w) ++ l2 ++ l3 ++ l4 ∧
    Forall head_call (calls (koji_tag.ensure_tag_head name cm kwargs w)) ∧
    Forall inheritance_step_call l2 ∧
    Forall repo_step_call l3 ∧
    Forall package_step_call l4.
Proof.
  unfold koji_tag.ensure_tag. rewrite calls_bind.
  pose proof (calls_in_ensure_tag_head name cm kwargs w) as Hhead.
  destruct (out (koji_tag.ensure_tag_head name cm kwargs w))
    as [[r|[id r]]|e].
  - by exists [], [], [].
  - set (w1 := post (koji_tag.ensure_tag_head name cm kwargs w)).
    unfold koji_tag.ensure_tag_tail. rewrite calls_bind.
    exists (calls (koji_tag.ensure_inheritance name cm inh id r w1)).
    assert (H2 : Forall inheritance_step_call
                   (calls (koji_tag.ensure_inheritance name cm inh id r w1)))
      by by apply calls_in_ensure_inheritance.
    destruct (out (koji_tag.ensure_inheritance name cm inh id r w1))
      as [r1|e]; [|by exists [], []].
    set (w2 := post (koji_tag.ensure_inheritance name cm inh id r w1)).
    rewrite calls_bind.
    match goal with |- context [calls (?m w2)] =>
      exists (calls (m w2));
      assert (H3 : Forall repo_step_call (calls (m w2)))
    end.
    { destruct repos as [repos|]; [|constructor].
      revert w2. apply calls_in_bind; [|intros; apply calls_in_ret].
      apply calls_in_ensure_external_repos; [by left|by right]. }
    match goal with |- context [out (?m w2)] =>
      destruct (out (m w2)) as [r2|e]; [|by exists []]
    end.
    match goal with |- context [calls (?m ?w3) ++ calls ?o] =>
      exists (calls o)
    end.
    split; [done|]. split; [done|]. split; [done|]. split; [done|].
    apply calls_in_ensure_packages; [by left|by right].
  - by exists [], [], [].
Qed.
End Steps.

(** ** What the result says *)

Lemma changed_iff_logged_note line r : changed_iff_logged (note line r).
Proof.
  unfold changed_iff_logged. cbn. split; [|done].
  intros _ Hnil. by apply app_eq_nil in Hnil as [_ ?].
Qed.

Lemma changed_iff_logged_notes chs r :
  changed_iff_logged r → changed_iff_logged (notes chs r).
Proof.
  revert r. induction chs as [|ch chs IH]; intros r Hr; [done|].
  apply IH, changed_iff_logged_note.
Qed.

Lemma changed_iff_logged_merge r r' :
  changed_iff_logged r → changed_iff_logged r' →
  changed_iff_logged (merge_repos_result r r').
Proof.
  unfold changed_iff_logged, merge_repos_result. cbn. intros Hr Hr'.
  destruct (changed r') eqn:Hc'.
  - split; [|done]. intros _ Hnil. apply app_eq_nil in Hnil as [_ Hnil].
    by apply Hr'.
  - assert (Hl' : stdout_lines r' = []).
    { destruct (stdout_lines r') eqn:Hl'; [done|].
      assert (false = true); [|done]. by apply Hr'. }
    by rewrite Hl', app_nil_r.
Qed.

Section Logged.
Context {Hub : Type} `{!Session Hub} {order : Iteration} {keys : KeyOrder}.

Lemma ensure_inheritance_notes name cm inh id r w r' :
  out (koji_tag.ensure_inheritance name cm inh id r w) = Ok r' →
  ∃ chs, r' = notes chs r.
Proof.
  rewrite ensure_inheritance_plan.
  intros (rules & _ & (cur & _ & Hr & _)%bind_ok_inv & _)%bind_ok_inv.
  eexists. by apply apply_changes_out in Hr.
Qed.

Lemma ensure_external_repos_notes tag cm repos w r' :
  out (koji_tag.ensure_external_repos tag cm repos w) = Ok r' →
  ∃ chs, r' = notes chs result0.
Proof.
  rewrite ensure_external_repos_plan.
  intros (cur & _ & Hr & _)%bind_ok_inv.
  eexists. by apply apply_changes_out in Hr.
Qed.

Lemma ensure_packages_notes name cm packages id r w r' :
  out (koji_tag.ensure_packages name cm packages id r w) = Ok r' →
  ∃ chs, r' = notes chs r.
Proof.
  destruct (decide (packages = [])) as [->|Hne].
  - intros [= <-]. by exists [].
  - rewrite ensure_packages_plan by done.
    intros (_ & _ & (cur & _ & Hr & _)%bind_ok_inv & _)%bind_ok_inv.
    eexists. by apply apply_changes_out in Hr.
Qed.

Lemma ensure_tag_head_logged name cm kwargs w hd :
  out (koji_tag.ensure_tag_head name cm kwargs w) = Ok hd →
  match hd with
  | inl r => changed_iff_logged r
  | inr (_, r) => changed_iff_logged r
  end.
Proof.
  destruct (rpc_getTag name (hub w)) as [[taginfo|]|e] eqn:Hget.
  - rewrite (ensure_tag_head_present name cm kwargs w taginfo Hget).
    cbv zeta. cbn [out].
    destruct (out (apply_changes cm _ result0 w)) as [r|e] eqn:Hr; [|done].
    intros [= <-]. apply apply_changes_out in Hr as ->.
    by apply changed_iff_logged_notes.
  - destruct cm.
    + rewrite ensure_tag_head_would_create by done. intros [= <-].
      apply changed_iff_logged_note.
    + intros Hhd.
      destruct (ensure_tag_head_created name kwargs w hd Hget Hhd) as [id_ ->].
      apply changed_iff_logged_note.
  - unfold koji_tag.ensure_tag_head, session_getTag.
    rewrite read_bind, Hget. done.
Qed.

Lemma ensure_tag_logged name cm inh repos packages kwargs w r :
  out (koji_tag.ensure_tag name cm inh repos packages kwargs w) = Ok r →
  changed_iff_logged r.
Proof.
  unfold koji_tag.ensure_tag.
  intros (hd & Hhd & Hr & _)%bind_ok_inv.
  apply ensure_tag_head_logged in Hhd.
  destruct hd as [r0|[id r0]]; [by injection Hr as <-|].
  unfold koji_tag.ensure_tag_tail in Hr.
  apply bind_ok_inv in Hr as (r1 & H1 & Hr & _).
  apply ensure_inheritance_notes in H1 as [chs1 ->].
  apply bind_ok_inv in Hr as (r2 & H2 & Hr & _).
  apply ensure_packages_notes in Hr as [chs3 ->].
  apply changed_iff_logged_notes.
  destruct repos as [repos|].
  - apply bind_ok_inv in H2 as (rr & Hrr & H2 & _). injection H2 as <-.
    apply ensure_external_repos_notes in Hrr as [chs2 ->].
    apply changed_iff_logged_merge; by apply changed_iff_logged_notes.
  - injection H2 as <-. by apply changed_iff_logged_notes.
Qed.

(** X18.  The result of [ensure_tag] and of [delete_tag], in check mode
    or not and whatever the service replies, has [changed] true exactly
    when something was logged: an unchanged run has an empty
    [stdout_lines], and every logged line comes with [changed] true. *)
Theorem changed_exactly_when_logged
    name cm inh repos packages kwargs w r :
  (out (koji_tag.ensure_tag name cm inh repos packages kwargs w) = Ok r →
   changed r = true ↔ stdout_lines r ≠ []) ∧
  (out (koji_tag.delete_tag name cm w) = Ok r →
   changed r = true ↔ stdout_lines r ≠ []).
Proof.
  split.
  - apply ensure_tag_logged.
  - rewrite delete_tag_unfold.
    destruct (rpc_getTag name (hub w)) as [[taginfo|]|e]; [|by intros [= <-]|done].
    cbv zeta. destruct cm; [by intros [= <-]|].
    destruct (rpc_ensure_logged_in (hub w)); [|done]. cbn [out].
    destruct (rpc_deleteTag name (hub w)).1; [|done]. by intros [= <-].
Qed.
End Logged.

(** An instance of X18: the run of the example that locks [child]. *)
Lemma changed_exactly_when_logged_witness :
  match out (koji_tag.ensure_tag "child" false [] None []
               examples.locked_kwargs (model.world examples.hub1)) with
  | Ok r => changed r = true ↔ stdout_lines r ≠ []
  | Raise _ => False
  end.
Proof.
  destruct (out (koji_tag.ensure_tag "child" false [] None []
                   examples.locked_kwargs (model.world examples.hub1)))
    as [r|e] eqn:Hrun.
  - exact (proj1 (changed_exactly_when_logged "child" false [] None []
                    examples.locked_kwargs (model.world examples.hub1) r)
                 Hrun).
  - vm_compute in Hrun. discriminate Hrun.
Defined.

(** ** The log and the calls *)

(** A plan each line of which speaks of its call. *)
Lemma edit_changes_described {keys : KeyOrder} name taginfo kwargs :
  Forall (λ ch, describes (ch_line ch) (ch_call ch) ∧
                mutating (ch_call ch) = true)
         (edit_changes name taginfo kwargs).
Proof.
  unfold edit_changes. cbv zeta. destruct (decide _); by repeat constructor.
Qed.

Lemma inheritance_changes_described name inh cur rules :
  Forall (λ ch, describes (ch_line ch) (ch_call ch) ∧
                mutating (ch_call ch) = true)
         (inheritance_changes name inh cur rules).
Proof.
  unfold inheritance_changes. destruct (decide _); by repeat constructor.
Qed.

Lemma repo_changes_described {order : Iteration} tag cur repos :
  Forall (λ ch, describes (ch_line ch) (ch_call ch) ∧
                mutating (ch_call ch) = true)
         (repo_changes tag cur repos).
Proof.
  unfold repo_changes. apply Forall_app. split.
  - apply Forall_forall. intros ch (d & _ & Hd)%list_elem_of_omap.
    unfold repo_change in Hd. destruct (index_repos cur !! d_repo d).
    + destruct (decide _); [done|]. by injection Hd as <-.
    + by injection Hd as <-.
  - apply Forall_forall. by intros ch (n & -> & _)%list_elem_of_fmap.
Qed.

Lemma pkg_changes_described {order : Iteration} name cur packages :
  Forall (λ ch, describes (ch_line ch) (ch_call ch) ∧
                mutating (ch_call ch) = true)
         (pkg_changes name cur packages).
Proof.
  unfold pkg_changes. apply Forall_app. split.
  - apply Forall_forall. intros ch ([o p] & _ & Hd)%list_elem_of_omap.
    unfold pkg_change in Hd. destruct (decide _).
    + destruct (decide _); [done|]. by injection Hd as <-.
    + by injection Hd as <-.
  - destruct (owner_after packages None); [|done].
    apply Forall_forall. by intros ch (n & -> & _)%list_elem_of_fmap.
Qed.

Lemma described_plan chs :
  Forall (λ ch, describes (ch_line ch) (ch_call ch) ∧
                mutating (ch_call ch) = true) chs →
  Forall2 describes (map ch_line chs) (map ch_call chs).
Proof.
  induction 1 as [|ch chs [Hd _] _ IH]; [constructor|].
  by constructor.
Qed.

Section Described.
Context {Hub : Type} `{!Session Hub} {order : Iteration} {keys : KeyOrder}.

Lemma apply_changes_appends chs r w :
  Forall (λ ch, describes (ch_line ch) (ch_call ch) ∧
                mutating (ch_call ch) = true) chs →
  appends stdout_lines (apply_changes false chs r) w (stdout_lines r).
Proof.
  intros Hchs r' Hr'. exists (map ch_line chs).
  pose proof (apply_changes_ok chs r w r' Hr') as (Hcalls & _).
  apply apply_changes_out in Hr' as ->. split; [apply stdout_lines_notes|].
  unfold writes. rewrite Hcalls, writes_of_changes.
  - by apply described_plan.
  - eapply Forall_impl; [exact Hchs|]. by intros ch [_ ?].
Qed.

Lemma appends_reads {A B} (lines : B → list log_line) (m : M Hub A)
    (k : A → M Hub B) w old :
  quiet m →
  (∀ a, out (m w) = Ok a → appends lines (k a) w old) →
  appends lines (m ≫= k) w old.
Proof.
  intros Hq Hk b Hb. destruct (Hq w) as [Hpost Hw].
  apply bind_ok_inv in Hb as (a & Ha & Hb & _).
  rewrite Hpost in Hb. destruct (Hk a Ha b Hb) as (new & Hnew & Hdesc).
  exists new. split; [done|]. rewrite writes_bind, Hw, Ha, Hpost. done.
Qed.

Lemma ensure_inheritance_appends name inh id r w :
  appends stdout_lines (koji_tag.ensure_inheritance name false inh id r) w
          (stdout_lines r).
Proof.
  intros r' Hr'. revert r' Hr'.
  change (appends stdout_lines
            (koji_tag.ensure_inheritance name false inh id r) w
            (stdout_lines r)).
  intros r'. rewrite ensure_inheritance_plan. revert r'.
  apply appends_reads; [apply quiet_build_rules|]. intros rules _.
  apply appends_reads; [by apply quiet_read|]. intros cur _.
  apply apply_changes_appends, inheritance_changes_described.
Qed.

Lemma ensure_external_repos_appends tag repos w :
  appends stdout_lines (koji_tag.ensure_external_repos tag false repos) w [].
Proof.
  intros r'. rewrite ensure_external_repos_plan. revert r'.
  apply appends_reads; [by apply quiet_read|]. intros cur _.
  apply (apply_changes_appends _ result0), repo_changes_described.
Qed.

Lemma ensure_packages_appends name packages id r w :
  appends stdout_lines (koji_tag.ensure_packages name false packages id r) w
          (stdout_lines r).
Proof.
  destruct (decide (packages = [])) as [->|Hne].
  - intros r' [= <-]. exists []. split; [by rewrite app_nil_r|constructor].
  - intros r'. rewrite ensure_packages_plan by done. revert r'.
    apply appends_reads; [by apply quiet_read|]. intros _ _.
    apply appends_reads; [by apply quiet_read|]. intros cur _.
    apply apply_changes_appends, pkg_changes_described.
Qed.

Lemma ensure_tag_head_appends name kwargs w hd :
  out (koji_tag.ensure_tag_head name false kwargs w) = Ok hd →
  ∃ id_ r,
    hd = inr (id_, r) ∧
    Forall2 describes (stdout_lines r)
      (writes (koji_tag.ensure_tag_head name false kwargs w)).
Proof.
  destruct (rpc_getTag name (hub w)) as [[taginfo|]|e] eqn:Hget.
  - rewrite (ensure_tag_head_present name false kwargs w taginfo Hget).
    cbv zeta. cbn [out]. unfold writes. cbn [calls].
    rewrite filter_cons_False by done.
    destruct (out (apply_changes false _ result0 w)) as [r|e] eqn:Hr; [|done].
    intros [= <-]. exists (ti_id taginfo), r. split; [done|].
    destruct (apply_changes_appends _ result0 w
                (edit_changes_described name taginfo kwargs) r Hr)
      as (new & -> & Hdesc).
    done.
  - intros Hhd.
    destruct (ensure_tag_head_created name kwargs w hd Hget Hhd) as [id_ ->].
    exists id_, (note (CreatedTagId id_) result0). split; [done|].
    destruct (rpc_ensure_logged_in (hub w)) as [[]|e] eqn:Hlogin.
    + rewrite ensure_tag_head_absent in Hhd |- * by done.
      cbv zeta in *. cbn [out] in Hhd. unfold writes. cbn [calls].
      rewrite !filter_cons_False by done.
      apply bind_ok_inv in Hhd as (kw & Hkw & Hhd & _ & ->).
      rewrite filter_app, create_unfold. cbn [calls].
      rewrite no_writes_among_reads.
      * rewrite filter_cons_True by done. by repeat constructor.
      * destruct (truthy (kw_perm kwargs)); [|constructor].
        revert w Hget Hlogin Hkw Hhd.
        intros w _ _ _ _. revert w.
        apply calls_in_bind; [by apply calls_in_get_perm_id|].
        intros; apply calls_in_ret.
    + exfalso. revert Hhd.
      unfold koji_tag.ensure_tag_head, session_getTag.
      rewrite read_bind, Hget. cbv beta iota.
      unfold common_koji_ensure_logged_in. rewrite read_bind, Hlogin. done.
  - unfold koji_tag.ensure_tag_head, session_getTag.
    rewrite read_bind, Hget. done.
Qed.

(** X19.  Outside check mode the log of a returned run lists its
    mutating calls one for one and in order: the i-th line of
    [stdout_lines] speaks of the i-th mutating call ('created tag id'
    of [createTag], the edits of [editTag2] with those edits,
    'inheritance is' of [setInheritanceData] with [clear], 'set <repo>
    repo priority to <p>' of [editTagExternalRepo] of that repo and
    priority, and so on), so that there are as many lines as mutating
    calls.  The same holds for the one line and the one call of
    [delete_tag]. *)
Theorem log_lists_the_mutating_calls
    name inh repos packages kwargs w r :
  (out (koji_tag.ensure_tag name false inh repos packages kwargs w) = Ok r →
   Forall2 describes (stdout_lines r)
     (writes (koji_tag.ensure_tag name false inh repos packages kwargs w))) ∧
  (out (koji_tag.delete_tag name false w) = Ok r →
   Forall2 describes (stdout_lines r)
     (writes (koji_tag.delete_tag name false w))).
Proof.
  split.
  - unfold koji_tag.ensure_tag. intros Hr. rewrite writes_bind.
    apply bind_ok_inv in Hr as (hd & Hhd & Hr & _). rewrite Hhd.
    destruct (ensure_tag_head_appends name kwargs w hd Hhd)
      as (id_ & r0 & -> & Hhead).
    set (w1 := post (koji_tag.ensure_tag_head name false kwargs w)) in *.
    clearbody w1. unfold koji_tag.ensure_tag_tail in *.
    rewrite writes_bind.
    apply bind_ok_inv in Hr as (r1 & H1 & Hr & _). rewrite H1.
    destruct (ensure_inheritance_appends name inh id_ r0 w1 r1 H1)
      as (new1 & Hl1 & Hd1).
    set (w2 := post (koji_tag.ensure_inheritance name false inh id_ r0 w1))
      in *.
    clearbody w2. rewrite writes_bind.
    apply bind_ok_inv in Hr as (r2 & H2 & Hr & _). rewrite H2.
    destruct (ensure_packages_appends name packages id_ r2 _ r Hr)
      as (new3 & Hl3 & Hd3).
    rewrite Hl3.
    assert (Hrepos : ∃ new2, stdout_lines r2 = stdout_lines r1 ++ new2 ∧
      Forall2 describes new2
        (writes (match repos with
                 | Some external_repos =>
                     repos_result ← koji_tag.ensure_external_repos name false
                                      external_repos;
                     mret (merge_repos_result r1 repos_result)
                 | None => mret r1
                 end w2))).
    { destruct repos as [repos|].
      - apply bind_ok_inv in H2 as (rr & Hrr & H2 & _). injection H2 as <-.
        destruct (ensure_external_repos_appends name repos w2 rr Hrr)
          as (new2 & Hl2 & Hd2).
        exists new2. cbn [merge_repos_result stdout_lines].
        split; [by rewrite Hl2|].
        rewrite writes_bind, Hrr. unfold writes at 2. cbn [calls mret M_ret ret].
        by rewrite filter_nil, app_nil_r.
      - injection H2 as <-. exists []. split; [by rewrite app_nil_r|].
        constructor. }
    destruct Hrepos as (new2 & Hl2 & Hd2).
    rewrite Hl2, Hl1, !app_assoc.
    apply Forall2_app; [apply Forall2_app; [apply Forall2_app|]|]; done.
  - rewrite delete_tag_unfold.
    destruct (rpc_getTag name (hub w)) as [[taginfo|]|e];
      [|intros [= <-]; constructor|done].
    cbv zeta. destruct (rpc_ensure_logged_in (hub w)); [|done].
    cbn [out]. destruct (rpc_deleteTag name (hub w)).1; [|done].
    intros [= <-]. unfold writes. cbn [calls stdout_lines].
    rewrite !filter_cons_False by done. rewrite filter_cons_True by done.
    by repeat constructor.
Qed.
End Described.

(** An instance of X19: the run of the example that locks [child],
    rebinds its repos and reassigns its package logs four lines for
    four mutating calls. *)
Lemma log_lists_the_mutating_calls_witness :
  match out (koji_tag.ensure_tag "child" false
               [ {| i_parent := "base"; i_priority := 0 |} ]
               (Some [ {| d_repo := "b"; d_priority := 2 |} ])
               [("alice", ["foo"])] examples.locked_kwargs
               (model.world examples.hub1)) with
  | Ok r =>
      Forall2 describes (stdout_lines r)
        (writes (koji_tag.ensure_tag "child" false
               [ {| i_parent := "base"; i_priority := 0 |} ]
               (Some [ {| d_repo := "b"; d_priority := 2 |} ])
               [("alice", ["foo"])] examples.locked_kwargs
               (model.world examples.hub1)))
  | Raise _ => False
  end.
Proof.
  destruct (out (koji_tag.ensure_tag "child" false
               [ {| i_parent := "base"; i_priority := 0 |} ]
               (Some [ {| d_repo := "b"; d_priority := 2 |} ])
               [("alice", ["foo"])] examples.locked_kwargs
               (model.world examples.hub1))) as [r|e] eqn:Hrun.
  - exact (proj1 (log_lists_the_mutating_calls "child"
               [ {| i_parent := "base"; i_priority := 0 |} ]
               (Some [ {| d_repo := "b"; d_priority := 2 |} ])
               [("alice", ["foo"])] examples.locked_kwargs
               (model.world examples.hub1) r) Hrun).
  - vm_compute in Hrun. discriminate Hrun.
Defined.

(** ** The state a run leaves *)

Section Established.
Import model.
Context {order : Iteration} {keys : KeyOrder}.
Implicit Types w : World Hub.

(** After lines 228-298 returned, the tag has the declared rules,
    bindings and packages. *)
Lemma tail_establishes name inh repos pkgs taginfo r0 w1 r :
  tags (hub w1) !! name = Some taginfo →
  functional (declared_repos (default [] repos)) →
  functional (declared_owners pkgs) →
  out (koji_tag.ensure_tag_tail name false inh repos pkgs (ti_id taginfo) r0 w1)
    = Ok r →
  let h := hub (post (koji_tag.ensure_tag_tail name false inh repos pkgs
                        (ti_id taginfo) r0 w1)) in
  tags h = tags (hub w1) ∧
  declared_rules h (ti_id taginfo) inh =
    Some (default [] (inheritance h !! name)) ∧
  (∀ repos', repos = Some repos' →
     agrees (repos_of name h) (declared_repos repos')) ∧
  (pkgs ≠ [] → agrees (pkgs_of (ti_id taginfo) h) (declared_owners pkgs)).
Proof.
  intros Ht Hfr Hfp Hok. cbv zeta. unfold koji_tag.ensure_tag_tail in *.
  apply bind_ok_inv in Hok as (r1 & H1 & Hok & -> & _).
  pose proof (ensure_inheritance_returned _ _ _ _ _ _ H1)
    as (rules & cur & Hrules & Hcur & _ & Hh2 & _).
  set (w2 := post (koji_tag.ensure_inheritance name false inh (ti_id taginfo) r0 w1)) in *.
  pose proof (effects_inheritance_frame name inh cur rules (hub w1))
    as (Ht2 & Hr2 & Hp2 & _). cbv zeta in *.
  pose proof (inheritance_converges name inh cur rules (hub w1) Hcur) as Hi2.
  rewrite <- Hh2 in *. clear Hh2 H1.
  apply bind_ok_inv in Hok as (r2 & H2 & Hok & -> & _).
  match goal with |- context [post (?m w2)] => set (w3 := post (m w2)) in * end.
  assert (H3 : tags (hub w3) = tags (hub w2) ∧
               inheritance (hub w3) = inheritance (hub w2) ∧
               ∀ repos', repos = Some repos' →
                 agrees (repos_of name (hub w3)) (declared_repos repos')).
  { subst w3. destruct repos as [repos'|].
    - apply bind_ok_inv in H2 as (rr & Hrr & _ & -> & _).
      unfold mret at 1 2 3, M_ret at 1 2 3, ret; cbn [post].
      pose proof (ensure_external_repos_returned _ _ _ _ Hrr)
        as (cur' & Hcur' & _ & Hh3 & _).
      assert (cur' = repo_list (repos_of name (hub w2))) as ->
        by (by injection Hcur').
      pose proof (effects_repos_frame name (repo_list (repos_of name (hub w2)))
                    repos' (hub w2)) as (Ht3 & Hi3 & _). cbv zeta in *.
      rewrite Hh3. split; [done|]. split; [done|].
      intros ? [= <-]. rewrite repos_synced. by apply sync_agrees.
    - done. }
  destruct H3 as (Ht3 & Hi3 & Hrepos3). clearbody w3. clear H2.
  match goal with |- context [post (?m w3)] => set (w4 := post (m w3)) in * end.
  assert (H4 : tags (hub w4) = tags (hub w3) ∧
               inheritance (hub w4) = inheritance (hub w3) ∧
               external_repos (hub w4) = external_repos (hub w3) ∧
               (pkgs ≠ [] →
                agrees (pkgs_of (ti_id taginfo) (hub w4))
                       (declared_owners pkgs))).
  { subst w4. destruct (decide (pkgs = [])) as [->|Hne]; [done|].
    pose proof (ensure_packages_returned _ _ _ _ _ _ Hne Hok)
      as (cur'' & _ & Hcur'' & _ & Hh4 & _).
    assert (cur'' = pkg_list (pkgs_of (ti_id taginfo) (hub w3))) as ->
      by (by injection Hcur'').
    pose proof (effects_pkgs_frame name
                  (pkg_list (pkgs_of (ti_id taginfo) (hub w3))) pkgs (hub w3))
      as (Ht4 & Hi4 & Hr4 & _). cbv zeta in *.
    rewrite Hh4. split; [done|]. split; [done|]. split; [done|]. intros _.
    rewrite pkgs_synced; [|done|by rewrite Ht3, Ht2].
    by apply sync_agrees. }
  destruct H4 as (Ht4 & Hi4 & Hr4 & Hpkgs4). clearbody w4.
  split; [by rewrite Ht4, Ht3, Ht2|]. split; [|split; [|done]].
  - rewrite Hi4, Hi3. injection Hi2 as ->. rewrite <- Hrules.
    apply declared_rules_ids. intros p. by rewrite Ht4, Ht3, Ht2.
  - intros repos' ->. unfold repos_of in *. rewrite Hr4. by apply Hrepos3.
Qed.

(** X20.  Against the model of the remote service, with a [perm] that
    is a label or [None], no external repo declared with two priorities
    and no package under two owners, distinct permission ids and a
    cache that is empty or holds the catalog: when a run of
    [ensure_tag] outside check mode returns, the tag exists with the six
    declared attributes, its inheritance is the list of the rules
    declared (one per declared parent, in declared order), its
    external repos are exactly the declared ones with the declared
    priorities when [external_repos] is set, and its packages are
    exactly the declared ones with the declared owners when [packages]
    is not empty. *)
Theorem ensure_tag_establishes_declared_state
    name inh repos pkgs kwargs w r :
  (∀ z, kw_perm kwargs ≠ PermInt z) →
  functional (declared_repos (default [] repos)) →
  functional (declared_owners pkgs) →
  NoDup (map perm_id (perms (hub w))) →
  cache_consistent w →
  out (koji_tag.ensure_tag name false inh repos pkgs kwargs w) = Ok r →
  let h := hub (post (koji_tag.ensure_tag name false inh repos pkgs kwargs w)) in
  ∃ taginfo,
    tags h !! name = Some taginfo ∧
    same_attributes taginfo kwargs ∧
    declared_rules h (ti_id taginfo) inh =
      Some (default [] (inheritance h !! name)) ∧
    (∀ repos', repos = Some repos' →
       agrees (repos_of name h) (declared_repos repos')) ∧
    (pkgs ≠ [] → agrees (pkgs_of (ti_id taginfo) h) (declared_owners pkgs)).
Proof.
  intros Hp Hfr Hfp Hnd Hcache Hok. cbv zeta.
  unfold koji_tag.ensure_tag in *.
  apply bind_ok_inv in Hok as (hd & Hhd & Hok & -> & _).
  assert (Hhead : ∃ r taginfo',
    hd = inr (ti_id taginfo', r) ∧
    tags (hub (post (koji_tag.ensure_tag_head name false kwargs w))) !! name
      = Some taginfo' ∧
    compute_edits taginfo' kwargs = no_edits).
  { destruct (tags (hub w) !! name) as [taginfo|] eqn:Ht.
    - by apply (head_edit_converges name kwargs w taginfo).
    - by apply head_create_converges. }
  destruct Hhead as (r0 & taginfo' & -> & Ht' & He').
  destruct (tail_establishes name inh repos pkgs taginfo' r0 _ r Ht' Hfr Hfp Hok)
    as (Htags & Hrules & Hrepos & Hpkgs).
  exists taginfo'. split; [by rewrite Htags|].
  split; [by apply compute_edits_no_edits|]. done.
Qed.

(** X21.  The [koji_tag] module is idempotent against the model of the
    remote service, for 'present' and for 'absent': with no external
    repo declared with two priorities and no package under two owners,
    distinct permission ids and a cache that is empty or holds the
    catalog, a run that follows one that exited with a result outside
    check mode, whatever the order in which it iterates its sets, exits
    with [changed] false and an empty log, issues no mutating call and
    leaves the state as it is. *)
Theorem module_second_run_changes_nothing
    cm params w r1 (second : Iteration) :
  functional (declared_repos (default [] (p_external_repos params))) →
  functional (declared_owners (p_packages params)) →
  NoDup (map perm_id (perms (hub w))) →
  cache_consistent w →
  m_exit (koji_tag.run_module (order := order) false params w) = ExitJson r1 →
  let w1 := m_final (koji_tag.run_module (order := order) false params w) in
  let o2 := koji_tag.run_module (order := second) cm params w1 in
  m_exit o2 = ExitJson result0 ∧
  m_final o2 = w1 ∧
  Forall (λ c, mutating c = false) (m_calls o2).
Proof.
  intros Hfr Hfp Hnd Hcache. cbv zeta. unfold koji_tag.run_module.
  assert (Hwrap : ∀ f n e r, wrap_exception f n e ≠ ExitJson r)
    by by intros f n [] r.
  assert (Hreads : ∀ l : list call,
    filter (λ c, mutating c = true) l = [] →
    Forall (λ c, mutating c = false) l).
  { intros l Hl. apply Forall_forall. intros c Hc.
    destruct (mutating c) eqn:Hm; [|done].
    assert (Hin : c ∈ filter (λ c, mutating c = true) l)
      by by apply list_elem_of_filter.
    rewrite Hl in Hin. by apply elem_of_nil in Hin. }
  destruct (decide (p_state params = "present")) as [Hpres|Hpres].
  - cbn [m_exit m_final m_calls].
    destruct (out (koji_tag.ensure_tag (order := order) (p_name params) false
                     (p_inheritance params) (p_external_repos params)
                     (p_packages params) (kwargs_of params) w))
      as [r|e] eqn:Hok; [|by intros ?%Hwrap].
    intros _.
    assert (Hp : ∀ z, kw_perm (kwargs_of params) ≠ PermInt z).
    { intros z. cbn. unfold perm_or_none.
      destruct (p_perm params) as [s|]; [|done]. by destruct (decide _). }
    assert (Hconv : converged (order := order)
                      (p_name params) (p_inheritance params)
                      (p_external_repos params) (p_packages params)
                      (kwargs_of params)
                      (hub (post (koji_tag.ensure_tag (order := order)
                         (p_name params) false
                         (p_inheritance params) (p_external_repos params)
                         (p_packages params) (kwargs_of params) w)))).
    { unfold koji_tag.ensure_tag in *.
      apply bind_ok_inv in Hok as (hd & Hhd & Hok & -> & _).
      assert (Hhead : ∃ r taginfo',
        hd = inr (ti_id taginfo', r) ∧
        tags (hub (post (koji_tag.ensure_tag_head (p_name params) false
                           (kwargs_of params) w))) !! p_name params
          = Some taginfo' ∧
        compute_edits taginfo' (kwargs_of params) = no_edits).
      { destruct (tags (hub w) !! p_name params) as [taginfo|] eqn:Ht.
        - by apply (head_edit_converges _ _ w taginfo).
        - by apply head_create_converges. }
      destruct Hhead as (r0 & taginfo' & -> & Ht' & He').
      by apply (tail_converges (order := order) _ _ _ _ _ taginfo' r0 _ r). }
    apply (converged_order (order := order) second) in Hconv.
    destruct (converged_run (order := second) _ cm _ _ _ _ _ Hconv)
      as (Hout & Hpost & Hw).
    rewrite Hout, Hpost. split; [done|]. split; [done|]. by apply Hreads.
  - destruct (decide (p_state params = "absent")) as [Habs|Habs];
      [|done].
    cbn [m_exit m_final m_calls].
    destruct (out (koji_tag.delete_tag (p_name params) false w))
      as [r|e] eqn:Hok; [|by intros ?%Hwrap].
    intros _.
    rewrite delete_tag_unfold.
    rewrite (delete_tag_gone (p_name params) w r); [|intros h|done].
    + cbn [out post calls]. split; [done|]. split; [done|].
      by repeat constructor.
    + cbn. by rewrite lookup_delete_eq.
Qed.
End Established.

(** An instance of X20: the run of the example that locks [child],
    gives it the priority 0 under [base], binds [b] instead of [a] and
    gives [foo] to [alice]. *)
Lemma ensure_tag_establishes_declared_state_witness :
  ∃ taginfo,
    model.tags (hub (post (koji_tag.ensure_tag "child" false
         [ {| i_parent := "base"; i_priority := 0 |} ]
         (Some [ {| d_repo := "b"; d_priority := 2 |} ])
         [("alice", ["foo"])] examples.locked_kwargs
         (model.world examples.hub1)))) !! "child" = Some taginfo ∧
    same_attributes taginfo examples.locked_kwargs.
Proof.
  destruct (out (koji_tag.ensure_tag "child" false
         [ {| i_parent := "base"; i_priority := 0 |} ]
         (Some [ {| d_repo := "b"; d_priority := 2 |} ])
         [("alice", ["foo"])] examples.locked_kwargs
         (model.world examples.hub1))) as [r|e] eqn:Hrun.
  - destruct (ensure_tag_establishes_declared_state "child"
         [ {| i_parent := "base"; i_priority := 0 |} ]
         (Some [ {| d_repo := "b"; d_priority := 2 |} ])
         [("alice", ["foo"])] examples.locked_kwargs
         (model.world examples.hub1) r) as (taginfo & Ht & Hsame & _).
    + intros z. discriminate.
    + intros k v v' Hv%list_elem_of_singleton Hv'%list_elem_of_singleton.
      congruence.
    + intros k v v' Hv%list_elem_of_singleton Hv'%list_elem_of_singleton.
      congruence.
    + repeat constructor. intros Hin. by apply elem_of_nil in Hin.
    + left. reflexivity.
    + exact Hrun.
    + exists taginfo. split; [exact Ht|exact Hsame].
  - vm_compute in Hrun. discriminate Hrun.
Defined.

(** An instance of X21: the module run of the same desired state,
    twice, the second time with the sets iterated in the reverse
    order. *)
Lemma module_second_run_changes_nothing_witness :
  m_exit (koji_tag.run_module (order := reversed_iteration) false
    {| p_name := "child"; p_state := "present";
       p_inheritance := [ {| i_parent := "base"; i_priority := 0 |} ];
       p_external_repos := Some [ {| d_repo := "b"; d_priority := 2 |} ];
       p_packages := [("alice", ["foo"])]; p_arches := None;
       p_perm := Some "admin"; p_locked := true; p_maven_support := false;
       p_maven_include_all := false; p_extra := ∅ |}
    (m_final (koji_tag.run_module false
    {| p_name := "child"; p_state := "present";
       p_inheritance := [ {| i_parent := "base"; i_priority := 0 |} ];
       p_external_repos := Some [ {| d_repo := "b"; d_priority := 2 |} ];
       p_packages := [("alice", ["foo"])]; p_arches := None;
       p_perm := Some "admin"; p_locked := true; p_maven_support := false;
       p_maven_include_all := false; p_extra := ∅ |}
    (model.world examples.hub1))))
  = ExitJson result0.
Proof.
  destruct (m_exit (koji_tag.run_module false
    {| p_name := "child"; p_state := "present";
       p_inheritance := [ {| i_parent := "base"; i_priority := 0 |} ];
       p_external_repos := Some [ {| d_repo := "b"; d_priority := 2 |} ];
       p_packages := [("alice", ["foo"])]; p_arches := None;
       p_perm := Some "admin"; p_locked := true; p_maven_support := false;
       p_maven_include_all := false; p_extra := ∅ |}
    (model.world examples.hub1))) as [r1|msg|f n e] eqn:Hrun.
  - refine (proj1 (module_second_run_changes_nothing false
      {| p_name := "child"; p_state := "present";
         p_inheritance := [ {| i_parent := "base"; i_priority := 0 |} ];
         p_external_repos := Some [ {| d_repo := "b"; d_priority := 2 |} ];
         p_packages := [("alice", ["foo"])]; p_arches := None;
         p_perm := Some "admin"; p_locked := true; p_maven_support := false;
         p_maven_include_all := false; p_extra := ∅ |}
      (model.world examples.hub1) r1 reversed_iteration _ _ _ _ Hrun)).
    + intros k v v' Hv%list_elem_of_singleton Hv'%list_elem_of_singleton.
      congruence.
    + intros k v v' Hv%list_elem_of_singleton Hv'%list_elem_of_singleton.
      congruence.
    + repeat constructor. intros Hin. by apply elem_of_nil in Hin.
    + left. reflexivity.
  - vm_compute in Hrun. discriminate Hrun.
  - vm_compute in Hrun. discriminate Hrun.
Defined.

(** ** Rules, and what check mode still does *)

Section RulesAndCheckMode.
Context {Hub : Type} `{!Session Hub} {order : Iteration} {keys : KeyOrder}.

(** X22.  The loop that builds the inheritance rules changes nothing.
    When it returns it has looked up each declared parent once, in
    declared order, and built one rule per declaration, in that order:
    the child is the tag, the parent is named as declared and
    identified by the id its lookup returned, the priority is the
    declared one, and [intransitive], [maxdepth], [noconfig] and
    [pkg_filter] are false, [None], false and the empty string. *)
Theorem rules_built_from_parents id inh w :
  let o := koji_tag.build_rules id inh w in
  post o = w ∧
  ∀ rules, out o = Ok rules →
    calls o = parent_lookups inh ∧
    Forall2 (λ d rule,
               ∃ t, rpc_getTag (i_parent d) (hub w) = Ok (Some t) ∧
                    rule = {| r_child_id := id; r_intransitive := false;
                              r_maxdepth := None; r_name := i_parent d;
                              r_noconfig := false; r_parent_id := ti_id t;
                              r_pkg_filter := "";
                              r_priority := i_priority d |})
            inh rules.
Proof.
  intros o. subst o. split; [apply quiet_build_rules|].
  intros rules Hok. apply build_rules_ok_inv in Hok.
  rewrite (build_rules_resolved id inh rules w Hok). split; [done|].
  unfold declared_rules in Hok. apply mapM_Some_1 in Hok.
  eapply Forall2_impl; [exact Hok|]. intros d rule Hd. cbn in Hd.
  destruct (rpc_getTag (i_parent d) (hub w)) as [[t|]|e]; [|done|done].
  injection Hd as <-. by exists t.
Qed.

(** X23.  In check mode a tag that does not exist ends the run at once:
    the result is [changed] true with the line 'would create tag
    <name>', the lookup of the tag is the only call, and neither the
    permission, nor the parents, nor external repos or packages are
    looked at. *)
Theorem check_mode_stops_at_missing_tag name inh repos packages kwargs w :
  rpc_getTag name (hub w) = Ok None →
  koji_tag.ensure_tag name true inh repos packages kwargs w =
  {| out := Ok {| changed := true; stdout_lines := [WouldCreateTag name] |};
     post := w; calls := [GetTag name] |}.
Proof.
  intros Hget. unfold koji_tag.ensure_tag.
  rewrite bind_unfold, ensure_tag_head_would_create by done.
  done.
Qed.

(** X24.  The package step logs in and lists the packages of the tag
    in check mode too: with a non-empty [packages], a check-mode run
    whose login fails raises, and one whose login succeeds issues
    [listPackages] and returns the log of the planned changes without
    a mutating call. *)
Theorem package_step_logs_in_in_check_mode name packages id r w :
  packages ≠ [] →
  let o := koji_tag.ensure_packages name true packages id r w in
  post o = w ∧
  match rpc_ensure_logged_in (hub w) with
  | Raise e => out o = Raise e ∧ calls o = [EnsureLoggedIn]
  | Ok _ =>
      calls o = [EnsureLoggedIn; ListPackages id] ∧
      out o = match rpc_listPackages id (hub w) with
              | Ok cur => Ok (notes (pkg_changes name cur packages) r)
              | Raise e => Raise e
              end
  end.
Proof.
  intros Hne o. subst o. split; [apply quiet_ensure_packages|].
  rewrite ensure_packages_plan by done.
  unfold common_koji_ensure_logged_in. rewrite read_bind.
  destruct (rpc_ensure_logged_in (hub w)) as [[]|e]; [|done].
  cbn [out calls]. unfold session_listPackages. rewrite read_bind.
  destruct (rpc_listPackages id (hub w)) as [cur|e]; [|done].
  by rewrite apply_changes_check.
Qed.
End RulesAndCheckMode.

(** An instance of X23: the tag [new] in the example state. *)
Lemma check_mode_stops_at_missing_tag_witness :
  koji_tag.ensure_tag "new" true
    [ {| i_parent := "nope"; i_priority := 0 |} ] None []
    examples.kwargs0 (model.world examples.hub1) =
  {| out := Ok {| changed := true; stdout_lines := [WouldCreateTag "new"] |};
     post := model.world examples.hub1; calls := [GetTag "new"] |}.
Proof.
  apply (check_mode_stops_at_missing_tag "new"
           [ {| i_parent := "nope"; i_priority := 0 |} ] None []
           examples.kwargs0 (model.world examples.hub1)).
  reflexivity.
Defined.

(** An instance of X24: the package step of the example in check
    mode. *)
Lemma package_step_logs_in_in_check_mode_witness :
  calls (koji_tag.ensure_packages "child" true [("alice", ["foo"])] 2
           result0 (model.world examples.hub1))
  = [EnsureLoggedIn; ListPackages 2].
Proof.
  refine (proj1 (proj2 (package_step_logs_in_in_check_mode "child"
            [("alice", ["foo"])] 2 result0 (model.world examples.hub1) _))).
  discriminate.
Defined.

(** ** Check mode and the run, in two processes *)

Lemma same_but_removal_order_refl l : same_but_removal_order l l.
Proof.
  exists l, [], [], [], [], []. rewrite !app_nil_r.
  by repeat split.
Qed.

Lemma same_but_removal_order_Permutation l1 l2 :
  same_but_removal_order l1 l2 → l1 ≡ₚ l2.
Proof.
  intros (a & r1 & r2 & b & p1 & p2 & -> & -> & Hr & Hp & _).
  by rewrite Hr, Hp.
Qed.

Section CheckOrder.
Context {Hub : Type} `{!Session Hub} {keys : KeyOrder}.
Implicit Types w : World Hub.

Lemma repo_lines (o : Iteration) tag cur repos :
  map ch_line (repo_changes (order := o) tag cur repos) =
  map ch_line (omap (repo_change tag (index_repos cur)) repos) ++
  map (λ n, RemovedRepo n tag)
      (@set_order o RepoLoop (repos_to_remove (index_repos cur) repos)).
Proof.
  unfold repo_changes. cbv zeta. rewrite map_app. f_equal.
  by rewrite <- list_fmap_compose.
Qed.

Lemma pkg_lines (o : Iteration) name cur packages :
  map ch_line (pkg_changes (order := o) name cur packages) =
  map ch_line
      (omap (pkg_change name (list_to_set (map p_package_name cur))
                        (owned_index cur).1) (owned_pairs packages)) ++
  match owner_after packages None with
  | Some _ => map RemovePkg (@set_order o PackageLoop (delete_names cur packages))
  | None => []
  end.
Proof.
  unfold pkg_changes. cbv zeta. rewrite map_app. f_equal.
  destruct (owner_after packages None); [|done].
  by rewrite <- list_fmap_compose.
Qed.

Lemma set_orders_Permutation (o1 o2 : Iteration) l (s : gset string) :
  @set_order o1 l s ≡ₚ @set_order o2 l s.
Proof. by rewrite !set_order_elements. Qed.

(** The external-repo step of a check-mode run, in two orders. *)
Lemma repos_step_order (o1 o2 : Iteration) name repos r w rm1 :
  out ((match repos with
        | Some external_repos =>
            repos_result ← koji_tag.ensure_external_repos (order := o1)
                             name true external_repos;
            mret (merge_repos_result r repos_result)
        | None => mret r
        end : M Hub Result) w) = Ok rm1 →
  ∃ rm2 xa xr1 xr2,
    out ((match repos with
          | Some external_repos =>
              repos_result ← koji_tag.ensure_external_repos (order := o2)
                               name true external_repos;
              mret (merge_repos_result r repos_result)
          | None => mret r
          end : M Hub Result) w) = Ok rm2 ∧
    stdout_lines rm1 = stdout_lines r ++ xa ++ xr1 ∧
    stdout_lines rm2 = stdout_lines r ++ xa ++ xr2 ∧
    xr1 ≡ₚ xr2 ∧ Forall repo_removal_line xr1.
Proof.
  destruct repos as [repos|].
  - intros (rr & Hrr & Hm & _)%bind_ok_inv. injection Hm as <-.
    destruct (ensure_external_repos_ok_inv (order := o1) _ _ _ _ _ Hrr)
      as [cur Hcur].
    rewrite (ensure_external_repos_check (order := o1) _ _ _ _ Hcur) in Hrr.
    injection Hrr as <-.
    exists (merge_repos_result r
              (notes (repo_changes (order := o2) name cur repos) result0)),
           (map ch_line (omap (repo_change name (index_repos cur)) repos)),
           (map (λ n, RemovedRepo n name)
                (@set_order o1 RepoLoop (repos_to_remove (index_repos cur) repos))),
           (map (λ n, RemovedRepo n name)
                (@set_order o2 RepoLoop (repos_to_remove (index_repos cur) repos))).
    split; [|split; [|split; [|split]]].
    + rewrite (bind_quiet_out _ _ w
                 (notes (repo_changes (order := o2) name cur repos) result0));
        [done|apply quiet_ensure_external_repos|].
      by apply ensure_external_repos_check.
    + cbn [merge_repos_result stdout_lines].
      by rewrite stdout_lines_notes, repo_lines.
    + cbn [merge_repos_result stdout_lines].
      by rewrite stdout_lines_notes, repo_lines.
    + apply fmap_Permutation, set_orders_Permutation.
    + apply Forall_forall. by intros line (n & -> & _)%list_elem_of_fmap.
  - intros [= <-]. exists r, [], [], []. rewrite !app_nil_r.
    by repeat split.
Qed.

(** The package step of a check-mode run, in two orders. *)
Lemma packages_step_order (o1 o2 : Iteration) name pkgs id rm1 rm2 w r1 :
  out (koji_tag.ensure_packages (order := o1) name true pkgs id rm1 w)
    = Ok r1 →
  ∃ r2 ya yr1 yr2,
    out (koji_tag.ensure_packages (order := o2) name true pkgs id rm2 w)
      = Ok r2 ∧
    stdout_lines r1 = stdout_lines rm1 ++ ya ++ yr1 ∧
    stdout_lines r2 = stdout_lines rm2 ++ ya ++ yr2 ∧
    yr1 ≡ₚ yr2 ∧ Forall package_removal_line yr1.
Proof.
  destruct (decide (pkgs = [])) as [->|Hne].
  - intros [= <-]. exists rm2, [], [], []. rewrite !app_nil_r.
    by repeat split.
  - intros Hr1.
    destruct (ensure_packages_ok_inv (order := o1) _ _ _ _ _ _ _ Hne Hr1)
      as (Hlogin & cur & Hcur).
    rewrite (ensure_packages_check (order := o1) _ _ _ _ _ _ Hne Hlogin Hcur)
      in Hr1.
    injection Hr1 as <-.
    exists (notes (pkg_changes (order := o2) name cur pkgs) rm2),
           (map ch_line
              (omap (pkg_change name (list_to_set (map p_package_name cur))
                                (owned_index cur).1) (owned_pairs pkgs))),
           (match owner_after pkgs None with
            | Some _ => map RemovePkg (@set_order o1 PackageLoop (delete_names cur pkgs))
            | None => []
            end),
           (match owner_after pkgs None with
            | Some _ => map RemovePkg (@set_order o2 PackageLoop (delete_names cur pkgs))
            | None => []
            end).
    split; [|split; [|split; [|split]]].
    + by apply ensure_packages_check.
    + by rewrite stdout_lines_notes, pkg_lines.
    + by rewrite stdout_lines_notes, pkg_lines.
    + destruct (owner_after pkgs None); [|done].
      apply fmap_Permutation, set_orders_Permutation.
    + destruct (owner_after pkgs None); [|constructor].
      apply Forall_forall. by intros line (n & -> & _)%list_elem_of_fmap.
Qed.

(** Two check-mode runs from one state, each iterating its sets in its
    own order, return the same [changed] and the same log up to the
    order of the removal lines. *)
Lemma check_runs_agree (o1 o2 : Iteration) name inh repos pkgs kwargs w r1 :
  out (koji_tag.ensure_tag (order := o1) name true inh repos pkgs kwargs w)
    = Ok r1 →
  ∃ r2,
    out (koji_tag.ensure_tag (order := o2) name true inh repos pkgs kwargs w)
      = Ok r2 ∧
    changed r2 = changed r1 ∧
    same_but_removal_order (stdout_lines r2) (stdout_lines r1).
Proof.
  intros Hr1.
  assert (Hlines : ∃ r2,
    out (koji_tag.ensure_tag (order := o2) name true inh repos pkgs kwargs w)
      = Ok r2 ∧
    same_but_removal_order (stdout_lines r2) (stdout_lines r1)).
  { unfold koji_tag.ensure_tag in *.
    apply bind_ok_inv in Hr1 as (hd & Hhd & Hr1 & _).
    destruct (quiet_ensure_tag_head name kwargs w) as [Hw _].
    rewrite Hw in Hr1.
    rewrite (bind_quiet_out _ _ w hd); [|apply quiet_ensure_tag_head|done].
    destruct hd as [r|[id r0]].
    { injection Hr1 as <-. exists r. split; [done|].
      apply same_but_removal_order_refl. }
    unfold koji_tag.ensure_tag_tail in *.
    apply bind_ok_inv in Hr1 as (ri & Hri & Hr1 & _).
    destruct (quiet_ensure_inheritance name inh id r0 w) as [Hwi _].
    rewrite Hwi in Hr1.
    rewrite (bind_quiet_out _ _ w ri); [|apply quiet_ensure_inheritance|done].
    apply bind_ok_inv in Hr1 as (rm1 & Hrm1 & Hr1 & _).
    assert (Hwm : post ((match repos with
        | Some external_repos =>
            repos_result ← koji_tag.ensure_external_repos (order := o1)
                             name true external_repos;
            mret (merge_repos_result ri repos_result)
        | None => mret ri
        end : M Hub Result) w) = w).
    { destruct repos; [|done].
      apply quiet_bind; [apply quiet_ensure_external_repos|].
      intros; apply quiet_ret. }
    rewrite Hwm in Hr1.
    destruct (repos_step_order o1 o2 name repos ri w rm1 Hrm1)
      as (rm2 & xa & xr1 & xr2 & Hrm2 & Hl1 & Hl2 & Hxr & Hfx).
    rewrite (bind_quiet_out _ _ w rm2); [| |done].
    2:{ destruct repos; [|apply quiet_ret].
        apply quiet_bind; [apply quiet_ensure_external_repos|].
        intros; apply quiet_ret. }
    destruct (packages_step_order o1 o2 name pkgs id rm1 rm2 w r1 Hr1)
      as (r2 & ya & yr1 & yr2 & Hr2 & Hm1 & Hm2 & Hyr & Hfy).
    exists r2. split; [done|].
    exists (stdout_lines ri ++ xa), xr2, xr1, ya, yr2, yr1.
    rewrite Hm1, Hm2, Hl1, Hl2, <- !app_assoc.
    split; [done|]. split; [done|]. split; [done|]. split; [done|].
    split.
    - eapply Forall_forall. intros line Hline. rewrite <- Hxr in Hline.
      by apply (proj1 (Forall_forall _ _) Hfx).
    - eapply Forall_forall. intros line Hline. rewrite <- Hyr in Hline.
      by apply (proj1 (Forall_forall _ _) Hfy). }
  destruct Hlines as (r2 & Hr2 & Hsame). exists r2.
  split; [done|]. split; [|done].
  pose proof (ensure_tag_logged (order := o1) _ _ _ _ _ _ _ _ Hr1) as H1.
  pose proof (ensure_tag_logged (order := o2) _ _ _ _ _ _ _ _ Hr2) as H2.
  apply same_but_removal_order_Permutation in Hsame.
  unfold changed_iff_logged in H1, H2.
  assert (Hnil : stdout_lines r2 = [] ↔ stdout_lines r1 = []).
  { split; intros Hn; rewrite Hn in Hsame.
    - by apply Permutation_nil_l in Hsame.
    - by apply Permutation_nil_r in Hsame. }
  destruct (changed r1), (changed r2); try done.
  - assert (Hne : stdout_lines r1 ≠ []) by by apply H1.
    assert (Hn2 : stdout_lines r2 = []).
    { destruct (stdout_lines r2) eqn:E; [done|].
      assert (false = true); [|done]. by apply H2. }
    by apply Hnil in Hn2.
  - assert (Hne : stdout_lines r2 ≠ []) by by apply H2.
    assert (Hn1 : stdout_lines r1 = []).
    { destruct (stdout_lines r1) eqn:E; [done|].
      assert (false = true); [|done]. by apply H1. }
    by apply Hnil in Hn1.
Qed.

(** What lines 228-298 log comes after what was logged before. *)
Lemma ensure_tag_tail_extends (o : Iteration) name cm inh repos pkgs id r0 w r :
  out (koji_tag.ensure_tag_tail (order := o) name cm inh repos pkgs id r0 w)
    = Ok r →
  ∃ rest, stdout_lines r = stdout_lines r0 ++ rest.
Proof.
  unfold koji_tag.ensure_tag_tail.
  intros (r1 & H1 & Hr & _)%bind_ok_inv.
  apply ensure_inheritance_notes in H1 as [chs1 ->].
  apply bind_ok_inv in Hr as (r2 & H2 & Hr & _).
  apply (ensure_packages_notes (order := o)) in Hr as [chs3 ->].
  destruct repos as [repos|].
  - apply bind_ok_inv in H2 as (rr & Hrr & H2 & _). injection H2 as <-.
    apply (ensure_external_repos_notes (order := o)) in Hrr as [chs2 ->].
    eexists. rewrite stdout_lines_notes. cbn [merge_repos_result stdout_lines].
    rewrite !stdout_lines_notes. cbn [result0 stdout_lines app].
    by rewrite <- !app_assoc.
  - injection H2 as <-. eexists. rewrite !stdout_lines_notes.
    by rewrite <- !app_assoc.
Qed.
End CheckOrder.

Section CheckModeClaim.
Import model.
Context {order : Iteration} {keys : KeyOrder}.
Implicit Types w : World Hub.

(** C1 (amended).  Whatever the session replies, a check-mode run of
    [ensure_tag] leaves the state as it is and issues no mutating call.
    Against the model of the remote service: when the tag exists and the
    run outside check mode returns a result, a check-mode run from the
    same state returns the same [changed] and the same log lines, the
    lines of the external-repo removals and those of the package
    removals possibly in another order, since each of the two
    processes iterates those sets in its own order (both receive the
    keys of the tag's extra in the same order); a check-mode run
    that iterates them in the order of the run returns the very
    result of the run.  When the tag does not exist the check-mode run
    returns [changed] true with the one line 'would create tag', and a
    run outside check mode that returns has [changed] true and a log
    that begins with 'created tag id'. *)
Theorem check_mode_agrees_on_existing_tag
    name inh repos pkgs kwargs w (dry : Iteration) :
  (∀ Remote (remote : Session Remote) (w' : World Remote),
     post (koji_tag.ensure_tag (order := dry) name true inh repos pkgs
             kwargs w') = w' ∧
     writes (koji_tag.ensure_tag (order := dry) name true inh repos pkgs
               kwargs w') = []) ∧
  (∀ taginfo r,
     tags (hub w) !! name = Some taginfo →
     out (koji_tag.ensure_tag (order := order) name false inh repos pkgs
            kwargs w) = Ok r →
     out (koji_tag.ensure_tag (order := order) name true inh repos pkgs
            kwargs w) = Ok r ∧
     ∃ r',
       out (koji_tag.ensure_tag (order := dry) name true inh repos pkgs
              kwargs w) = Ok r' ∧
       changed r' = changed r ∧
       same_but_removal_order (stdout_lines r') (stdout_lines r)) ∧
  (∀ r,
     tags (hub w) !! name = None →
     out (koji_tag.ensure_tag (order := order) name false inh repos pkgs
            kwargs w) = Ok r →
     out (koji_tag.ensure_tag (order := dry) name true inh repos pkgs
            kwargs w) =
       Ok {| changed := true; stdout_lines := [WouldCreateTag name] |} ∧
     changed r = true ∧
     ∃ id_ rest, stdout_lines r = CreatedTagId id_ :: rest).
Proof.
  split; [intros Remote remote w'; apply quiet_ensure_tag|]. split.
  - intros taginfo r Ht Hok.
    assert (Hsame : out (koji_tag.ensure_tag (order := order) name true inh
                           repos pkgs kwargs w) = Ok r).
    { assert (Hget : rpc_getTag name (hub w) = Ok (Some taginfo))
        by (simpl; by rewrite Ht).
      unfold koji_tag.ensure_tag in *.
      apply bind_ok_inv in Hok as (hd & Hhd & Hok & _).
      rewrite (ensure_tag_head_present _ _ _ _ _ Hget) in Hhd, Hok.
      cbn [out post] in Hhd, Hok.
      destruct (out (apply_changes false _ result0 w)) as [r0|] eqn:H0; [|done].
      injection Hhd as <-.
      apply apply_changes_returned in H0 as (-> & Hh1 & _).
      rewrite (bind_quiet_out _ _ w
        (inr (ti_id taginfo, notes (edit_changes name taginfo kwargs) result0)));
        [|apply quiet_ensure_tag_head|].
      + eapply (tail_check_agrees (order := order)); [|exact Hok].
        rewrite Hh1. apply effects_edit_frame.
      + rewrite (ensure_tag_head_present _ _ _ _ _ Hget). simpl.
        by rewrite apply_changes_check. }
    split; [done|]. by apply (check_runs_agree order dry).
  - intros r Ht Hok.
    assert (Hget : rpc_getTag name (hub w) = Ok None) by (simpl; by rewrite Ht).
    split.
    + unfold koji_tag.ensure_tag. rewrite bind_unfold.
      by rewrite (ensure_tag_head_would_create _ _ _ Hget).
    + unfold koji_tag.ensure_tag in Hok.
      apply bind_ok_inv in Hok as (hd & Hhd & Hok & _).
      apply (ensure_tag_head_created _ _ _ _ Hget) in Hhd as (id_ & ->).
      split; [by apply (ensure_tag_tail_changed (order := order)) in Hok|].
      apply ensure_tag_tail_extends in Hok as [rest Hrest].
      exists id_, rest. by rewrite Hrest.
Qed.
End CheckModeClaim.

Lemma check_mode_agrees_on_existing_tag_witness :
  match out (koji_tag.ensure_tag (order := sorted_iteration) "child" false
               [ {| i_parent := "base"; i_priority := 0 |} ] (Some [])
               [("alice", ["foo"])] examples.locked_kwargs
               (model.world examples.hub2)) with
  | Ok r =>
      out (koji_tag.ensure_tag (order := sorted_iteration) "child" true
             [ {| i_parent := "base"; i_priority := 0 |} ] (Some [])
             [("alice", ["foo"])] examples.locked_kwargs
             (model.world examples.hub2)) = Ok r ∧
      ∃ r',
        out (koji_tag.ensure_tag (order := reversed_iteration) "child" true
               [ {| i_parent := "base"; i_priority := 0 |} ] (Some [])
               [("alice", ["foo"])] examples.locked_kwargs
               (model.world examples.hub2)) = Ok r' ∧
        changed r' = changed r ∧
        same_but_removal_order (stdout_lines r') (stdout_lines r)
  | Raise _ => False
  end.
Proof.
  assert (Ht : model.tags (hub (model.world examples.hub2)) !! "child"
               = Some (examples.taginfo0 2)) by (vm_compute; reflexivity).
  destruct (out (koji_tag.ensure_tag (order := sorted_iteration) "child" false
               [ {| i_parent := "base"; i_priority := 0 |} ] (Some [])
               [("alice", ["foo"])] examples.locked_kwargs
               (model.world examples.hub2))) as [r|e] eqn:Hrun.
  - exact (proj1 (proj2 (check_mode_agrees_on_existing_tag
      (order := sorted_iteration) (keys := sorted_keys)
      "child" [ {| i_parent := "base"; i_priority := 0 |} ] (Some [])
      [("alice", ["foo"])] examples.locked_kwargs
      (model.world examples.hub2) reversed_iteration))
      (examples.taginfo0 2) r Ht Hrun).
  - vm_compute in Hrun. discriminate Hrun.
Defined.

(** C1, counterexample.  For a tag that does not exist the two logs
    differ: check mode says 'would create tag t', the run says 'created
    tag id 1'. *)
Lemma check_mode_log_differs_for_new_tag :
  out (koji_tag.ensure_tag "t" true [] None [] examples.kwargs0
         (model.world model.empty_hub))
  = Ok {| changed := true; stdout_lines := [WouldCreateTag "t"] |} ∧
  out (koji_tag.ensure_tag "t" false [] None [] examples.kwargs0
         (model.world model.empty_hub))
  = Ok {| changed := true; stdout_lines := [CreatedTagId 1] |} ∧
  [WouldCreateTag "t"] ≠ [CreatedTagId 1].
Proof.
  split; [vm_compute; reflexivity|]. split; [vm_compute; reflexivity|].
  discriminate.
Qed.

(** For a tag that exists the two logs can differ in the order of the
    removal lines: with the repos a and b bound, the inheritance as
    declared and an empty list of repos declared, a run that iterates the set as a, b logs the removal of
    a first, a check-mode run that iterates it as b, a logs that of b
    first. *)
Example check_mode_removal_lines_in_another_order :
  out (koji_tag.ensure_tag (order := sorted_iteration) "child" false
         [ {| i_parent := "base"; i_priority := 5 |} ]
         (Some []) [] examples.kwargs0 (model.world examples.hub2))
  = Ok {| changed := true;
          stdout_lines := [RemovedRepo "a" "child";
                           RemovedRepo "b" "child"] |} ∧
  out (koji_tag.ensure_tag (order := reversed_iteration) "child" true
         [ {| i_parent := "base"; i_priority := 5 |} ]
         (Some []) [] examples.kwargs0 (model.world examples.hub2))
  = Ok {| changed := true;
          stdout_lines := [RemovedRepo "b" "child";
                           RemovedRepo "a" "child"] |}.
Proof. split; vm_compute; reflexivity. Qed.

(** ** The permission catalog in one process *)






Section OneFetch.
Context {Hub : Type} `{!Session Hub}.
Implicit Types w : World Hub.









Context {order : Iteration} {keys : KeyOrder}.

End OneFetch.

Section CatalogClaim.
Context {Hub : Type} `{!Session Hub} {order : Iteration} {keys : KeyOrder}.
Implicit Types w : World Hub.

End CatalogClaim.

